(** * Knight Dreams: the ground layer generator ([src/game/groundlayer.ts])

    A shallow embedding of the [GroundLayer] class: the per-tile procedural
    generator (slope, type and decoration sub-generators), the ring write of
    [update], the collision probe [objectCollision], the getters and the
    rendering [draw]; and of the asset manager of [src/core/assets.ts].

    Numbers that the generator manipulates are integers and are modelled in
    [Z]; the numbers of the random source are rationals in [Q]; pixel
    quantities that may be fractional (positions, offsets, the scroll speed)
    are binary64 floating-point numbers, as every JavaScript number is, and
    their arithmetic rounds as the code's does.  Layers refer to one another
    through the [ref] field, so the layers live in a heap (a list indexed by
    location) and a layer's methods read the referenced layer through it. *)

From Stdlib Require Import Floats ZArith QArith Qround List Lia Lqa.
From stdpp Require Import base decidable option list numbers strings gmap.

Local Open Scope Z_scope.

(** ** Enumerations *)

Module TileType.
Inductive t := None | Surface | Bridge.
#[global] Instance eq_dec : EqDecision t.
Proof. solve_decision. Defined.
(** The numeric value of the enum, used as a table index. *)
Definition index (x : t) : nat :=
  match x with None => 0%nat | Surface => 1%nat | Bridge => 2%nat end.
End TileType.

Module SlopeDirection.
Inductive t := Up | None | Down.
#[global] Instance eq_dec : EqDecision t.
Proof. solve_decision. Defined.
(** [Up = -1], [None = 0], [Down = 1]. *)
Definition toZ (s : t) : Z :=
  match s with Up => -1 | None => 0 | Down => 1 end.
(** [s *= -1]. *)
Definition neg (s : t) : t :=
  match s with Up => Down | None => None | Down => Up end.
End SlopeDirection.

Module Decoration.
Inductive t := None | Palmtree.
#[global] Instance eq_dec : EqDecision t.
Proof. solve_decision. Defined.
End Decoration.

Module GroundLayerType.
Inductive t := Foreground | Background.
#[global] Instance eq_dec : EqDecision t.
Proof. solve_decision. Defined.
Definition index (x : t) : nat :=
  match x with Foreground => 0%nat | Background => 1%nat end.
End GroundLayerType.

(** ** Constants *)

Definition BASE_SHIFT_X : Z := 2.

Definition SLOPE_WAIT_MIN : Z := 2.
Definition SLOPE_WAIT_MAX : Z := 12.

Definition MIN_HEIGHT : list Z := [1; 2].
Definition MAX_HEIGHT : list Z := [5; 4].

Definition DECORATION_WAIT_MIN : Z := 8.
Definition DECORATION_WAIT_MAX : Z := 16.

(** Constants local to the constructor and to the sub-generators. *)
Definition INITIAL_HEIGHT : list Z := [2; 0].
Definition INITIAL_TYPE : list TileType.t := [TileType.Surface; TileType.None].
Definition SLOPE_DURATION_MIN : Z := 1.
Definition SLOPE_DURATION_MAX : Z := 2.
Definition TYPE_WAIT_MIN : list (list Z) := [[2; 2; 2]; [4; 2; 0]].
Definition TYPE_WAIT_MAX : list (list Z) := [[4; 16; 6]; [16; 10; 0]].
Definition GAP_JUMP_MAX : Z := 2.
Definition BRIDGE_PROB : list Q := [0.33%Q; 0%Q].

(** [table[layerType as number]]. *)
Definition byLayer {A} (table : list A) (d : A) (lt : GroundLayerType.t) : A :=
  nth (GroundLayerType.index lt) table d.

(** [table[layerType as number][tileType]]. *)
Definition byLayerAndType (table : list (list Z)) (lt : GroundLayerType.t)
    (ty : TileType.t) : Z :=
  nth (TileType.index ty) (byLayer table [] lt) 0.

(** ** The random source

    [Math.random()] is modelled by a tape of rationals read through a
    cursor; the draw is the fractional part of the tape cell, so that every
    tape is a legal source of numbers in [[0, 1)]. *)

Definition Rand (A : Type) : Type := (nat → Q) → nat → A * nat.

Definition ret {A} (a : A) : Rand A := λ _ c, (a, c).

Definition bind {A B} (m : Rand A) (k : A → Rand B) : Rand B :=
  λ tape c, let '(a, c') := m tape c in k a tape c'.

Notation "'let*' x ':=' m 'in' k" := (bind m (λ x, k))
  (at level 10, x name, m at level 100, k at level 200).
Notation "'let*' ' p ':=' m 'in' k" := (bind m (λ x, match x with p => k end))
  (at level 10, p pattern, m at level 100, k at level 200).

Definition frac (q : Q) : Q := (q - inject_Z (Qfloor q))%Q.

Definition Math_random : Rand Q := λ tape c, (frac (tape c), S c).

(** [a < b] on numbers. *)
Definition Qltb (a b : Q) : bool := negb (Qle_bool b a).

(** ** Helpers of [common/math] *)

(** Modelled from the spec: [sampleUniform] of [common/math] is not among the
    sources; the spec describes it as a total draw, uniform over the integers
    of the inclusive range ("draw a duration uniformly from {1,2}",
    "uniform(2,12)").  It consumes one number of the random source. *)
Definition sampleUniform (min max : Z) : Rand Z :=
  let* r := Math_random in
  ret (min + Qfloor (r * inject_Z (max - min + 1))).

(** Modelled from the spec: [clamp] of [common/math] is not among the
    sources; the spec speaks of a value "clamped to the valid range". *)
Definition clamp (x min max : Z) : Z := Z.max min (Z.min x max).

(** Modelled from the spec: [negMod] of [common/math] is not among the
    sources; the spec says that ring indices "wrap modulo width".  The result
    is the non-negative remainder; with a zero modulus JavaScript yields
    [NaN], which indexes no slot, hence the [option]. *)
Definition negMod (m n : Z) : option Z :=
  if decide (n = 0) then None else Some (Z.rem (Z.rem m n + n) n).

(** [m % n] of JavaScript on integers: the remainder has the sign of [m]. *)
Definition jsMod (m n : Z) : option Z :=
  if decide (n = 0) then None else Some (Z.rem m n).

(** ** Numbers

    A pixel quantity is a JavaScript number, that is a binary64
    floating-point number: [float], whose operations round to the nearest
    value, ties to even.  A decimal literal denotes the nearest binary64
    value, as it does in JavaScript. *)

#[local] Set Warnings "-inexact-float".

(** An integer as a number: the nearest binary64 value. *)
Definition ofZ (z : Z) : float :=
  SF2Prim (binary_normalize prec emax z 0 false).

(** The integral part of a number, towards zero; 0 for [NaN] and the
    infinities. *)
Definition truncate (f : float) : Z :=
  match Prim2SF f with
  | S754_finite s m e =>
      let t := Z.shiftl (Zpos m) e in if s then - t else t
  | _ => 0
  end.

(** [x | 0]: truncation towards zero, then wrap-around into 32 signed bits. *)
Definition wrap32 (z : Z) : Z := (z + 2 ^ 31) mod 2 ^ 32 - 2 ^ 31.
Definition toInt32 (f : float) : Z := wrap32 (truncate f).

(** ** The layer

    The four arrays are JavaScript arrays, that is objects keyed by index: a
    write at an index that is not yet present adds the key.  They are
    modelled as finite maps from indices to values; an absent key reads as
    [undefined].  [ref] holds the location of the referenced layer. *)

Abbreviation loc := nat.

Record GroundLayer := mkGroundLayer {
  height : gmap Z Z;
  slope : gmap Z SlopeDirection.t;
  type : gmap Z TileType.t;
  decorations : gmap Z Decoration.t;
  activeHeight : Z;
  activeType : TileType.t;
  typeWait : Z;
  slopeWait : Z;
  slopeDuration : Z;
  activeSlope : SlopeDirection.t;
  lastSlope : SlopeDirection.t;
  gapTimer : Z;
  decorationWait : Z;
  ref : option loc;
  layerType : GroundLayerType.t;
  width : Z;
  shift : float
}.

(** Field assignments, [this.f = v]. *)
Definition set_height (v : gmap Z Z) (this : GroundLayer) : GroundLayer :=
  {| height := v; slope := slope this; type := type this;
     decorations := decorations this; activeHeight := activeHeight this;
     activeType := activeType this; typeWait := typeWait this;
     slopeWait := slopeWait this; slopeDuration := slopeDuration this;
     activeSlope := activeSlope this; lastSlope := lastSlope this;
     gapTimer := gapTimer this; decorationWait := decorationWait this;
     ref := ref this; layerType := layerType this; width := width this;
     shift := shift this |}.
Definition set_slope (v : gmap Z SlopeDirection.t) (this : GroundLayer) : GroundLayer :=
  {| height := height this; slope := v; type := type this;
     decorations := decorations this; activeHeight := activeHeight this;
     activeType := activeType this; typeWait := typeWait this;
     slopeWait := slopeWait this; slopeDuration := slopeDuration this;
     activeSlope := activeSlope this; lastSlope := lastSlope this;
     gapTimer := gapTimer this; decorationWait := decorationWait this;
     ref := ref this; layerType := layerType this; width := width this;
     shift := shift this |}.
Definition set_type (v : gmap Z TileType.t) (this : GroundLayer) : GroundLayer :=
  {| height := height this; slope := slope this; type := v;
     decorations := decorations this; activeHeight := activeHeight this;
     activeType := activeType this; typeWait := typeWait this;
     slopeWait := slopeWait this; slopeDuration := slopeDuration this;
     activeSlope := activeSlope this; lastSlope := lastSlope this;
     gapTimer := gapTimer this; decorationWait := decorationWait this;
     ref := ref this; layerType := layerType this; width := width this;
     shift := shift this |}.
Definition set_decorations (v : gmap Z Decoration.t) (this : GroundLayer) : GroundLayer :=
  {| height := height this; slope := slope this; type := type this;
     decorations := v; activeHeight := activeHeight this;
     activeType := activeType this; typeWait := typeWait this;
     slopeWait := slopeWait this; slopeDuration := slopeDuration this;
     activeSlope := activeSlope this; lastSlope := lastSlope this;
     gapTimer := gapTimer this; decorationWait := decorationWait this;
     ref := ref this; layerType := layerType this; width := width this;
     shift := shift this |}.
Definition set_activeHeight (v : Z) (this : GroundLayer) : GroundLayer :=
  {| height := height this; slope := slope this; type := type this;
     decorations := decorations this; activeHeight := v;
     activeType := activeType this; typeWait := typeWait this;
     slopeWait := slopeWait this; slopeDuration := slopeDuration this;
     activeSlope := activeSlope this; lastSlope := lastSlope this;
     gapTimer := gapTimer this; decorationWait := decorationWait this;
     ref := ref this; layerType := layerType this; width := width this;
     shift := shift this |}.
Definition set_activeType (v : TileType.t) (this : GroundLayer) : GroundLayer :=
  {| height := height this; slope := slope this; type := type this;
     decorations := decorations this; activeHeight := activeHeight this;
     activeType := v; typeWait := typeWait this;
     slopeWait := slopeWait this; slopeDuration := slopeDuration this;
     activeSlope := activeSlope this; lastSlope := lastSlope this;
     gapTimer := gapTimer this; decorationWait := decorationWait this;
     ref := ref this; layerType := layerType this; width := width this;
     shift := shift this |}.
Definition set_typeWait (v : Z) (this : GroundLayer) : GroundLayer :=
  {| height := height this; slope := slope this; type := type this;
     decorations := decorations this; activeHeight := activeHeight this;
     activeType := activeType this; typeWait := v;
     slopeWait := slopeWait this; slopeDuration := slopeDuration this;
     activeSlope := activeSlope this; lastSlope := lastSlope this;
     gapTimer := gapTimer this; decorationWait := decorationWait this;
     ref := ref this; layerType := layerType this; width := width this;
     shift := shift this |}.
Definition set_slopeWait (v : Z) (this : GroundLayer) : GroundLayer :=
  {| height := height this; slope := slope this; type := type this;
     decorations := decorations this; activeHeight := activeHeight this;
     activeType := activeType this; typeWait := typeWait this;
     slopeWait := v; slopeDuration := slopeDuration this;
     activeSlope := activeSlope this; lastSlope := lastSlope this;
     gapTimer := gapTimer this; decorationWait := decorationWait this;
     ref := ref this; layerType := layerType this; width := width this;
     shift := shift this |}.
Definition set_slopeDuration (v : Z) (this : GroundLayer) : GroundLayer :=
  {| height := height this; slope := slope this; type := type this;
     decorations := decorations this; activeHeight := activeHeight this;
     activeType := activeType this; typeWait := typeWait this;
     slopeWait := slopeWait this; slopeDuration := v;
     activeSlope := activeSlope this; lastSlope := lastSlope this;
     gapTimer := gapTimer this; decorationWait := decorationWait this;
     ref := ref this; layerType := layerType this; width := width this;
     shift := shift this |}.
Definition set_activeSlope (v : SlopeDirection.t) (this : GroundLayer) : GroundLayer :=
  {| height := height this; slope := slope this; type := type this;
     decorations := decorations this; activeHeight := activeHeight this;
     activeType := activeType this; typeWait := typeWait this;
     slopeWait := slopeWait this; slopeDuration := slopeDuration this;
     activeSlope := v; lastSlope := lastSlope this;
     gapTimer := gapTimer this; decorationWait := decorationWait this;
     ref := ref this; layerType := layerType this; width := width this;
     shift := shift this |}.
Definition set_lastSlope (v : SlopeDirection.t) (this : GroundLayer) : GroundLayer :=
  {| height := height this; slope := slope this; type := type this;
     decorations := decorations this; activeHeight := activeHeight this;
     activeType := activeType this; typeWait := typeWait this;
     slopeWait := slopeWait this; slopeDuration := slopeDuration this;
     activeSlope := activeSlope this; lastSlope := v;
     gapTimer := gapTimer this; decorationWait := decorationWait this;
     ref := ref this; layerType := layerType this; width := width this;
     shift := shift this |}.
Definition set_gapTimer (v : Z) (this : GroundLayer) : GroundLayer :=
  {| height := height this; slope := slope this; type := type this;
     decorations := decorations this; activeHeight := activeHeight this;
     activeType := activeType this; typeWait := typeWait this;
     slopeWait := slopeWait this; slopeDuration := slopeDuration this;
     activeSlope := activeSlope this; lastSlope := lastSlope this;
     gapTimer := v; decorationWait := decorationWait this;
     ref := ref this; layerType := layerType this; width := width this;
     shift := shift this |}.
Definition set_decorationWait (v : Z) (this : GroundLayer) : GroundLayer :=
  {| height := height this; slope := slope this; type := type this;
     decorations := decorations this; activeHeight := activeHeight this;
     activeType := activeType this; typeWait := typeWait this;
     slopeWait := slopeWait this; slopeDuration := slopeDuration this;
     activeSlope := activeSlope this; lastSlope := lastSlope this;
     gapTimer := gapTimer this; decorationWait := v; ref := ref this;
     layerType := layerType this; width := width this;
     shift := shift this |}.
Definition set_ref (v : option loc) (this : GroundLayer) : GroundLayer :=
  {| height := height this; slope := slope this; type := type this;
     decorations := decorations this; activeHeight := activeHeight this;
     activeType := activeType this; typeWait := typeWait this;
     slopeWait := slopeWait this; slopeDuration := slopeDuration this;
     activeSlope := activeSlope this; lastSlope := lastSlope this;
     gapTimer := gapTimer this; decorationWait := decorationWait this;
     ref := v; layerType := layerType this; width := width this;
     shift := shift this |}.

(** The layers of the game, addressed by location. *)
Abbreviation Heap := (list GroundLayer).

(** What [this.ref] denotes at the moment of a read: the referenced layer as
    the heap has it, or [this] itself as it currently is when the layer
    refers to itself.  [None] stands for [undefined]; a location outside
    the heap, which [setReferenceLayer] never stores, reads as [undefined]
    too. *)
Definition resolve (σ : Heap) (l : loc) (this : GroundLayer) : option GroundLayer :=
  match ref this with
  | Some r => if decide (r = l) then Some this else σ !! r
  | None => None
  end.

(** ** Construction *)

(** [(new Array(n)).fill(v)]: the keys [0 .. n-1], all bound to [v]. *)
Definition fillArray {A} (n : Z) (v : A) : gmap Z A :=
  list_to_map ((λ i, (i, v)) <$> seqZ 0 n).

(** [new GroundLayer(width, type, shift)].  [new Array(width)] raises a
    [RangeError] unless [width] is an integer in [[0, 2^32 - 1]]; this is the
    only way in which the constructor fails, and it does so before any
    random number is drawn. *)
Definition new_GroundLayer (width : Z) (type : GroundLayerType.t)
    (shift : float)
    : Rand (option GroundLayer) :=
  let activeHeight := byLayer INITIAL_HEIGHT 0 type in
  let activeType := byLayer INITIAL_TYPE TileType.None type in
  if decide (0 ≤ width < 2 ^ 32) then
    let* slopeWait := sampleUniform SLOPE_WAIT_MIN SLOPE_WAIT_MAX in
    let* decorationWait := sampleUniform DECORATION_WAIT_MIN DECORATION_WAIT_MAX in
    ret (Some {|
      height := fillArray width activeHeight;
      slope := fillArray width SlopeDirection.None;
      type := fillArray width activeType;
      decorations := fillArray width Decoration.None;
      activeHeight := activeHeight;
      activeType := activeType;
      typeWait := 0;
      slopeWait := slopeWait;
      slopeDuration := 0;
      activeSlope := SlopeDirection.None;
      lastSlope := SlopeDirection.None;
      gapTimer := 0;
      decorationWait := decorationWait;
      ref := None;
      layerType := type;
      width := width;
      shift := shift |})
  else ret None.

(** ** The generator *)

Section Methods.

(** The view of [this.ref], see [resolve]. *)
Variable rf : GroundLayer → option GroundLayer.

Definition getHeightRange (this : GroundLayer) : Z * Z :=
  let min := byLayer MIN_HEIGHT 0 (layerType this) in
  let max := byLayer MAX_HEIGHT 0 (layerType this) in
  if decide (layerType this = GroundLayerType.Background) then
    (min + from_option activeHeight 0 (rf this),
     max + from_option activeHeight 0 (rf this))
  else (min, max).

(** The part of [updateSlope] that follows the coupled-slope block: the
    random slope initiation and the height step. *)
Definition randomSlope (min max : Z) (this : GroundLayer) : Rand GroundLayer :=
  let* this :=
    if decide (activeType this = TileType.Surface) then
      if decide (2 ≤ typeWait this) then
        let this := set_slopeWait (slopeWait this - 1) this in
        if decide (slopeWait this ≤ 0) then
          let* d := sampleUniform SLOPE_DURATION_MIN SLOPE_DURATION_MAX in
          let this := set_slopeDuration (Z.min (typeWait this - 1) d) this in
          let* w := sampleUniform SLOPE_WAIT_MIN SLOPE_WAIT_MAX in
          let this := set_slopeWait ((slopeDuration this - 1) + w) this in
          let* r := Math_random in
          let this :=
            set_activeSlope
              (if Qltb r 0.5 then SlopeDirection.Up else SlopeDirection.Down)
              this in
          let nextHeight :=
            activeHeight this
            - SlopeDirection.toZ (activeSlope this) * slopeDuration this in
          let this :=
            if decide (nextHeight ≠ clamp nextHeight min max)
            then set_activeSlope (SlopeDirection.neg (activeSlope this)) this
            else this in
          ret (set_typeWait (typeWait this + 1) this)
        else ret this
      else ret this
    else ret this in
  ret (set_activeHeight
         (activeHeight this - SlopeDirection.toZ (activeSlope this)) this).

(** The assignments of the coupled-slope block, up to its [return]. *)
Definition forceAscent (this : GroundLayer) : GroundLayer :=
  let this := set_activeSlope SlopeDirection.Up this in
  let this := set_slopeWait 2 this in
  let this := set_slopeDuration 0 this in
  let this :=
    set_activeHeight
      (activeHeight this - SlopeDirection.toZ (activeSlope this)) this in
  set_typeWait (typeWait this + 1) this.

(** The test of the coupled-slope block. *)
Definition coupledSlopeTest (this : GroundLayer) : bool :=
  if decide (activeType this = TileType.Surface
             ∧ layerType this = GroundLayerType.Background) then
    match rf this with
    | Some r =>
        let dif := activeHeight this - activeHeight r in
        bool_decide ((activeSlope r = SlopeDirection.Up ∧ dif ≤ 2) ∨ dif ≤ 1)
    | None => false
    end
  else false.

(** The opening of [updateSlope]: remember the slope, count the running
    slope down and flatten it once it has run out. *)
Definition expireSlope (this : GroundLayer) : GroundLayer :=
  let this := set_lastSlope (activeSlope this) this in
  let this := set_slopeDuration (slopeDuration this - 1) this in
  if decide (slopeDuration this ≤ 0)
  then set_activeSlope SlopeDirection.None this else this.

Definition updateSlope (this : GroundLayer) : Rand GroundLayer :=
  let this := expireSlope this in
  let '(min, max) := getHeightRange this in
  if coupledSlopeTest this then ret (forceAscent this)
  else randomSlope min max this.

Definition updateType (this : GroundLayer) : Rand GroundLayer :=
  let '(minHeight, maxHeight) := getHeightRange this in
  let this :=
    if decide (activeType this = TileType.None)
    then set_gapTimer (gapTimer this + 1) this else this in
  let this := set_typeWait (typeWait this - 1) this in
  if decide (typeWait this ≤ 0 ∧ lastSlope this = SlopeDirection.None) then
    let* this :=
      if decide (activeType this ≠ TileType.Surface) then
        let this := set_activeType TileType.Surface this in
        let* this :=
          if decide (layerType this = GroundLayerType.Background) then
            let* h := sampleUniform minHeight maxHeight in
            ret (set_activeHeight h this)
          else ret this in
        ret (set_gapTimer 0 this)
      else
        let* r := Math_random in
        let this :=
          set_activeType
            (if Qltb r (byLayer BRIDGE_PROB 0%Q (layerType this))
             then TileType.Bridge else TileType.None) this in
        if decide (layerType this = GroundLayerType.Foreground
                   ∧ activeType this = TileType.None) then
          let min := Z.max minHeight (activeHeight this - GAP_JUMP_MAX) in
          let max := Z.min maxHeight (activeHeight this + GAP_JUMP_MAX) in
          let* h := sampleUniform min max in
          ret (set_activeHeight h this)
        else ret this in
    let* w :=
      sampleUniform
        (byLayerAndType TYPE_WAIT_MIN (layerType this) (activeType this))
        (byLayerAndType TYPE_WAIT_MAX (layerType this) (activeType this)) in
    ret (set_typeWait w this)
  else ret this.

(** The test that rejects a placement once the countdown has run out.
    [this.ref?.activeType !== TileType.None] holds when the reference is
    [undefined]. *)
Definition placementRejected (this : GroundLayer) : Prop :=
  activeType this ≠ TileType.Surface ∨
  activeSlope this ≠ SlopeDirection.None ∨
  (layerType this = GroundLayerType.Foreground ∧
   activeType <$> rf this ≠ Some TileType.None).

#[local] Instance placementRejected_dec this : Decision (placementRejected this).
Proof. unfold placementRejected. apply _. Defined.

Definition updateDecorations (tilePointer : Z) (this : GroundLayer)
    : Rand (bool * GroundLayer) :=
  let this := set_decorationWait (decorationWait this - 1) this in
  if decide (0 < decorationWait this) then ret (false, this)
  else if decide (placementRejected this) then ret (false, this)
  else
    let this :=
      set_decorations
        (<[tilePointer := Decoration.Palmtree]> (decorations this)) this in
    let* w := sampleUniform DECORATION_WAIT_MIN DECORATION_WAIT_MAX in
    ret (true, set_decorationWait w this).

(** The three array writes that end [update]. *)
Definition writeTile (tilePointer : Z) (this : GroundLayer) : GroundLayer :=
  let this := set_height (<[tilePointer := activeHeight this]> (height this)) this in
  let this := set_type (<[tilePointer := activeType this]> (type this)) this in
  set_slope (<[tilePointer := activeSlope this]> (slope this)) this.

(** [update(tilePointer)] on the layer itself. *)
Definition updateLayer (tilePointer : Z) (this : GroundLayer) : Rand GroundLayer :=
  let* this := updateSlope this in
  let* this := updateType this in
  let* '(placed, this) := updateDecorations tilePointer this in
  let this :=
    if negb placed
    then set_decorations
           (<[tilePointer := Decoration.None]> (decorations this)) this
    else this in
  ret (writeTile tilePointer this).

End Methods.

(** ** Methods on the heap *)

(** [l.update(tilePointer)]; [None] when [l] is not a layer of the heap. *)
Definition update (l : loc) (tilePointer : Z) (σ : Heap) : Rand (option Heap) :=
  match σ !! l with
  | Some this =>
      let* this := updateLayer (resolve σ l) tilePointer this in
      ret (Some (<[l := this]> σ))
  | None => ret None
  end.

(** [l.setReferenceLayer(r)]. *)
Definition setReferenceLayer (l r : loc) (σ : Heap) : option Heap :=
  match σ !! l, σ !! r with
  | Some this, Some _ => Some (<[l := set_ref (Some r) this]> σ)
  | _, _ => None
  end.

(** ** The collision probe *)

Record ProgramEvent := { screenHeight : float }.

(** One call [o.floorCollision(x1, y1, x2, y2, globalSpeed, event, left, right)].
    The ordinates are [None] when they are [NaN], which happens only when
    the height slot of the tile is [undefined]. *)
Record FloorCollision := {
  fc_x1 : float; fc_y1 : option Z; fc_x2 : float; fc_y2 : option Z;
  fc_speed : float; fc_event : ProgramEvent;
  fc_left : Z; fc_right : Z
}.

(** [arr[i]] where the index may be [NaN]. *)
Definition slot {A} (arr : gmap Z A) (i : option Z) : option A :=
  i ≫= (arr !!.).

(** [Number(a == TileType.None)], where [a] may be [undefined]. *)
Definition isEmpty (a : option TileType.t) : Z :=
  Z.b2z (bool_decide (a = Some TileType.None)).

Definition OFFSET : Z := 2.

(** The body of the loop of [objectCollision] at column [x]: the calls it
    makes on the actor. *)
Definition collideColumn (this : GroundLayer) (globalSpeed : float)
    (tilePointer : Z) (tileOffset : float) (event : ProgramEvent) (h x : Z)
    : list FloorCollision :=
  let i := negMod (x + tilePointer) (width this) in
  if decide (slot (type this) i = Some TileType.None) then []
  else
    let left :=
      isEmpty (slot (type this) (i ≫= λ i, negMod (i - 1) (width this))) in
    let right :=
      isEmpty (slot (type this) (i ≫= λ i, jsMod (i + 1) (width this))) in
    let dx :=
      (ofZ x * 16 - tileOffset - ofZ BASE_SHIFT_X * 16
       + shift this)%float in
    let dy := (λ t, (h - t) * 16) <$> slot (height this) i in
    match slot (slope this) i with
    | Some SlopeDirection.None =>
        [ {| fc_x1 := dx; fc_y1 := dy; fc_x2 := dx + 16; fc_y2 := dy;
             fc_speed := globalSpeed; fc_event := event;
             fc_left := left; fc_right := right |} ]
    | Some SlopeDirection.Up =>
        [ {| fc_x1 := dx; fc_y1 := (λ y, y + 16) <$> dy;
             fc_x2 := dx + 16; fc_y2 := dy;
             fc_speed := globalSpeed; fc_event := event;
             fc_left := 0; fc_right := 0 |} ]
    | Some SlopeDirection.Down =>
        [ {| fc_x1 := dx; fc_y1 := (λ y, y - 16) <$> dy;
             fc_x2 := dx + 16; fc_y2 := dy;
             fc_speed := globalSpeed; fc_event := event;
             fc_left := 0; fc_right := 0 |} ]
    | None => []
    end.

(** The actor's tile column, [px]. *)
Definition actorColumn (this : GroundLayer) (ox : float) : Z :=
  toInt32 ((ox - shift this) / 16) + BASE_SHIFT_X.

(** [objectCollision(o, globalSpeed, tilePointer, tileOffset, event)], where
    [ox] is [o.getPosition().x]: the calls made on [o], in order. *)
Definition objectCollision (this : GroundLayer) (ox globalSpeed : float)
    (tilePointer : Z) (tileOffset : float) (event : ProgramEvent)
    : list FloorCollision :=
  let h := toInt32 (screenHeight event / 16) in
  let px := actorColumn this ox in
  flat_map (collideColumn this globalSpeed tilePointer tileOffset event h)
           (seqZ (px - OFFSET) (2 * OFFSET + 1)).

(** ** Programs over the heap

    A driver constructs layers, wires references and calls [update]. *)

Inductive Op :=
| New (width : Z) (type : GroundLayerType.t) (shift : float)
| SetReferenceLayer (l r : loc)
| Update (l : loc) (tilePointer : Z).

(** The state of a run: the heap and the cursor of the random tape. *)
Definition World : Type := Heap * nat.

Definition initial : World := ([], 0%nat).

(** One operation; [None] when it raises or addresses no layer. *)
Definition step (tape : nat → Q) (op : Op) (w : World) : option World :=
  let '(σ, c) := w in
  match op with
  | New width type shift =>
      let '(r, c') := new_GroundLayer width type shift tape c in
      (λ this, (σ ++ [this], c')) <$> r
  | SetReferenceLayer l r => (λ σ', (σ', c)) <$> setReferenceLayer l r σ
  | Update l tilePointer =>
      let '(r, c') := update l tilePointer σ tape c in
      (λ σ', (σ', c')) <$> r
  end.

Fixpoint run (tape : nat → Q) (ops : list Op) (w : World) : option World :=
  match ops with
  | [] => Some w
  | op :: ops => step tape op w ≫= run tape ops
  end.

(** A tape given by its first cells. *)
Definition tapeOf (cells : list Q) : nat → Q := λ n, nth n cells 0%Q.

(** The driver of the game: a foreground and a background layer that refer
    to each other, then [n] ticks in which the foreground layer is updated
    before the background layer, the tile pointer advancing by one and
    wrapping at the width of the ring. *)
Definition setup (width : Z) : list Op :=
  [ New width GroundLayerType.Foreground 0;
    New width GroundLayerType.Background 8;
    SetReferenceLayer 1 0;
    SetReferenceLayer 0 1 ].

Definition ticks (width : Z) (n : nat) : list Op :=
  flat_map
    (λ p, [Update 0 (Z.of_nat p mod width); Update 1 (Z.of_nat p mod width)])
    (seq 0 n).

(** ** Invariants of the generator *)

(** A slope on a tile that is not a surface can only be the ascent that the
    coupled-slope block has just forced on a background layer. *)
Definition slopeImpliesSurface (g : GroundLayer) : Prop :=
  activeSlope g ≠ SlopeDirection.None →
  activeType g = TileType.Surface
  ∨ (layerType g = GroundLayerType.Background ∧ is_Some (ref g)
     ∧ activeSlope g = SlopeDirection.Up ∧ slopeDuration g = 0).

(** A running slope never carries the height out of [[lo, hi]]: the height
    is in the range, and so is the height at which a slope of duration two
    will end. *)
Definition slopeStaysWithin (lo hi : Z) (g : GroundLayer) : Prop :=
  lo ≤ activeHeight g ≤ hi
  ∧ (activeSlope g ≠ SlopeDirection.None → 2 ≤ slopeDuration g →
     lo ≤ activeHeight g
          - SlopeDirection.toZ (activeSlope g) * (slopeDuration g - 1) ≤ hi).

(** The active height lies in the range that [getHeightRange] computes. *)
Definition heightInRange (rf : GroundLayer → option GroundLayer)
    (g : GroundLayer) : Prop :=
  (getHeightRange rf g).1 ≤ activeHeight g ≤ (getHeightRange rf g).2.

(** The layer at location [l] once the driver has run [ops] from the empty
    heap; [None] when the run raises or [l] is no layer. *)
Definition layerAfter (tape : nat → Q) (ops : list Op) (l : loc)
    : option GroundLayer :=
  run tape ops initial ≫= λ w, w.1 !! l.

(** The tile record held at slot [p]. *)
Definition tileAt (g : GroundLayer) (p : Z)
    : option Z * option TileType.t * option SlopeDirection.t
      * option Decoration.t :=
  (height g !! p, type g !! p, slope g !! p, decorations g !! p).

(** ** Scenarios

    Tapes for the random source under which the driver reaches the states
    discussed below. *)

(** The foreground layer opens a gap on the first tick, surfaces on the
    third, climbs on the fifth and jumps up into a gap on the seventh; the
    background layer surfaces two tiles above it with a hold of four. *)
Definition tapeForcedAscent : nat → Q :=
  tapeOf [0; 0; 10#11; 0; 1#2; 1#4; 0; 0; 2#9; 1#15; 0; 0; 0; 1#2; 3#5;
          0; 0; 0]%Q.

(** The background layer surfaces in the middle of its range, three tiles
    above the foreground layer, and begins a slope of duration two on the
    third tick. *)
Definition tapeLongSlope : nat → Q :=
  tapeOf [10#11; 0; 0; 0; 1#2; 1#4; 2#3; 1#3; 8#9; 1#2; 0; 0]%Q.

(** The foreground layer opens a gap on the first tick, surfaces on the
    fifth and opens a gap again on the eighth; the background layer surfaces
    four tiles above it with a long hold and no slope. *)
Definition tapeTreeOverGap : nat → Q :=
  tapeOf [10#11; 8#9; 10#11; 0; 1#2; 1#4; 2#3; 2#3; 8#9; 1#15; 1#2; 1#4;
          0; 0]%Q.

(** The world in which a run ends (the initial world when it raises), and
    a layer of a world (a blank layer when there is none). *)
Definition worldAfter (tape : nat → Q) (ops : list Op) : World :=
  default initial (run tape ops initial).

#[global] Instance GroundLayer_inhabited : Inhabited GroundLayer :=
  populate
    {| height := ∅; slope := ∅; type := ∅; decorations := ∅;
       activeHeight := 0; activeType := TileType.None; typeWait := 0;
       slopeWait := 0; slopeDuration := 0;
       activeSlope := SlopeDirection.None; lastSlope := SlopeDirection.None;
       gapTimer := 0; decorationWait := 0; ref := None;
       layerType := GroundLayerType.Foreground; width := 0; shift := 0 |}.

Definition layerOf (w : World) (l : loc) : GroundLayer := w.1 !!! l.

(** Under [tapeForcedAscent]: the fifth tick, on which both layers climb;
    the world in which the foreground layer has just climbed and the
    background layer is next; the seventh tick, on which the background
    layer is forced up while it turns into a gap. *)
Definition opsClimb : list Op := setup 10 ++ ticks 10 4 ++ [Update 0 4].
Definition worldClimb : World := worldAfter tapeForcedAscent opsClimb.
Definition worldClimbed : World :=
  worldAfter tapeForcedAscent (setup 10 ++ ticks 10 5).
Definition worldGapWithAscent : World :=
  worldAfter tapeForcedAscent (setup 10 ++ ticks 10 7).
Definition worldCountdownOverGap : World :=
  worldAfter tapeForcedAscent (setup 10 ++ ticks 10 7 ++ [Update 0 7]).

(** Under [tapeLongSlope]: the first tick, on which the background layer
    surfaces; the second tick before and after the update of the background
    layer; the fourth tick. *)
Definition opsSurfacing : list Op := setup 10 ++ [Update 0 0].
Definition worldSurfaced : World :=
  worldAfter tapeLongSlope (opsSurfacing ++ [Update 1 0]).
Definition worldFar : World :=
  worldAfter tapeLongSlope (setup 10 ++ ticks 10 1 ++ [Update 0 1]).
Definition worldStillFlat : World :=
  worldAfter tapeLongSlope (setup 10 ++ ticks 10 2).
Definition worldSlid : World :=
  worldAfter tapeLongSlope (setup 10 ++ ticks 10 4).

(** Under [tapeTreeOverGap]: the eighth tick. *)
Definition worldTreeOverGap : World :=
  worldAfter tapeTreeOverGap (setup 10 ++ ticks 10 8).

(** The foreground layer turns into a bridge on the first tick and into a
    long surface on the third; the background layer surfaces on the first
    tick and opens a long gap on the third.  On the eighth tick the
    countdown of the foreground layer runs out. *)
Definition tapeTreeOnForeground : nat → Q :=
  tapeOf [10#11; 0; 10#11; 8#9; 0; 0; 2#3; 0; 14#15; 0; 12#13; 0]%Q.
Definition worldTreeOnForeground : World :=
  worldAfter tapeTreeOnForeground (setup 10 ++ ticks 10 7 ++ [Update 0 7]).

(** A foreground layer on its own, whose reference is never set, updated
    [n] times; under the tape of zeros its countdown has run out on the
    ninth update, on a flat surface. *)
Definition opsLone (n : nat) : list Op :=
  New 10 GroundLayerType.Foreground 0
  :: map (λ p, Update 0 (Z.of_nat p)) (seq 0 n).
Definition tapeZero : nat → Q := tapeOf [].
Definition worldLone : World := worldAfter tapeZero (opsLone 9).

(** No decoration is held by a foreground layer without a reference. *)
Definition noPalmtree (g : GroundLayer) : Prop :=
  ref g = None → layerType g = GroundLayerType.Foreground →
  ∀ i d, decorations g !! i = Some d → d = Decoration.None.

(** Under [tapeForcedAscent] on a ring of width 4: after the fifth tick the
    tile pointer has wrapped, and the climbing tile of the foreground layer
    in slot 0 is followed in the ring by the gap in slot 1. *)
Definition worldRing : World :=
  worldAfter tapeForcedAscent (setup 4 ++ ticks 4 5).
Definition eventRing : ProgramEvent := {| screenHeight := 192 |}.

(** A reference set once tiles have been generated. *)
Definition opsLateReference : list Op :=
  [ New 10 GroundLayerType.Foreground 0; New 10 GroundLayerType.Background 8;
    Update 0 0; Update 1 0; SetReferenceLayer 1 0 ].

(** The floor segment of a tile: flat, ascending or descending. *)
Definition segmentOf (s : SlopeDirection.t) (dx : float) (dy : Z)
    (globalSpeed : float) (event : ProgramEvent) (left right : Z)
    : FloorCollision :=
  match s with
  | SlopeDirection.None =>
      {| fc_x1 := dx; fc_y1 := Some dy; fc_x2 := dx + 16; fc_y2 := Some dy;
         fc_speed := globalSpeed; fc_event := event;
         fc_left := left; fc_right := right |}
  | SlopeDirection.Up =>
      {| fc_x1 := dx; fc_y1 := Some (dy + 16); fc_x2 := dx + 16;
         fc_y2 := Some dy;
         fc_speed := globalSpeed; fc_event := event;
         fc_left := 0; fc_right := 0 |}
  | SlopeDirection.Down =>
      {| fc_x1 := dx; fc_y1 := Some (dy - 16); fc_x2 := dx + 16;
         fc_y2 := Some dy;
         fc_speed := globalSpeed; fc_event := event;
         fc_left := 0; fc_right := 0 |}
  end.

(** ** Getters *)

Definition getHeight (this : GroundLayer) : Z := activeHeight this.

Definition hasGap (this : GroundLayer) : bool :=
  bool_decide (activeType this = TileType.None).

Definition getDistanceFromPlatform (this : GroundLayer) : Z :=
  Z.min (gapTimer this) (typeWait this).

(** ** Rendering

    [draw] is modelled by the calls of [canvas.drawBitmap] it makes, in
    order.  An argument that is not a number (it is [NaN] or [undefined]
    when a slot of the ring is [undefined]) is [None]. *)

Section Rendering.

Context {Bitmap : Type}.

Record Canvas := { canvasHeight : float }.

(** One call [canvas.drawBitmap(bmp, dx, dy, sx, sy, sw, sh)]. *)
Record DrawBitmap := {
  db_bmp : option Bitmap;
  db_dx : float; db_dy : option Z;
  db_sx : option Z; db_sy : Z; db_sw : Z; db_sh : Z
}.

Definition BRIDGE_Y_OFF : Z := -2.
Definition BASE_SRC_X : list Z := [80; 32; 96].
Definition YOFF : list Z := [0; 0; -1].

(** [table[dir + 1]]. *)
Definition bySlope (table : list Z) (dir : option SlopeDirection.t)
    : option Z :=
  dir ≫= λ s, table !! Z.to_nat (SlopeDirection.toZ s + 1).

(** [a != TileType.Surface], where [a] may be [undefined]. *)
Definition notSurface (a : option TileType.t) : bool :=
  negb (bool_decide (a = Some TileType.Surface)).

(** [if (left) sx -= 16; else if (right) sx += 16;]. *)
Definition edgeShift (left right : bool) (sx : option Z) : option Z :=
  if left then (λ v, v - 16) <$> sx
  else if right then (λ v, v + 16) <$> sx
  else sx.

(** A binary operation on numbers that may not be numbers. *)
Definition lift2 (f : Z → Z → Z) (a b : option Z) : option Z :=
  a ≫= λ x, b ≫= λ y, Some (f x y).

Definition drawDecoration (bmp : option Bitmap)
    (decoration : option Decoration.t) (dx : float) (dy : option Z)
    : list DrawBitmap :=
  match decoration with
  | Some Decoration.Palmtree =>
      [ {| db_bmp := bmp; db_dx := dx - 8; db_dy := (λ y, y - 33) <$> dy;
           db_sx := Some 160; db_sy := 0; db_sw := 32; db_sh := 33 |} ]
  | _ => []
  end.

(** The fill below a surface tile: the loop over [y]. *)
Definition drawFill (bmp : option Bitmap) (dx : float) (dy : option Z)
    (sx : option Z) (h : Z) (start : option Z) : list DrawBitmap :=
  match start with
  | Some y0 =>
      (λ y, {| db_bmp := bmp; db_dx := dx; db_dy := Some (y * 16);
               db_sx := sx;
               db_sy := if decide (Some y = dy) then 0 else 16;
               db_sw := 16; db_sh := 16 |})
      <$> seqZ y0 (h - y0)
  | None => []
  end.

(** The body of the loop of [draw] at column [x]. *)
Definition drawColumn (this : GroundLayer) (bmp : option Bitmap)
    (tilePointer : Z) (tileOffset : float) (h x : Z) : list DrawBitmap :=
  let i := jsMod (x + tilePointer) (width this) in
  let dir := slot (slope this) i in
  let dx :=
    (ofZ x * 16 - ofZ (toInt32 tileOffset)
     - ofZ BASE_SHIFT_X * 16 + shift this)%float in
  let dy := (λ t, h - t) <$> slot (height this) i in
  let left :=
    notSurface (slot (type this) (i ≫= λ i, negMod (i - 1) (width this))) in
  let right :=
    notSurface (slot (type this) (i ≫= λ i, jsMod (i + 1) (width this))) in
  (if decide (slot (decorations this) i ≠ Some Decoration.None)
   then drawDecoration bmp (slot (decorations this) i) dx
          ((λ y, y * 16) <$> dy)
   else [])
  ++ match slot (type this) i with
     | Some TileType.Surface =>
         let yoff := bySlope YOFF dir in
         [ {| db_bmp := bmp; db_dx := dx;
              db_dy := lift2 (λ a b, a * 16 + b * 16) dy yoff;
              db_sx := edgeShift left right (bySlope BASE_SRC_X dir);
              db_sy := 0; db_sw := 16; db_sh := 32 |} ]
         ++ drawFill bmp dx dy (edgeShift left right (Some 32)) h
              (lift2 (λ a b, a + b + 2) dy yoff)
         ++ (if left
             then [ {| db_bmp := bmp; db_dx := dx - 16;
                       db_dy := (λ y, y * 16) <$> dy;
                       db_sx := Some 0; db_sy := 0;
                       db_sw := 16; db_sh := 16 |} ]
             else [])
         ++ (if right
             then [ {| db_bmp := bmp; db_dx := dx + 16;
                       db_dy := (λ y, y * 16) <$> dy;
                       db_sx := Some 64; db_sy := 0;
                       db_sw := 16; db_sh := 16 |} ]
             else [])
     | Some TileType.Bridge =>
         [ {| db_bmp := bmp; db_dx := dx;
              db_dy := (λ y, y * 16 + BRIDGE_Y_OFF) <$> dy;
              db_sx := Some 96; db_sy := 32; db_sw := 16; db_sh := 16 |} ]
     | _ => []
     end.

(** [draw(canvas, bmp, tilePointer, tileOffset)]. *)
Definition draw (this : GroundLayer) (canvas : Canvas) (bmp : option Bitmap)
    (tilePointer : Z) (tileOffset : float) : list DrawBitmap :=
  let h := toInt32 (canvasHeight canvas / 16) in
  flat_map (drawColumn this bmp tilePointer tileOffset h)
           (seqZ 0 (width this)).

End Rendering.

(** ** The asset manager ([src/core/assets.ts])

    The two maps are finite maps over names.  [loadBitmap] creates an image
    and registers its [onload] callback, which the browser runs later, if
    ever; the images whose callback has not run yet are kept beside the
    manager. *)

Section Assets.

Context {Bitmap Sample : Type}.

Record AssetManager := {
  bitmaps : gmap string Bitmap;
  samples : gmap string Sample;
  loaded : Z;
  totalAssets : Z
}.

(** [new AssetManager()]. *)
Definition newAssetManager : AssetManager :=
  {| bitmaps := ∅; samples := ∅; loaded := 0; totalAssets := 0 |}.

Definition addBitmap (name : string) (bmp : option Bitmap)
    (this : AssetManager) : AssetManager :=
  match bmp with
  | None => this
  | Some b =>
      {| bitmaps := <[name := b]> (bitmaps this); samples := samples this;
         loaded := loaded this; totalAssets := totalAssets this |}
  end.

Definition addSample (name : string) (sample : Sample)
    (this : AssetManager) : AssetManager :=
  {| bitmaps := bitmaps this; samples := <[name := sample]> (samples this);
     loaded := loaded this; totalAssets := totalAssets this |}.

Definition getBitmap (name : string) (this : AssetManager) : option Bitmap :=
  bitmaps this !! name.

Definition getSample (name : string) (this : AssetManager) : option Sample :=
  samples this !! name.

Definition hasLoaded (this : AssetManager) : bool :=
  bool_decide (totalAssets this ≤ loaded this).

(** The body of the [onload] callback that [loadBitmap(name, path)] sets on
    the image [img]. *)
Definition onload (name : string) (img : Bitmap) (this : AssetManager)
    : AssetManager :=
  let this := addBitmap name (Some img) this in
  {| bitmaps := bitmaps this; samples := samples this;
     loaded := loaded this + 1; totalAssets := totalAssets this |}.

(** [loadBitmap(name, path)], where [img] is the image that the call
    creates: the manager counts the asset, and the callback waits. *)
Definition loadBitmap (name path : string) (img : Bitmap)
    (this : AssetManager) : AssetManager * (string * Bitmap) :=
  ({| bitmaps := bitmaps this; samples := samples this;
      loaded := loaded this; totalAssets := totalAssets this + 1 |},
   (name, img)).

(** The manager together with the callbacks that wait. *)
Record Loader := {
  manager : AssetManager;
  waiting : list (string * Bitmap)
}.

Inductive AssetEvent :=
| AddBitmap (name : string) (bmp : option Bitmap)
| AddSample (name : string) (sample : Sample)
| LoadBitmap (name path : string) (img : Bitmap)
| Onload (k : nat).

(** One event; [Onload k] runs the [k]-th waiting callback and is no event
    when there is none. *)
Definition assetStep (e : AssetEvent) (s : Loader) : Loader :=
  match e with
  | AddBitmap name bmp =>
      {| manager := addBitmap name bmp (manager s); waiting := waiting s |}
  | AddSample name sample =>
      {| manager := addSample name sample (manager s);
         waiting := waiting s |}
  | LoadBitmap name path img =>
      let '(m, cb) := loadBitmap name path img (manager s) in
      {| manager := m; waiting := waiting s ++ [cb] |}
  | Onload k =>
      match waiting s !! k with
      | Some (name, img) =>
          {| manager := onload name img (manager s);
             waiting := delete k (waiting s) |}
      | None => s
      end
  end.

Definition assetRun (es : list AssetEvent) (s : Loader) : Loader :=
  foldl (λ s e, assetStep e s) s es.

Definition newLoader : Loader :=
  {| manager := newAssetManager; waiting := [] |}.

(** The bookkeeping of the loader: every asset counted by [loadBitmap] is
    either loaded or still waiting for its callback. *)
Definition loaderInv (s : Loader) : Prop :=
  loaded (manager s) + Z.of_nat (length (waiting s))
    = totalAssets (manager s)
  ∧ 0 ≤ loaded (manager s).

(** The names requested so far by [loadBitmap]. *)
Definition requested (es : list AssetEvent) : list string :=
  omap (λ e, match e with LoadBitmap name _ _ => Some name | _ => None end)
       es.

(** What an event never undoes: the names that are bound and the
    counters. *)
Definition extends (s s' : Loader) : Prop :=
  (∀ name, is_Some (getBitmap name (manager s)) →
           is_Some (getBitmap name (manager s')))
  ∧ (∀ name, is_Some (getSample name (manager s)) →
             is_Some (getSample name (manager s')))
  ∧ loaded (manager s) ≤ loaded (manager s')
  ∧ totalAssets (manager s) ≤ totalAssets (manager s').

End Assets.

(** ** Invariants of the timers and of the ring *)

(** The clock of a gap: [gapTimer] counts the tiles of the gap generated so
    far and [typeWait] those still to come; their sum is the length drawn
    when the gap opened.  Outside a gap [gapTimer] is 0.  A background layer
    starts in a gap that has no length: it ends with the first tile. *)
Definition gapClock (g : GroundLayer) : Prop :=
  0 ≤ gapTimer g
  ∧ (activeType g ≠ TileType.None → gapTimer g = 0)
  ∧ (activeType g = TileType.None →
     (layerType g = GroundLayerType.Background
      ∧ typeWait g = 0 ∧ gapTimer g = 0
      ∧ activeSlope g = SlopeDirection.None)
     ∨ (1 ≤ typeWait g
        ∧ byLayerAndType TYPE_WAIT_MIN (layerType g) TileType.None
          ≤ typeWait g + gapTimer g
          ≤ byLayerAndType TYPE_WAIT_MAX (layerType g) TileType.None
        ∧ (activeSlope g ≠ SlopeDirection.None → 2 ≤ typeWait g))).

(** The ring of a layer holds tile records: at every index the four arrays
    hold a record that satisfies [T], or the index is in none of them, and
    is then no slot of the ring. *)
Definition tiles (T : Z → TileType.t → SlopeDirection.t → Decoration.t → Prop)
    (g : GroundLayer) : Prop :=
  ∀ i, match tileAt g i with
       | (Some h, Some t, Some s, Some d) => T h t s d
       | (None, None, None, None) => ¬ (0 ≤ i < width g)
       | _ => False
       end.

(** A well-formed tile record of a layer of type [lt]: a palm tree stands
    on a flat surface tile; the background layer has no bridges; in the
    foreground layer the height is between 1 and 5 and only surface tiles
    are sloped. *)
Definition tileOK (lt : GroundLayerType.t) (h : Z) (t : TileType.t)
    (s : SlopeDirection.t) (d : Decoration.t) : Prop :=
  (d = Decoration.Palmtree →
   t = TileType.Surface ∧ s = SlopeDirection.None)
  ∧ (lt = GroundLayerType.Background → t ≠ TileType.Bridge)
  ∧ (lt = GroundLayerType.Foreground →
     1 ≤ h ≤ 5 ∧ (s ≠ SlopeDirection.None → t = TileType.Surface)).

(** The invariant of a layer with its ring. *)
Definition ringInv (g : GroundLayer) : Prop :=
  slopeImpliesSurface g
  ∧ (layerType g = GroundLayerType.Foreground → slopeStaysWithin 1 5 g)
  ∧ (layerType g = GroundLayerType.Background →
     activeType g ≠ TileType.Bridge)
  ∧ 0 ≤ width g < 2 ^ 32
  ∧ tiles (tileOK (layerType g)) g.

(** The number of calls of [update] on layer [l] in a program. *)
Fixpoint updatesOf (l : loc) (ops : list Op) : nat :=
  match ops with
  | [] => 0
  | Update l' _ :: ops =>
      ((if decide (l' = l) then 1 else 0) + updatesOf l ops)%nat
  | _ :: ops => updatesOf l ops
  end.

(** The clock of a slope of the foreground layer: a slope runs for one or
    two tiles, its duration is less than both the slope wait and the hold
    timer, and the second tile of a slope continues the first.  The hold
    timer is 0 only in a new layer. *)
Definition slopeClock (g : GroundLayer) : Prop :=
  layerType g = GroundLayerType.Foreground →
  0 ≤ typeWait g
  ∧ (typeWait g = 0 →
     activeSlope g = SlopeDirection.None ∧ lastSlope g = SlopeDirection.None)
  ∧ (activeSlope g ≠ SlopeDirection.None →
     1 ≤ slopeDuration g ≤ 2
     ∧ slopeDuration g < slopeWait g
     ∧ slopeDuration g < typeWait g
     ∧ (lastSlope g ≠ SlopeDirection.None →
        slopeDuration g = 1 ∧ lastSlope g = activeSlope g)).

(** The state of a foreground layer within a gap, [n] tiles before the
    platform. *)
Definition inGap (n h : Z) (g : GroundLayer) : Prop :=
  layerType g = GroundLayerType.Foreground
  ∧ activeType g = TileType.None
  ∧ activeSlope g = SlopeDirection.None
  ∧ typeWait g = n ∧ activeHeight g = h.

(** ** Further scenarios *)

(** Under [tapeForcedAscent]: the two layers once they are wired, the first
    tile of the foreground layer, and the world before the fifth tick. *)
Definition worldFresh : World := worldAfter tapeForcedAscent (setup 10).
Definition worldFirstTile : World :=
  worldAfter tapeForcedAscent (setup 10 ++ [Update 0 0]).
Definition worldBeforeClimb : World :=
  worldAfter tapeForcedAscent (setup 10 ++ ticks 10 4).

(** Under [tapeTreeOverGap]: the eighth tick, before the update of the
    background layer. *)
Definition worldBeforeTree : World :=
  worldAfter tapeTreeOverGap (setup 10 ++ ticks 10 7 ++ [Update 0 7]).

(** A new background layer of width 4. *)
Definition layerFresh : GroundLayer :=
  default inhabitant
    (new_GroundLayer 4 GroundLayerType.Background 8 tapeZero 0%nat).1.

(** A canvas of twelve rows of tiles. *)
Definition canvasRing : Canvas := {| canvasHeight := 192 |}.

(** An image is requested, a sample is added, the image arrives. *)
Definition eventsLoad : list (@AssetEvent string string) :=
  [ LoadBitmap "tiles" "tiles.png" "image of tiles.png";
    AddSample "jump" "sample of jump";
    Onload 0 ].

(** Under [tapeForcedAscent]: the hold of the surface of the foreground
    layer has run out after the sixth tick, and the seventh tile of the
    foreground layer opens a gap. *)
Definition worldHoldOut : World :=
  worldAfter tapeForcedAscent (setup 10 ++ ticks 10 6).
Definition worldHoldEnds : World :=
  worldAfter tapeForcedAscent (setup 10 ++ ticks 10 6 ++ [Update 0 6]).


(** Under [tapeForcedAscent]: the foreground layer in its first gap, two
    tiles and one tile before the platform. *)
Definition worldGapOpen : World :=
  worldAfter tapeForcedAscent (setup 10 ++ ticks 10 1).
Definition worldGapEnds : World :=
  worldAfter tapeForcedAscent (setup 10 ++ ticks 10 2).

(** A foreground layer whose shift is a tenth of a pixel, after its first
    tile. *)
Definition opsShifted : list Op :=
  [New 4 GroundLayerType.Foreground 0.1; Update 0 0].
Definition worldShifted : World := worldAfter tapeZero opsShifted.

(** * Properties *)

(** ** The random source *)

Lemma frac_range q : (0 <= frac q)%Q ∧ (frac q < 1)%Q.
Proof.
  unfold frac.
  pose proof (Qfloor_le q) as Hlo.
  pose proof (Qlt_floor q) as Hhi. rewrite inject_Z_plus in Hhi.
  change (inject_Z 1) with 1%Q in Hhi.
  split; lra.
Qed.

Lemma Math_random_next tape c : snd (Math_random tape c) = S c.
Proof. reflexivity. Qed.

Lemma scaled_draw_range (r : Q) (k : Z) :
  (0 <= r)%Q → (r < 1)%Q → 0 < k → 0 ≤ Qfloor (r * inject_Z k) < k.
Proof.
  intros H0 H1 Hk.
  assert (Hk' : (0 < inject_Z k)%Q).
  { change 0%Q with (inject_Z 0). rewrite <- Zlt_Qlt. exact Hk. }
  split.
  - rewrite <- (Qfloor_Z 0). apply Qfloor_resp_le.
    apply Qmult_le_0_compat; [exact H0 | apply Qlt_le_weak, Hk'].
  - rewrite Zlt_Qlt.
    eapply Qle_lt_trans; [apply Qfloor_le|].
    assert (H : (r * inject_Z k < 1 * inject_Z k)%Q)
      by (apply Qmult_lt_compat_r; assumption).
    lra.
Qed.

(** A draw of [sampleUniform] lies in its range and consumes one number. *)
Lemma sampleUniform_range min max tape c :
  min ≤ max →
  min ≤ fst (sampleUniform min max tape c) ≤ max
  ∧ snd (sampleUniform min max tape c) = S c.
Proof.
  intros Hle. unfold sampleUniform, bind, ret, Math_random. cbn [fst snd].
  destruct (frac_range (tape c)) as [H0 H1].
  pose proof (scaled_draw_range (frac (tape c)) (max - min + 1) H0 H1) as H.
  split; [lia | reflexivity].
Qed.

Lemma sampleUniform_next min max tape c :
  snd (sampleUniform min max tape c) = S c.
Proof. reflexivity. Qed.

(** ** Symbolic execution of the sub-generators *)

#[local] Arguments sampleUniform : simpl never.
#[local] Arguments Math_random : simpl never.

Ltac rand_step :=
  match goal with
  | |- context [getHeightRange ?rf ?x] =>
      let R := fresh "R" in
      destruct (getHeightRange rf x) as [? ?] eqn:R
  | |- context [sampleUniform ?a ?b ?t ?c] =>
      let v := fresh "v" in
      let E := fresh "E" in
      pose proof (sampleUniform_range a b t c) as E;
      destruct (sampleUniform a b t c) as [v ?]; cbn [fst snd] in E
  | |- context [Math_random ?t ?c] =>
      let v := fresh "r" in
      destruct (Math_random t c) as [v ?]
  | |- context [decide ?P] =>
      let D := fresh "D" in destruct (decide P) as [D|D]
  | |- context [coupledSlopeTest ?rf ?x] =>
      destruct (coupledSlopeTest rf x) eqn:?
  | |- context [Qltb ?a ?b] => destruct (Qltb a b)
  | _ : context [decide ?P] |- _ =>
      let D := fresh "D" in destruct (decide P) as [D|D]
  end.

Ltac rand_run :=
  unfold bind, ret; cbn; repeat (rand_step; unfold bind, ret; cbn); cbn in *.

Lemma updateLayer_unfold rf tp this tape c :
  updateLayer rf tp this tape c =
    let s1 := updateSlope rf this tape c in
    let s2 := updateType rf (fst s1) tape (snd s1) in
    let s3 := updateDecorations rf tp (fst s2) tape (snd s2) in
    (writeTile tp
       (if negb (fst (fst s3))
        then set_decorations
               (<[tp := Decoration.None]> (decorations (snd (fst s3))))
               (snd (fst s3))
        else snd (fst s3)),
     snd s3).
Proof.
  unfold updateLayer, bind, ret. cbn zeta.
  destruct (updateSlope rf this tape c) as [s1 c1]. cbn [fst snd].
  destruct (updateType rf s1 tape c1) as [s2 c2]. cbn [fst snd].
  destruct (updateDecorations rf tp s2 tape c2) as [[b s3] c3]. reflexivity.
Qed.

Lemma coupledSlopeTest_true rf this :
  coupledSlopeTest rf this = true ↔
  activeType this = TileType.Surface
  ∧ layerType this = GroundLayerType.Background
  ∧ ∃ r, rf this = Some r ∧
      ((activeSlope r = SlopeDirection.Up
        ∧ activeHeight this - activeHeight r ≤ 2)
       ∨ activeHeight this - activeHeight r ≤ 1).
Proof.
  unfold coupledSlopeTest. split.
  - destruct (decide _) as [[? ?]|]; [|discriminate].
    destruct (rf this) as [r|]; [|discriminate].
    intros Hb%bool_decide_eq_true. eauto.
  - intros (HT & HL & r & Hr & Hd).
    destruct (decide _) as [_|N]; [|tauto].
    rewrite Hr. apply bool_decide_eq_true. exact Hd.
Qed.

Lemma expireSlope_frame this :
  let this' := expireSlope this in
  height this' = height this ∧ slope this' = slope this
  ∧ type this' = type this ∧ decorations this' = decorations this
  ∧ activeHeight this' = activeHeight this
  ∧ activeType this' = activeType this ∧ typeWait this' = typeWait this
  ∧ slopeWait this' = slopeWait this
  ∧ slopeDuration this' = slopeDuration this - 1
  ∧ lastSlope this' = activeSlope this ∧ gapTimer this' = gapTimer this
  ∧ decorationWait this' = decorationWait this ∧ ref this' = ref this
  ∧ layerType this' = layerType this ∧ width this' = width this
  ∧ shift this' = shift this.
Proof. unfold expireSlope. cbn. destruct (decide _); repeat split. Qed.

(** What [updateSlope] leaves alone. *)
Lemma updateSlope_frame rf this tape c :
  let this' := fst (updateSlope rf this tape c) in
  height this' = height this ∧ slope this' = slope this
  ∧ type this' = type this ∧ decorations this' = decorations this
  ∧ activeType this' = activeType this
  ∧ lastSlope this' = activeSlope this ∧ gapTimer this' = gapTimer this
  ∧ decorationWait this' = decorationWait this ∧ ref this' = ref this
  ∧ layerType this' = layerType this ∧ width this' = width this
  ∧ shift this' = shift this.
Proof.
  unfold updateSlope, randomSlope, expireSlope, forceAscent.
  rand_run; repeat split; reflexivity.
Qed.

(** The three ways in which [updateSlope] ends on a slope: a random slope
    has just begun, the coupled-slope block has forced an ascent, or a slope
    of duration two continues. *)
Lemma updateSlope_slope rf this tape c :
  let this' := fst (updateSlope rf this tape c) in
  activeSlope this' ≠ SlopeDirection.None →
    (activeType this = TileType.Surface ∧ 3 ≤ typeWait this')
  ∨ (layerType this = GroundLayerType.Background
     ∧ is_Some (rf (expireSlope this))
     ∧ activeSlope this' = SlopeDirection.Up ∧ slopeDuration this' = 0)
  ∨ (activeSlope this ≠ SlopeDirection.None ∧ 2 ≤ slopeDuration this).
Proof.
  unfold updateSlope. cbn zeta.
  destruct (getHeightRange rf (expireSlope this)) as [min max].
  destruct (coupledSlopeTest rf (expireSlope this)) eqn:T.
  - apply coupledSlopeTest_true in T as (? & HL & r & Hr & _).
    intros _. right. left. unfold ret, forceAscent. cbn.
    split; [|split; [rewrite Hr; eauto | auto]].
    destruct (expireSlope_frame this) as (_&_&_&_&_&_&_&_&_&_&_&_&_&<-&_).
    exact HL.
  - clear T. unfold randomSlope, expireSlope.
    rand_run; intros; try congruence;
      try (left; split; [assumption|lia]);
      try (right; right; split; [assumption|lia]).
Qed.

(** The type changes only when the hold timer has run out and the previous
    tile was flat. *)
Lemma updateType_type rf this tape c :
  let this' := fst (updateType rf this tape c) in
  activeSlope this' = activeSlope this
  ∧ slopeDuration this' = slopeDuration this
  ∧ layerType this' = layerType this ∧ ref this' = ref this
  ∧ (activeType this' = activeType this
     ∨ (typeWait this ≤ 1 ∧ lastSlope this = SlopeDirection.None)).
Proof.
  unfold updateType.
  rand_run; repeat split; auto; right; destruct_and?;
    split; (assumption || lia).
Qed.

Lemma updateDecorations_active rf tp this tape c :
  let this' := snd (fst (updateDecorations rf tp this tape c)) in
  activeSlope this' = activeSlope this
  ∧ slopeDuration this' = slopeDuration this
  ∧ layerType this' = layerType this ∧ ref this' = ref this
  ∧ activeType this' = activeType this
  ∧ activeHeight this' = activeHeight this.
Proof. unfold updateDecorations. rand_run; repeat split; reflexivity. Qed.

Lemma updateLayer_slopeImpliesSurface rf tp this tape c :
  (∀ x, is_Some (rf x) → is_Some (ref x)) →
  slopeImpliesSurface this →
  slopeImpliesSurface (fst (updateLayer rf tp this tape c)).
Proof.
  intros Hrf Hinv. rewrite updateLayer_unfold. cbn zeta. cbn [fst].
  pose proof (updateSlope_slope rf this tape c) as H1.
  pose proof (updateSlope_frame rf this tape c) as F1.
  destruct (updateSlope rf this tape c) as [s1 c1]. cbn [fst snd] in *.
  pose proof (updateType_type rf s1 tape c1) as H2.
  destruct (updateType rf s1 tape c1) as [s2 c2]. cbn [fst snd] in *.
  pose proof (updateDecorations_active rf tp s2 tape c2) as H3.
  destruct (updateDecorations rf tp s2 tape c2) as [[b s3] c3].
  cbn [fst snd] in *.
  destruct H2 as (A1 & A2 & A3 & A4 & A5).
  destruct H3 as (B1 & B2 & B3 & B4 & B5 & _).
  destruct F1 as (_ & _ & _ & _ & F5 & F6 & _ & _ & F9 & F10 & _).
  assert (G : ∀ g, activeSlope g = activeSlope s1 →
                   slopeDuration g = slopeDuration s1 →
                   layerType g = layerType s1 → ref g = ref s1 →
                   activeType g = activeType s2 → slopeImpliesSurface g).
  { intros g G1 G2 G3 G4 G5 Hs. rewrite G1 in Hs.
    rewrite G1, G2, G3, G4, G5.
    destruct (H1 Hs) as [[T W]|[(L & R & U & Z0)|[S0 D0]]].
    - left. destruct A5 as [->|[? ?]]; [congruence|lia].
    - right. repeat split; try congruence.
      apply Hrf in R.
      destruct (expireSlope_frame this)
        as (_&_&_&_&_&_&_&_&_&_&_&_&E&_).
      congruence.
    - left. destruct A5 as [->|[? ?]]; [|congruence].
      rewrite F5.
      destruct (Hinv S0) as [?|(_ & _ & _ & ?)]; [assumption|lia]. }
  destruct b; cbn [negb]; apply G; cbn; congruence.
Qed.

(** ** Runs of the driver *)

Lemma run_app tape ops1 ops2 w :
  run tape (ops1 ++ ops2) w = run tape ops1 w ≫= run tape ops2.
Proof.
  revert w. induction ops1 as [|op ops1 IH]; intros w; cbn [run app].
  - reflexivity.
  - destruct (step tape op w) as [w'|]; cbn [mbind option_bind];
      [apply IH | reflexivity].
Qed.

(** [update] on the heap never fails on a layer of the heap. *)
Lemma update_layer σ l this tp tape c :
  σ !! l = Some this →
  update l tp σ tape c
  = (Some (<[l := (updateLayer (resolve σ l) tp this tape c).1]> σ),
     (updateLayer (resolve σ l) tp this tape c).2).
Proof.
  intros Hl. unfold update. rewrite Hl. unfold bind, ret.
  destruct (updateLayer _ _ _ _ _) as [g c']. reflexivity.
Qed.

Lemma resolve_is_Some σ l this :
  is_Some (resolve σ l this) → is_Some (ref this).
Proof.
  unfold resolve. destruct (ref this); [eauto | intros [? ?]; discriminate].
Qed.

(** ** Invariants along a run *)

Section RunInvariant.
Variable P : GroundLayer → Prop.
Hypothesis P_new : ∀ width type shift tape c g,
  fst (new_GroundLayer width type shift tape c) = Some g → P g.
Hypothesis P_setRef : ∀ g r, P g → P (set_ref (Some r) g).
Hypothesis P_update : ∀ (σ : Heap) l tp g tape c,
  Forall P σ → σ !! l = Some g →
  P (fst (updateLayer (resolve σ l) tp g tape c)).

Lemma step_invariant tape op σ c σ' c' :
  Forall P σ → step tape op (σ, c) = Some (σ', c') → Forall P σ'.
Proof.
  intros Hσ. destruct op as [w t s|l r|l tp]; cbn.
  - pose proof (P_new w t s tape c) as Hn.
    destruct (new_GroundLayer w t s tape c) as [[g|] c1]; cbn;
      [|discriminate].
    intros [= <- <-]. apply Forall_app. split; [exact Hσ|].
    constructor; [apply Hn; reflexivity | constructor].
  - unfold setReferenceLayer.
    destruct (σ !! l) as [g|] eqn:El; cbn; [|discriminate].
    destruct (σ !! r) as [g'|]; cbn; [|discriminate].
    intros [= <- <-]. apply Forall_insert; [exact Hσ|].
    apply P_setRef. eapply Forall_lookup_1; eassumption.
  - unfold update.
    destruct (σ !! l) as [g|] eqn:El; cbn; [|discriminate].
    unfold bind, ret.
    pose proof (P_update σ l tp g tape c Hσ El) as Hu.
    destruct (updateLayer (resolve σ l) tp g tape c) as [g' c1]. cbn.
    intros [= <- <-]. apply Forall_insert; assumption.
Qed.

Lemma run_invariant tape ops w w' :
  Forall P w.1 → run tape ops w = Some w' → Forall P w'.1.
Proof.
  revert w. induction ops as [|op ops IH]; intros [σ c] Hσ; cbn [run].
  - intros [= <-]. exact Hσ.
  - destruct (step tape op (σ, c)) as [[σ1 c1]|] eqn:Es;
      cbn [mbind option_bind]; [|discriminate].
    apply IH. cbn. eapply step_invariant; eassumption.
Qed.
End RunInvariant.

Lemma new_GroundLayer_Some w t s tape c g :
  fst (new_GroundLayer w t s tape c) = Some g →
  activeHeight g = byLayer INITIAL_HEIGHT 0 t
  ∧ activeType g = byLayer INITIAL_TYPE TileType.None t
  ∧ activeSlope g = SlopeDirection.None ∧ slopeDuration g = 0
  ∧ typeWait g = 0 ∧ lastSlope g = SlopeDirection.None
  ∧ ref g = None ∧ layerType g = t ∧ width g = w
  ∧ 0 ≤ w < 2 ^ 32
  ∧ decorations g = fillArray w Decoration.None.
Proof.
  unfold new_GroundLayer. destruct (decide _) as [Hw|]; [|discriminate].
  unfold bind, ret.
  destruct (sampleUniform _ _ tape c) as [sw c1].
  destruct (sampleUniform _ _ tape c1) as [dw c2]. cbn.
  intros [= <-]. cbn. repeat split; auto; lia.
Qed.

Lemma updateLayer_written rf tp this tape c :
  let g := fst (updateLayer rf tp this tape c) in
  height g !! tp = Some (activeHeight g)
  ∧ type g !! tp = Some (activeType g)
  ∧ slope g !! tp = Some (activeSlope g).
Proof.
  rewrite updateLayer_unfold. cbn zeta. cbn [fst].
  match goal with |- context [writeTile tp ?x] => generalize x end.
  intros x. unfold writeTile. cbn. repeat split; apply lookup_insert_eq.
Qed.

Lemma run_snoc_update tape ops l tp σ c g :
  run tape (ops ++ [Update l tp]) initial = Some (σ, c) → σ !! l = Some g →
  ∃ σ0 c0 g0, run tape ops initial = Some (σ0, c0) ∧ σ0 !! l = Some g0
    ∧ updateLayer (resolve σ0 l) tp g0 tape c0 = (g, c)
    ∧ σ = <[l := g]> σ0.
Proof.
  rewrite run_app.
  destruct (run tape ops initial) as [[σ0 c0]|]; cbn; [|discriminate].
  unfold update. destruct (σ0 !! l) as [g0|] eqn:El; cbn; [|discriminate].
  unfold bind, ret.
  destruct (updateLayer (resolve σ0 l) tp g0 tape c0) as [g' c1] eqn:Eu. cbn.
  intros [= <- <-] Hl.
  rewrite list_lookup_insert_eq in Hl by (eapply lookup_lt_Some; eassumption).
  injection Hl as <-. eauto 10.
Qed.

Lemma reachable_slopeImpliesSurface tape ops σ c :
  run tape ops initial = Some (σ, c) → Forall slopeImpliesSurface σ.
Proof.
  intros Hrun.
  refine (run_invariant slopeImpliesSurface _ _ _ tape ops initial (σ, c) _ Hrun);
    [| | |constructor].
  - intros w t s tp c0 g0 Hn.
    apply new_GroundLayer_Some in Hn as (_&_&Hs&_).
    intros ?. congruence.
  - intros g0 r Hg Hs. cbn in *.
    destruct (Hg Hs) as [?|(?&?&?&?)]; [left; assumption|right].
    repeat split; eauto.
  - intros σ0 l0 tp g0 tp0 c0 HF Hl. apply updateLayer_slopeImpliesSurface.
    + intros x. apply resolve_is_Some.
    + eapply Forall_lookup_1; eassumption.
Qed.

Lemma layerAfter_Some tape ops l g :
  layerAfter tape ops l = Some g ↔
  ∃ σ c, run tape ops initial = Some (σ, c) ∧ σ !! l = Some g.
Proof.
  unfold layerAfter. split.
  - destruct (run tape ops initial) as [[σ c]|]; cbn; [eauto|discriminate].
  - intros (σ & c & -> & H). exact H.
Qed.

(** ** Slopes and surfaces *)

(** X23: how far the code keeps slopes on surfaces.  In every state that
    the driver can reach, and so after every call of [update], a layer whose
    active slope is not flat has the surface type, or else it is a
    background layer with a reference on which the coupled-slope block has
    just forced the ascent (the slope is then ascending and the slope
    duration is 0).  The tile record written by an [update] carries the
    active type and slope.  So the implication holds without exception for
    foreground layers and for layers without a reference: the random-slope
    branch, which is the only one they run, sets a slope only under a type
    hold of at least 2. *)
Theorem slope_implies_surface_unless_forced tape ops l g :
  layerAfter tape ops l = Some g →
  slopeImpliesSurface g
  ∧ (layerType g = GroundLayerType.Foreground ∨ ref g = None →
     activeSlope g ≠ SlopeDirection.None → activeType g = TileType.Surface)
  ∧ ∀ ops' tp, ops = ops' ++ [Update l tp] →
      type g !! tp = Some (activeType g)
      ∧ slope g !! tp = Some (activeSlope g).
Proof.
  intros (σ & c & Hrun & Hl)%layerAfter_Some.
  assert (Hinv : slopeImpliesSurface g).
  { eapply Forall_lookup_1; [eapply reachable_slopeImpliesSurface|];
      eassumption. }
  split; [exact Hinv|]. split.
  - intros Hk Hs. destruct (Hinv Hs) as [?|(HB & [r Hr] & _)]; [assumption|].
    destruct Hk; congruence.
  - intros ops' tp ->.
    destruct (run_snoc_update _ _ _ _ _ _ _ Hrun Hl)
      as (σ0 & c0 & g0 & _ & _ & Hu & _).
    pose proof (updateLayer_written (resolve σ0 l) tp g0 tape c0) as Hw.
    rewrite Hu in Hw. cbn [fst] in Hw. tauto.
Qed.

Lemma slope_implies_surface_unless_forced_witness :
  layerAfter tapeForcedAscent (setup 10 ++ ticks 10 5) 0
    = Some (layerOf worldClimbed 0)
  ∧ activeSlope (layerOf worldClimbed 0) = SlopeDirection.Up
  ∧ slopeImpliesSurface (layerOf worldClimbed 0).
Proof.
  split; [vm_compute; reflexivity|]. split; [vm_compute; reflexivity|].
  apply (slope_implies_surface_unless_forced
           tapeForcedAscent (setup 10 ++ ticks 10 5) 0%nat).
  vm_compute. reflexivity.
Defined.

(** C1 fails in the code, by a slip of the coupled-slope block.  Before the
    seventh update of the background layer in the run below, the layer
    stands on a surface at height 5, one tile above the foreground layer,
    and its type hold is 0: the tick before has counted the hold down while
    the type gate was shut by the slope of the tile before.  The
    coupled-slope test holds, so [updateSlope] forces the ascent and
    increments the hold, to 1; [updateType] decrements it to 0 and, the last
    slope being flat now, turns the surface into a gap.  The tile written in
    slot 6 has the ascending slope and the empty type.  The random-slope
    branch sets a slope only when the hold is at least 2, so that its
    increment keeps the type gate shut; the coupled-slope block increments
    the hold without that test. *)
Theorem C1_forced_ascent_on_gap :
  layerAfter tapeForcedAscent (setup 10 ++ ticks 10 6 ++ [Update 0 6]) 1
    = Some (layerOf worldHoldEnds 1)
  ∧ layerType (layerOf worldHoldEnds 1) = GroundLayerType.Background
  ∧ activeType (layerOf worldHoldEnds 1) = TileType.Surface
  ∧ activeSlope (layerOf worldHoldEnds 1) = SlopeDirection.None
  ∧ lastSlope (layerOf worldHoldEnds 1) = SlopeDirection.Up
  ∧ typeWait (layerOf worldHoldEnds 1) = 0
  ∧ activeHeight (layerOf worldHoldEnds 1) = 5
  ∧ activeHeight (layerOf worldHoldEnds 0) = 4
  ∧ coupledSlopeTest (resolve worldHoldEnds.1 1)
      (expireSlope (layerOf worldHoldEnds 1)) = true
  ∧ setup 10 ++ ticks 10 7
    = (setup 10 ++ ticks 10 6 ++ [Update 0 6]) ++ [Update 1 6]
  ∧ layerAfter tapeForcedAscent (setup 10 ++ ticks 10 7) 1
    = Some (layerOf worldGapWithAscent 1)
  ∧ tileAt (layerOf worldGapWithAscent 1) 6
    = (Some 6, Some TileType.None, Some SlopeDirection.Up,
       Some Decoration.None)
  ∧ activeSlope (layerOf worldGapWithAscent 1) ≠ SlopeDirection.None
  ∧ activeType (layerOf worldGapWithAscent 1) ≠ TileType.Surface.
Proof.
  do 12 (split; [vm_compute; reflexivity|]).
  split; vm_compute; discriminate.
Qed.

(** ** Heights *)

Lemma coupledSlopeTest_foreground rf this :
  layerType this = GroundLayerType.Foreground →
  coupledSlopeTest rf this = false.
Proof.
  intros H. unfold coupledSlopeTest.
  destruct (decide _) as [[_ ?]|]; [congruence|reflexivity].
Qed.

Lemma getHeightRange_foreground rf this :
  layerType this = GroundLayerType.Foreground → getHeightRange rf this = (1, 5).
Proof.
  intros H. unfold getHeightRange. rewrite H. reflexivity.
Qed.

Lemma updateSlope_foreground rf this tape c :
  layerType this = GroundLayerType.Foreground →
  slopeStaysWithin 1 5 this →
  let this' := fst (updateSlope rf this tape c) in
  slopeStaysWithin 1 5 this'
  ∧ (activeSlope this = SlopeDirection.None →
     activeSlope this' ≠ SlopeDirection.None → 3 ≤ typeWait this').
Proof.
  intros HL [Hh Hs]. unfold updateSlope. cbn zeta.
  destruct (expireSlope_frame this) as (_&_&_&_&_&_&_&_&_&_&_&_&_&EL&_).
  rewrite getHeightRange_foreground, coupledSlopeTest_foreground by congruence.
  clear EL.
  unfold randomSlope, expireSlope, slopeStaysWithin, clamp,
    SLOPE_DURATION_MIN, SLOPE_DURATION_MAX.
  rand_run.
  all: destruct (activeSlope this); cbn in *;
    try specialize (Hs ltac:(discriminate));
    (split; [split|]); intros; try congruence; try lia.
Qed.

Lemma updateType_foreground rf this tape c :
  layerType this = GroundLayerType.Foreground →
  1 ≤ activeHeight this ≤ 5 →
  let this' := fst (updateType rf this tape c) in
  1 ≤ activeHeight this' ≤ 5
  ∧ (activeHeight this' = activeHeight this
     ∨ (typeWait this ≤ 1 ∧ lastSlope this = SlopeDirection.None)).
Proof.
  intros HL Hh. unfold updateType.
  rewrite getHeightRange_foreground by assumption.
  unfold GAP_JUMP_MAX.
  rand_run; destruct_and?; try congruence; (split; [lia|]); auto;
    right; split; (assumption || lia).
Qed.

Lemma updateLayer_static rf tp this tape c :
  let g := fst (updateLayer rf tp this tape c) in
  layerType g = layerType this ∧ ref g = ref this.
Proof.
  rewrite updateLayer_unfold. cbn zeta. cbn [fst].
  pose proof (updateSlope_frame rf this tape c) as F1.
  destruct (updateSlope rf this tape c) as [s1 c1]. cbn [fst snd] in *.
  pose proof (updateType_type rf s1 tape c1) as H2.
  destruct (updateType rf s1 tape c1) as [s2 c2]. cbn [fst snd] in *.
  pose proof (updateDecorations_active rf tp s2 tape c2) as H3.
  destruct (updateDecorations rf tp s2 tape c2) as [[b s3] c3].
  cbn [fst snd] in *.
  destruct H2 as (_ & _ & A3 & A4 & _).
  destruct H3 as (_ & _ & B3 & B4 & _).
  destruct F1 as (_ & _ & _ & _ & _ & _ & _ & _ & F9 & F10 & _).
  destruct b; cbn; split; congruence.
Qed.

Lemma updateLayer_foreground rf tp this tape c :
  layerType this = GroundLayerType.Foreground →
  slopeStaysWithin 1 5 this →
  slopeStaysWithin 1 5 (fst (updateLayer rf tp this tape c)).
Proof.
  intros HL Hinv. rewrite updateLayer_unfold. cbn zeta. cbn [fst].
  pose proof (updateSlope_foreground rf this tape c HL Hinv) as [[Hh1 Hs1] Hn1].
  pose proof (updateSlope_frame rf this tape c) as F1.
  destruct (updateSlope rf this tape c) as [s1 c1]. cbn [fst snd] in *.
  destruct F1 as (_ & _ & _ & _ & _ & F6 & _ & _ & _ & F10 & _).
  assert (HL1 : layerType s1 = GroundLayerType.Foreground) by congruence.
  pose proof (updateType_type rf s1 tape c1) as H2.
  pose proof (updateType_foreground rf s1 tape c1 HL1 Hh1) as [Hh2 Hk2].
  destruct (updateType rf s1 tape c1) as [s2 c2]. cbn [fst snd] in *.
  pose proof (updateDecorations_active rf tp s2 tape c2) as H3.
  destruct (updateDecorations rf tp s2 tape c2) as [[b s3] c3].
  cbn [fst snd] in *.
  destruct H2 as (A1 & A2 & _).
  destruct H3 as (B1 & B2 & _ & _ & _ & B6).
  assert (G : ∀ g, activeSlope g = activeSlope s3 →
                   slopeDuration g = slopeDuration s3 →
                   activeHeight g = activeHeight s3 → slopeStaysWithin 1 5 g).
  { intros g G1 G2 G3. unfold slopeStaysWithin.
    rewrite G1, G2, G3, B1, B2, B6, A1, A2.
    split; [exact Hh2|]. intros Hs Hd.
    destruct Hk2 as [->|[Hw Hl]]; [auto|].
    exfalso. rewrite F6 in Hl. specialize (Hn1 Hl Hs). lia. }
  destruct b; cbn [negb]; apply G; reflexivity.
Qed.

Lemma getHeightRange_ordered rf g :
  (getHeightRange rf g).1 ≤ (getHeightRange rf g).2.
Proof.
  unfold getHeightRange. destruct (layerType g), (rf g); case_decide; cbn; lia.
Qed.

Lemma getHeightRange_ext rf rf' g g' :
  layerType g = layerType g' → rf g = rf' g' →
  getHeightRange rf g = getHeightRange rf' g'.
Proof. intros HL Hr. unfold getHeightRange. rewrite HL, Hr. reflexivity. Qed.

Lemma updateType_surfacing rf this tape c :
  layerType this = GroundLayerType.Background →
  activeType this ≠ TileType.Surface →
  let this' := fst (updateType rf this tape c) in
  activeType this' = TileType.Surface →
  (getHeightRange rf this).1 ≤ activeHeight this' ≤ (getHeightRange rf this).2.
Proof.
  intros HL HT. unfold updateType.
  pose proof (getHeightRange_ordered rf this) as Ho.
  destruct (getHeightRange rf this) as [lo hi]. cbn [fst snd] in *.
  rand_run; try congruence; intros; try congruence; lia.
Qed.

Lemma updateLayer_surfacing rf tp this tape c :
  (∀ x, ref x = ref this → rf x = rf this) →
  layerType this = GroundLayerType.Background →
  activeType this ≠ TileType.Surface →
  let g := fst (updateLayer rf tp this tape c) in
  activeType g = TileType.Surface →
  layerType g = GroundLayerType.Background ∧ ref g = ref this
  ∧ (getHeightRange rf this).1 ≤ activeHeight g ≤ (getHeightRange rf this).2.
Proof.
  intros Hrf HL HT. rewrite updateLayer_unfold. cbn zeta. cbn [fst].
  pose proof (updateSlope_frame rf this tape c) as F1.
  destruct (updateSlope rf this tape c) as [s1 c1]. cbn [fst snd] in *.
  destruct F1 as (_ & _ & _ & _ & F5 & _ & _ & _ & F9 & F10 & _).
  assert (HL1 : layerType s1 = GroundLayerType.Background) by congruence.
  assert (HT1 : activeType s1 ≠ TileType.Surface) by congruence.
  pose proof (updateType_type rf s1 tape c1) as H2.
  pose proof (updateType_surfacing rf s1 tape c1 HL1 HT1) as Hs. 
  destruct (updateType rf s1 tape c1) as [s2 c2]. cbn [fst snd] in *.
  pose proof (updateDecorations_active rf tp s2 tape c2) as H3.
  destruct (updateDecorations rf tp s2 tape c2) as [[b s3] c3].
  cbn [fst snd] in *.
  destruct H2 as (_ & _ & A3 & A4 & _).
  destruct H3 as (_ & _ & B3 & B4 & B5 & B6).
  rewrite (getHeightRange_ext rf rf s1 this) in Hs
    by (try apply Hrf; congruence).
  assert (G : ∀ g, activeType g = activeType s3 →
      layerType g = layerType s3 → ref g = ref s3 →
      activeHeight g = activeHeight s3 → activeType g = TileType.Surface →
      layerType g = GroundLayerType.Background ∧ ref g = ref this
       ∧ (getHeightRange rf this).1 ≤ activeHeight g ≤ (getHeightRange rf this).2).
  { intros g G1 G2 G3 G4 GS. rewrite G4, B6.
    split; [congruence|]. split; [congruence|].
    apply Hs. congruence. }
  destruct b; cbn [negb]; apply G; reflexivity.
Qed.

Lemma reachable_foreground_height tape ops σ c :
  run tape ops initial = Some (σ, c) →
  Forall (λ g, layerType g = GroundLayerType.Foreground
               → slopeStaysWithin 1 5 g) σ.
Proof.
  intros Hrun.
  refine (run_invariant _ _ _ _ tape ops initial (σ, c) _ Hrun);
    [| | |constructor].
  - intros w t s tp c0 g0 Hn.
    apply new_GroundLayer_Some in Hn as (Hh&_&Hs&_&_&_&_&HL&_).
    intros HF. rewrite HL in HF. rewrite HF in Hh.
    change (activeHeight g0 = 2) in Hh.
    split; [lia | congruence].
  - intros g0 r Hg. exact Hg.
  - intros σ0 l0 tp g0 tp0 c0 HF Hl HL.
    destruct (updateLayer_static (resolve σ0 l0) tp g0 tp0 c0) as [EL _].
    apply updateLayer_foreground; [congruence|].
    eapply Forall_lookup_1 in HF; [|exact Hl]. apply HF. congruence.
Qed.

Lemma resolve_insert σ l g g0 :
  ref g = ref g0 → ref g ≠ Some l →
  resolve (<[l := g]> σ) l g = resolve σ l g0.
Proof.
  intros Hr Hn. unfold resolve. rewrite <- Hr.
  destruct (ref g) as [r|]; [|reflexivity].
  destruct (decide (r = l)) as [->|Hne]; [congruence|].
  apply list_lookup_insert_ne. congruence.
Qed.

(** C2, as the code has it: after every call of [update] a foreground layer
    has its active height within the range of its role, [[1, 5]]; a
    background layer has its active height within its range, [[2, 4]]
    shifted by the current height of the layer it refers to, after the call
    of [update] in which it turns from a gap into a surface. *)
Theorem C2_height_range_by_role tape ops l tp σ c g :
  run tape (ops ++ [Update l tp]) initial = Some (σ, c) →
  σ !! l = Some g →
  (layerType g = GroundLayerType.Foreground →
   getHeightRange (resolve σ l) g = (1, 5) ∧ heightInRange (resolve σ l) g)
  ∧ (layerType g = GroundLayerType.Background → ref g ≠ Some l →
     ∀ g0, layerAfter tape ops l = Some g0 →
       activeType g0 ≠ TileType.Surface → activeType g = TileType.Surface →
       heightInRange (resolve σ l) g).
Proof.
  intros Hrun Hl. split.
  - intros HL.
    pose proof (reachable_foreground_height _ _ _ _ Hrun) as HF.
    eapply Forall_lookup_1 in HF; [|exact Hl].
    destruct (HF HL) as [Hh _]. unfold heightInRange.
    rewrite getHeightRange_foreground by exact HL. split; [reflexivity|].
    exact Hh.
  - intros HL Hn g0 Hg0 HT0 HT.
    destruct (run_snoc_update _ _ _ _ _ _ _ Hrun Hl)
      as (σ0 & c0 & g0' & Hrun0 & Hl0 & Hu & ->).
    assert (g0' = g0) as ->.
    { unfold layerAfter in Hg0. rewrite Hrun0 in Hg0. cbn in Hg0. congruence. }
    destruct (updateLayer_static (resolve σ0 l) tp g0 tape c0) as [EL ER].
    pose proof (updateLayer_surfacing (resolve σ0 l) tp g0 tape c0) as Hs.
    rewrite Hu in EL, ER, Hs. cbn [fst] in EL, ER, Hs.
    destruct Hs as (_ & _ & Hs); [|congruence|exact HT0|exact HT|].
    + intros x Hx. unfold resolve. rewrite Hx.
      destruct (ref g0) as [r|]; [|reflexivity].
      destruct (decide (r = l)) as [->|]; [congruence|reflexivity].
    + unfold heightInRange.
      rewrite (getHeightRange_ext _ (resolve σ0 l) g g0);
        [exact Hs | exact EL | apply resolve_insert; assumption].
Qed.

Lemma C2_height_range_witness :
  run tapeLongSlope (opsSurfacing ++ [Update 1 0]) initial
    = Some worldSurfaced
  ∧ layerType (layerOf worldSurfaced 1) = GroundLayerType.Background
  ∧ activeHeight (layerOf worldSurfaced 1) = 5
  ∧ heightInRange (resolve worldSurfaced.1 1) (layerOf worldSurfaced 1).
Proof.
  split; [vm_compute; reflexivity|]. split; [vm_compute; reflexivity|].
  split; [vm_compute; reflexivity|].
  eapply (C2_height_range_by_role tapeLongSlope opsSurfacing 1%nat 0
            worldSurfaced.1 worldSurfaced.2).
  - vm_compute. reflexivity.
  - vm_compute. reflexivity.
  - vm_compute. reflexivity.
  - vm_compute. discriminate.
  - vm_compute. reflexivity.
  - vm_compute. discriminate.
  - vm_compute. reflexivity.
Defined.

(** C2 as stated fails: after its fourth update the background layer stands
    at height 3 while the range of its role, shifted by the height 2 of the
    foreground layer, is [[4, 6]]. *)
Lemma C2_background_leaves_range :
  run tapeLongSlope (setup 10 ++ ticks 10 3 ++ [Update 0 3; Update 1 3]) initial
    = Some worldSlid
  ∧ worldSlid.1 !! 1%nat = Some (layerOf worldSlid 1)
  ∧ layerType (layerOf worldSlid 1) = GroundLayerType.Background
  ∧ ref (layerOf worldSlid 1) = Some 0%nat
  ∧ getHeightRange (resolve worldSlid.1 1) (layerOf worldSlid 1) = (4, 6)
  ∧ activeHeight (layerOf worldSlid 1) = 3
  ∧ ¬ heightInRange (resolve worldSlid.1 1) (layerOf worldSlid 1).
Proof.
  do 6 (split; [vm_compute; reflexivity|]).
  vm_compute. intros [H _]. apply H. reflexivity.
Qed.

(** ** The coupled-slope block *)

Lemma updateType_frame rf this tape c :
  let this' := fst (updateType rf this tape c) in
  height this' = height this ∧ slope this' = slope this
  ∧ type this' = type this ∧ decorations this' = decorations this
  ∧ slopeWait this' = slopeWait this
  ∧ slopeDuration this' = slopeDuration this
  ∧ activeSlope this' = activeSlope this
  ∧ lastSlope this' = lastSlope this
  ∧ decorationWait this' = decorationWait this ∧ ref this' = ref this
  ∧ layerType this' = layerType this ∧ width this' = width this
  ∧ shift this' = shift this.
Proof. unfold updateType. rand_run; repeat split; reflexivity. Qed.

Lemma updateType_background_height rf this tape c :
  layerType this = GroundLayerType.Background →
  activeType this = TileType.Surface →
  activeHeight (fst (updateType rf this tape c)) = activeHeight this.
Proof.
  intros HL HT. unfold updateType.
  rand_run; destruct_and?; congruence.
Qed.

Lemma updateDecorations_frame rf tp this tape c :
  let this' := snd (fst (updateDecorations rf tp this tape c)) in
  height this' = height this ∧ slope this' = slope this
  ∧ type this' = type this
  ∧ activeHeight this' = activeHeight this
  ∧ activeType this' = activeType this ∧ typeWait this' = typeWait this
  ∧ slopeWait this' = slopeWait this
  ∧ slopeDuration this' = slopeDuration this
  ∧ activeSlope this' = activeSlope this
  ∧ lastSlope this' = lastSlope this ∧ gapTimer this' = gapTimer this
  ∧ ref this' = ref this
  ∧ layerType this' = layerType this ∧ width this' = width this
  ∧ shift this' = shift this.
Proof. unfold updateDecorations. rand_run; repeat split; reflexivity. Qed.

(** The scalar state after [updateLayer] is the one the decoration
    sub-generator leaves. *)
Lemma updateLayer_scalars rf tp this tape c :
  let s1 := updateSlope rf this tape c in
  let s2 := updateType rf (fst s1) tape (snd s1) in
  let g := fst (updateLayer rf tp this tape c) in
  activeHeight g = activeHeight (fst s2)
  ∧ activeType g = activeType (fst s2)
  ∧ activeSlope g = activeSlope (fst s1)
  ∧ slopeDuration g = slopeDuration (fst s1)
  ∧ slopeWait g = slopeWait (fst s1)
  ∧ lastSlope g = activeSlope this.
Proof.
  rewrite updateLayer_unfold. cbn zeta. cbn [fst].
  pose proof (updateSlope_frame rf this tape c) as F1.
  destruct (updateSlope rf this tape c) as [s1 c1]. cbn [fst snd] in *.
  pose proof (updateType_frame rf s1 tape c1) as F2.
  destruct (updateType rf s1 tape c1) as [s2 c2]. cbn [fst snd] in *.
  pose proof (updateDecorations_frame rf tp s2 tape c2) as F3.
  destruct (updateDecorations rf tp s2 tape c2) as [[b s3] c3].
  cbn [fst snd] in *.
  destruct F1 as (_&_&_&_&_&F6&_).
  destruct F2 as (_&_&_&_&A5&A6&A7&A8&_).
  destruct F3 as (_&_&_&B4&B5&_&B7&B8&B9&B10&_).
  destruct b; cbn; repeat split; congruence.
Qed.

Lemma resolve_other σ l r x :
  ref x = Some r → r ≠ l → resolve σ l x = σ !! r.
Proof.
  intros Hr Hn. unfold resolve. rewrite Hr.
  destruct (decide (r = l)); [contradiction|reflexivity].
Qed.

(** The coupled-slope block seen from the heap: when its test holds,
    [updateSlope] returns the state of the block and leaves the cursor of
    the random source where it is. *)
Lemma updateSlope_forced σ l r this R tape c :
  layerType this = GroundLayerType.Background →
  ref this = Some r → r ≠ l → σ !! r = Some R →
  activeType this = TileType.Surface →
  (activeSlope R = SlopeDirection.Up
   ∧ activeHeight this - activeHeight R ≤ 2)
  ∨ activeHeight this - activeHeight R ≤ 1 →
  let s := forceAscent (expireSlope this) in
  updateSlope (resolve σ l) this tape c = (s, c)
  ∧ activeSlope s = SlopeDirection.Up ∧ slopeDuration s = 0
  ∧ slopeWait s = 2 ∧ activeHeight s = activeHeight this + 1
  ∧ typeWait s = typeWait this + 1
  ∧ layerType s = GroundLayerType.Background
  ∧ activeType s = TileType.Surface.
Proof.
  intros HL Hr Hn HR HT Hd s.
  destruct (expireSlope_frame this)
    as (_&_&_&_&E5&E6&E7&_&_&_&_&_&E13&E14&_).
  split.
  - unfold updateSlope. cbn zeta.
    destruct (getHeightRange _ _) as [lo hi].
    replace (coupledSlopeTest (resolve σ l) (expireSlope this)) with true;
      [reflexivity|].
    symmetry. apply coupledSlopeTest_true.
    split; [congruence|]. split; [congruence|]. exists R.
    rewrite (resolve_other σ l r) by congruence.
    split; [exact HR|]. rewrite E5. exact Hd.
  - subst s. unfold forceAscent. cbn. rewrite E5, E7, E6, E14.
    repeat split; auto; lia.
Qed.

(** Without a forced ascent and without a random slope, a layer that is
    not on a slope of duration two stays flat. *)
Lemma randomSlope_flat lo hi this tape c :
  typeWait this < 2 ∨ 1 < slopeWait this →
  activeSlope this = SlopeDirection.None →
  activeSlope (fst (randomSlope lo hi this tape c)) = SlopeDirection.None.
Proof.
  intros Hq Hs. unfold randomSlope. rand_run; try lia; assumption.
Qed.

Lemma update_not_forced σ l r this R tp tape c :
  σ !! l = Some this →
  ref this = Some r → r ≠ l → σ !! r = Some R →
  ¬ ((activeSlope R = SlopeDirection.Up
      ∧ activeHeight this - activeHeight R ≤ 2)
     ∨ activeHeight this - activeHeight R ≤ 1) →
  typeWait this < 2 ∨ 1 < slopeWait this →
  slopeDuration this ≤ 1 ∨ activeSlope this = SlopeDirection.None →
  ∃ σ' c' g,
    update l tp σ tape c = (Some σ', c') ∧ σ' !! l = Some g
    ∧ activeSlope g = SlopeDirection.None
    ∧ slope g !! tp = Some SlopeDirection.None.
Proof.
  intros Hl Hr Hn HR Hfar Hq Hd.
  destruct (expireSlope_frame this)
    as (_&_&_&_&E5&E6&E7&E8&E9&_&_&_&E13&E14&_).
  assert (Hflat : activeSlope (expireSlope this) = SlopeDirection.None).
  { unfold expireSlope. cbn. destruct (decide _) as [|Hnd]; cbn; [reflexivity|].
    destruct Hd; [lia|assumption]. }
  assert (Hu : activeSlope (fst (updateSlope (resolve σ l) this tape c))
               = SlopeDirection.None).
  { unfold updateSlope. cbn zeta.
    destruct (getHeightRange _ _) as [lo hi].
    destruct (coupledSlopeTest _ _) eqn:T.
    - exfalso. apply coupledSlopeTest_true in T as (_ & _ & R' & HR' & Hc).
      rewrite (resolve_other σ l r) in HR' by congruence.
      rewrite E5 in Hc. apply Hfar. congruence.
    - apply randomSlope_flat; [|exact Hflat]. rewrite E7, E8. exact Hq. }
  unfold update. rewrite Hl. unfold bind, ret.
  pose proof (updateLayer_scalars (resolve σ l) tp this tape c) as Hg.
  pose proof (updateLayer_written (resolve σ l) tp this tape c) as Hw.
  destruct (updateLayer (resolve σ l) tp this tape c) as [g c'].
  cbn zeta in Hg. cbn [fst snd] in Hg, Hw.
  destruct Hg as (_ & _ & G3 & _). destruct Hw as (_ & _ & W3).
  exists (<[l := g]> σ), c', g.
  split; [reflexivity|]. split.
  { apply list_lookup_insert_eq. eapply lookup_lt_Some. exact Hl. }
  split; congruence.
Qed.

(** C3, as the code has it: a background layer of surface type that refers
    to another layer begins to ascend in the very call of [update] when its
    height exceeds the height of that layer by at most 1 (by at most 2 while
    that layer ascends); when it exceeds it by more, nothing forces an
    ascent, and the layer stays flat unless a random slope begins or a slope
    of duration two continues. *)
Theorem C3_ascent_when_close σ l r this R tp tape c :
  σ !! l = Some this →
  layerType this = GroundLayerType.Background →
  ref this = Some r → r ≠ l → σ !! r = Some R →
  activeType this = TileType.Surface →
  let close :=
    (activeSlope R = SlopeDirection.Up
     ∧ activeHeight this - activeHeight R ≤ 2)
    ∨ activeHeight this - activeHeight R ≤ 1 in
  (close →
   ∃ σ' c' g,
     update l tp σ tape c = (Some σ', c') ∧ σ' !! l = Some g
     ∧ activeSlope g = SlopeDirection.Up
     ∧ slope g !! tp = Some SlopeDirection.Up)
  ∧ (¬ close →
     typeWait this < 2 ∨ 1 < slopeWait this →
     slopeDuration this ≤ 1 ∨ activeSlope this = SlopeDirection.None →
     ∃ σ' c' g,
       update l tp σ tape c = (Some σ', c') ∧ σ' !! l = Some g
       ∧ activeSlope g = SlopeDirection.None
       ∧ slope g !! tp = Some SlopeDirection.None).
Proof.
  intros Hl HL Hr Hn HR HT close. split.
  - intros Hc.
    destruct (updateSlope_forced σ l r this R tape c HL Hr Hn HR HT Hc)
      as (Hu & Hs & _).
    rewrite (update_layer σ l this tp tape c Hl).
    pose proof (updateLayer_scalars (resolve σ l) tp this tape c) as Hg.
    pose proof (updateLayer_written (resolve σ l) tp this tape c) as Hw.
    destruct (updateLayer (resolve σ l) tp this tape c) as [g c'].
    cbn zeta in Hg. rewrite Hu in Hg. cbn [fst snd] in Hg, Hw |- *.
    destruct Hg as (_ & _ & G3 & _). destruct Hw as (_ & _ & W3).
    exists (<[l := g]> σ), c', g. split; [reflexivity|]. split.
    { apply list_lookup_insert_eq. eapply lookup_lt_Some. exact Hl. }
    split; congruence.
  - intros Hfar Hq Hd.
    exact (update_not_forced σ l r this R tp tape c Hl Hr Hn HR Hfar Hq Hd).
Qed.

Lemma C3_ascent_when_close_witness :
  run tapeForcedAscent opsClimb initial = Some worldClimb
  ∧ activeHeight (layerOf worldClimb 1) - activeHeight (layerOf worldClimb 0)
    = 1
  ∧ ∃ σ' c' g,
      update 1 4 worldClimb.1 tapeForcedAscent worldClimb.2 = (Some σ', c')
      ∧ σ' !! 1%nat = Some g
      ∧ activeSlope g = SlopeDirection.Up
      ∧ slope g !! 4 = Some SlopeDirection.Up.
Proof.
  split; [vm_compute; reflexivity|]. split; [vm_compute; reflexivity|].
  eapply (C3_ascent_when_close worldClimb.1 1%nat 0%nat
            (layerOf worldClimb 1) (layerOf worldClimb 0)).
  - vm_compute. reflexivity.
  - vm_compute. reflexivity.
  - vm_compute. reflexivity.
  - discriminate.
  - vm_compute. reflexivity.
  - vm_compute. reflexivity.
  - right. vm_compute. discriminate.
Defined.

(** C3 as stated fails: after the first tick the background layer is a
    surface three tiles above the foreground layer, which is flat; its next
    update leaves it flat. *)
Lemma C3_no_ascent_when_far :
  run tapeLongSlope (setup 10 ++ ticks 10 1 ++ [Update 0 1]) initial
    = Some worldFar
  ∧ worldFar.1 !! 1%nat = Some (layerOf worldFar 1)
  ∧ worldFar.1 !! 0%nat = Some (layerOf worldFar 0)
  ∧ layerType (layerOf worldFar 1) = GroundLayerType.Background
  ∧ ref (layerOf worldFar 1) = Some 0%nat
  ∧ activeType (layerOf worldFar 1) = TileType.Surface
  ∧ activeSlope (layerOf worldFar 0) = SlopeDirection.None
  ∧ activeHeight (layerOf worldFar 1) - activeHeight (layerOf worldFar 0) = 3
  ∧ update 1 1 worldFar.1 tapeLongSlope worldFar.2
    = (Some worldStillFlat.1, worldStillFlat.2)
  ∧ activeSlope (layerOf worldStillFlat 1) = SlopeDirection.None
  ∧ slope (layerOf worldStillFlat 1) !! 1 = Some SlopeDirection.None.
Proof.
  do 10 (split; [vm_compute; reflexivity|]). vm_compute. reflexivity.
Qed.

(** C4: when the test of the coupled-slope block holds on a background layer
    that refers to another layer, the slope sub-generator returns the state
    of the block and draws no random number, so the random-slope branch is
    not run: the slope is ascending, the slope duration is 0 (the slope lasts
    for this one tile: the next call flattens it first), the slope wait is
    2, the height is one more and the hold timer is one more.  The tile
    written by the call carries the ascent and the new height. *)
Theorem C4_coupled_rule_forces_ascent σ l r this R tp tape c :
  σ !! l = Some this →
  layerType this = GroundLayerType.Background →
  ref this = Some r → r ≠ l → σ !! r = Some R →
  activeType this = TileType.Surface →
  (activeSlope R = SlopeDirection.Up
   ∧ activeHeight this - activeHeight R ≤ 2)
  ∨ activeHeight this - activeHeight R ≤ 1 →
  let s := forceAscent (expireSlope this) in
  updateSlope (resolve σ l) this tape c = (s, c)
  ∧ activeSlope s = SlopeDirection.Up ∧ slopeDuration s = 0
  ∧ slopeWait s = 2 ∧ activeHeight s = activeHeight this + 1
  ∧ typeWait s = typeWait this + 1
  ∧ ∃ σ' c' g,
      update l tp σ tape c = (Some σ', c') ∧ σ' !! l = Some g
      ∧ activeSlope g = SlopeDirection.Up ∧ slopeDuration g = 0
      ∧ slopeWait g = 2 ∧ activeHeight g = activeHeight this + 1
      ∧ slope g !! tp = Some SlopeDirection.Up
      ∧ height g !! tp = Some (activeHeight this + 1)
      ∧ activeSlope (expireSlope g) = SlopeDirection.None.
Proof.
  intros Hl HL Hr Hn HR HT Hd s.
  destruct (updateSlope_forced σ l r this R tape c HL Hr Hn HR HT Hd)
    as (Hu & S1 & S2 & S3 & S4 & S5 & S6 & S7).
  fold s in Hu, S1, S2, S3, S4, S5, S6, S7.
  split; [exact Hu|]. do 5 (split; [assumption|]).
  rewrite (update_layer σ l this tp tape c Hl).
  pose proof (updateLayer_scalars (resolve σ l) tp this tape c) as Hg.
  pose proof (updateLayer_written (resolve σ l) tp this tape c) as Hw.
  destruct (updateLayer (resolve σ l) tp this tape c) as [g c'].
  cbn zeta in Hg. rewrite Hu in Hg. cbn [fst snd] in Hg, Hw |- *.
  rewrite (updateType_background_height _ s tape c S6 S7) in Hg.
  destruct Hg as (G1 & _ & G3 & G4 & G5 & _).
  destruct Hw as (W1 & _ & W3).
  exists (<[l := g]> σ), c', g.
  split; [reflexivity|]. split.
  { apply list_lookup_insert_eq. eapply lookup_lt_Some. exact Hl. }
  repeat split; try congruence.
  unfold expireSlope. cbn. rewrite G4. reflexivity.
Qed.

Lemma C4_coupled_rule_witness :
  run tapeForcedAscent opsClimb initial = Some worldClimb
  ∧ activeSlope (layerOf worldClimb 0) = SlopeDirection.Up
  ∧ activeHeight (layerOf worldClimb 1) - activeHeight (layerOf worldClimb 0)
    = 1
  ∧ activeHeight (forceAscent (expireSlope (layerOf worldClimb 1))) = 5
  ∧ updateSlope (resolve worldClimb.1 1) (layerOf worldClimb 1)
      tapeForcedAscent worldClimb.2
    = (forceAscent (expireSlope (layerOf worldClimb 1)), worldClimb.2).
Proof.
  do 4 (split; [vm_compute; reflexivity|]).
  eapply proj1.
  eapply (C4_coupled_rule_forces_ascent worldClimb.1 1%nat 0%nat
            (layerOf worldClimb 1) (layerOf worldClimb 0) 4).
  - vm_compute. reflexivity.
  - vm_compute. reflexivity.
  - vm_compute. reflexivity.
  - discriminate.
  - vm_compute. reflexivity.
  - vm_compute. reflexivity.
  - left. split; [vm_compute; reflexivity | vm_compute; discriminate].
Defined.

(** ** Decorations *)

Lemma updateDecorations_cases rf tp this tape c :
  let this' := set_decorationWait (decorationWait this - 1) this in
  (0 < decorationWait this' ∧
   updateDecorations rf tp this tape c = (false, this', c))
  ∨ (decorationWait this' ≤ 0 ∧ placementRejected rf this' ∧
     updateDecorations rf tp this tape c = (false, this', c))
  ∨ (decorationWait this' ≤ 0 ∧ ¬ placementRejected rf this' ∧
     ∃ w, DECORATION_WAIT_MIN ≤ w ≤ DECORATION_WAIT_MAX ∧
       updateDecorations rf tp this tape c
       = (true,
          set_decorationWait w
            (set_decorations
               (<[tp := Decoration.Palmtree]> (decorations this)) this'),
          S c)).
Proof.
  cbn zeta. unfold updateDecorations. cbn zeta.
  destruct (decide (0 < _)) as [Hp|Hp]; [left; split; [exact Hp|reflexivity]|].
  right. destruct (decide (placementRejected _ _)) as [Hr|Hr].
  - left. split; [lia|]. split; [exact Hr | reflexivity].
  - right. split; [lia|]. split; [exact Hr|].
    unfold bind, ret.
    pose proof (sampleUniform_range DECORATION_WAIT_MIN DECORATION_WAIT_MAX
                  tape c) as Hs.
    destruct (sampleUniform _ _ tape c) as [w c']. cbn [fst snd] in Hs.
    destruct Hs as [Hw ->];
      [unfold DECORATION_WAIT_MIN, DECORATION_WAIT_MAX; lia|].
    exists w. split; [exact Hw | reflexivity].
Qed.

(** C5, as the code has it: on a decoration sub-step in which the countdown
    has run out and the placement is rejected, the countdown is not reset: it
    keeps its decremented value, which is not positive, no random number is
    drawn and no slot is written, so that the placement is tried again on
    the next tick.  Only a placement resets the countdown, to a draw from
    [[8, 16]]. *)
Theorem C5_rejection_keeps_countdown rf tp this tape c :
  decorationWait this ≤ 1 →
  let this' := set_decorationWait (decorationWait this - 1) this in
  (placementRejected rf this' →
   updateDecorations rf tp this tape c = (false, this', c)
   ∧ decorationWait this' = decorationWait this - 1
   ∧ decorationWait this' ≤ 0
   ∧ decorations this' = decorations this)
  ∧ (¬ placementRejected rf this' →
     ∃ g, updateDecorations rf tp this tape c = (true, g, S c)
       ∧ 8 ≤ decorationWait g ≤ 16
       ∧ decorations g = <[tp := Decoration.Palmtree]> (decorations this)).
Proof.
  intros Hw this'.
  destruct (updateDecorations_cases rf tp this tape c)
    as [[Hp _]|[(_ & Hr & Hu)|(_ & Hr & w & Hrange & Hu)]].
  - cbn in Hp. lia.
  - split; [|contradiction]. intros _. split; [exact Hu|].
    subst this'. cbn. repeat split. lia.
  - split; [contradiction|]. intros _. eexists. split; [exact Hu|].
    split; [exact Hrange | reflexivity].
Qed.

Lemma C5_rejection_witness :
  run tapeForcedAscent (setup 10 ++ ticks 10 7) initial
    = Some worldGapWithAscent
  ∧ decorationWait (layerOf worldGapWithAscent 0) = 1
  ∧ updateDecorations (resolve worldGapWithAscent.1 0) 7
      (layerOf worldGapWithAscent 0) tapeForcedAscent worldGapWithAscent.2
    = (false,
       set_decorationWait
         (decorationWait (layerOf worldGapWithAscent 0) - 1)
         (layerOf worldGapWithAscent 0),
       worldGapWithAscent.2).
Proof.
  split; [vm_compute; reflexivity|]. split; [vm_compute; reflexivity|].
  apply (C5_rejection_keeps_countdown (resolve worldGapWithAscent.1 0) 7
           (layerOf worldGapWithAscent 0)).
  - vm_compute. discriminate.
  - left. vm_compute. discriminate.
Defined.

(** C5 as stated fails: on the eighth tick the countdown of the foreground
    layer runs out over a gap; the placement is rejected and the countdown
    is left at 0, outside [[8, 16]]. *)
Lemma C5_countdown_not_reset :
  layerAfter tapeForcedAscent (setup 10 ++ ticks 10 7) 0
    = Some (layerOf worldGapWithAscent 0)
  ∧ decorationWait (layerOf worldGapWithAscent 0) = 1
  ∧ layerAfter tapeForcedAscent (setup 10 ++ ticks 10 7 ++ [Update 0 7]) 0
    = Some (layerOf worldCountdownOverGap 0)
  ∧ activeType (layerOf worldCountdownOverGap 0) = TileType.None
  ∧ decorations (layerOf worldCountdownOverGap 0) !! 7
    = Some Decoration.None
  ∧ decorationWait (layerOf worldCountdownOverGap 0) = 0
  ∧ ¬ (DECORATION_WAIT_MIN ≤ decorationWait (layerOf worldCountdownOverGap 0)
       ≤ DECORATION_WAIT_MAX).
Proof.
  do 6 (split; [vm_compute; reflexivity|]).
  vm_compute. intros [H _]. apply H. reflexivity.
Qed.

(** C6, as the code has it: the decoration sub-generator places a decoration
    exactly when the countdown has run out, the current type is surface, the
    current slope is flat and, for a foreground layer, the layer it refers to
    is currently a gap (a reference is set and its current type is empty).
    The placement of a background layer does not depend on the layer it
    refers to. *)
Theorem C6_placement_condition σ l tp this tape c :
  let this' := set_decorationWait (decorationWait this - 1) this in
  fst (fst (updateDecorations (resolve σ l) tp this tape c)) = true ↔
  decorationWait this ≤ 1
  ∧ activeType this = TileType.Surface
  ∧ activeSlope this = SlopeDirection.None
  ∧ (layerType this = GroundLayerType.Foreground →
     ∃ R, resolve σ l this' = Some R ∧ activeType R = TileType.None).
Proof.
  intros this'.
  assert (Hacc : ¬ placementRejected (resolve σ l) this' ↔
    (activeType this = TileType.Surface
     ∧ activeSlope this = SlopeDirection.None
     ∧ (layerType this = GroundLayerType.Foreground →
        ∃ R, resolve σ l this' = Some R ∧ activeType R = TileType.None))).
  { unfold placementRejected. change (activeType this') with (activeType this).
    change (activeSlope this') with (activeSlope this).
    change (layerType this') with (layerType this).
    split.
    - intros Hn.
      destruct (decide (activeType this = TileType.Surface)); [|tauto].
      destruct (decide (activeSlope this = SlopeDirection.None)); [|tauto].
      split; [assumption|]. split; [assumption|]. intros HF.
      destruct (resolve σ l this') as [R|]; cbn in Hn.
      + destruct (decide (activeType R = TileType.None)); [eauto|].
        exfalso. apply Hn. right. right. split; [assumption|congruence].
      + exfalso. apply Hn. right. right. split; [assumption|discriminate].
    - intros (A & B & C) [H|[H|[H1 H2]]]; try contradiction.
      destruct (C H1) as (R & HR & HT). rewrite HR in H2. cbn in H2.
      congruence. }
  destruct (updateDecorations_cases (resolve σ l) tp this tape c)
    as [[Hp Hu]|[(Hp & Hr & Hu)|(Hp & Hr & w & _ & Hu)]];
    fold this' in Hp, Hu; rewrite Hu; cbn [fst]; cbn in Hp.
  - split; [discriminate|]. intros [? _]. lia.
  - split; [discriminate|]. intros (_ & H). apply Hacc in H. contradiction.
  - split; [|reflexivity]. intros _. split; [lia|]. apply Hacc. exact Hr.
Qed.

(** C6 as stated fails, in both halves.  Under [tapeTreeOverGap], on the
    eighth tick the foreground layer has just opened a gap, and the
    background layer, a flat surface whose countdown runs out, places a
    palm tree.  Under [tapeTreeOnForeground], on the eighth tick the
    background layer is in a gap, and the foreground layer, a flat surface
    whose countdown runs out, places a palm tree. *)
Lemma C6_decorations_over_gaps :
  (run tapeTreeOverGap (setup 10 ++ ticks 10 8) initial
     = Some worldTreeOverGap
   ∧ worldTreeOverGap.1 !! 0%nat = Some (layerOf worldTreeOverGap 0)
   ∧ worldTreeOverGap.1 !! 1%nat = Some (layerOf worldTreeOverGap 1)
   ∧ layerType (layerOf worldTreeOverGap 1) = GroundLayerType.Background
   ∧ ref (layerOf worldTreeOverGap 1) = Some 0%nat
   ∧ activeType (layerOf worldTreeOverGap 0) = TileType.None
   ∧ tileAt (layerOf worldTreeOverGap 0) 7
     = (Some 2, Some TileType.None, Some SlopeDirection.None,
        Some Decoration.None)
   ∧ tileAt (layerOf worldTreeOverGap 1) 7
     = (Some 6, Some TileType.Surface, Some SlopeDirection.None,
        Some Decoration.Palmtree))
  ∧ (run tapeTreeOnForeground (setup 10 ++ ticks 10 7 ++ [Update 0 7]) initial
       = Some worldTreeOnForeground
     ∧ worldTreeOnForeground.1 !! 0%nat
       = Some (layerOf worldTreeOnForeground 0)
     ∧ worldTreeOnForeground.1 !! 1%nat
       = Some (layerOf worldTreeOnForeground 1)
     ∧ layerType (layerOf worldTreeOnForeground 0)
       = GroundLayerType.Foreground
     ∧ ref (layerOf worldTreeOnForeground 0) = Some 1%nat
     ∧ activeType (layerOf worldTreeOnForeground 1) = TileType.None
     ∧ tileAt (layerOf worldTreeOnForeground 1) 6
       = (Some 6, Some TileType.None, Some SlopeDirection.None,
          Some Decoration.None)
     ∧ tileAt (layerOf worldTreeOnForeground 0) 7
       = (Some 2, Some TileType.Surface, Some SlopeDirection.None,
          Some Decoration.Palmtree)).
Proof.
  split.
  - do 7 (split; [vm_compute; reflexivity|]). vm_compute. reflexivity.
  - do 7 (split; [vm_compute; reflexivity|]). vm_compute. reflexivity.
Qed.

(** ** Layers without a reference *)

Lemma fillArray_lookup {A} (n : Z) (v d : A) i :
  fillArray n v !! i = Some d → d = v ∧ 0 ≤ i < n.
Proof.
  unfold fillArray. intros H%elem_of_list_to_map_2.
  apply list_elem_of_fmap in H as (j & [= -> ->] & Hj).
  apply elem_of_seqZ in Hj. split; [reflexivity | lia].
Qed.

Lemma fillArray_lookup_Some {A} (n : Z) (v : A) i :
  0 ≤ i < n → fillArray n v !! i = Some v.
Proof.
  intros Hi. unfold fillArray. apply elem_of_list_to_map_1.
  - rewrite <- list_fmap_compose.
    replace (fmap (fst ∘ (λ i0 : Z, (i0, v))) (seqZ 0 n)) with (seqZ 0 n).
    + apply NoDup_seqZ.
    + symmetry. rewrite <- (list_fmap_id (seqZ 0 n)) at 2.
      apply list_fmap_ext. reflexivity.
  - apply list_elem_of_fmap. exists i. split; [reflexivity|].
    apply elem_of_seqZ. lia.
Qed.

(** A foreground layer without a reference rejects every placement. *)
Lemma placementRejected_unset (rf : GroundLayer → option GroundLayer) this :
  layerType this = GroundLayerType.Foreground → rf this = None →
  placementRejected rf this.
Proof.
  intros HL Hr. right. right. split; [exact HL|]. rewrite Hr. discriminate.
Qed.

Lemma updateLayer_decorations_unset rf tp this tape c :
  (∀ x, ref x = None → rf x = None) →
  ref this = None → layerType this = GroundLayerType.Foreground →
  decorations (fst (updateLayer rf tp this tape c))
  = <[tp := Decoration.None]> (decorations this).
Proof.
  intros Hrf Hr HL. rewrite updateLayer_unfold. cbn zeta. cbn [fst].
  pose proof (updateSlope_frame rf this tape c) as F1.
  destruct (updateSlope rf this tape c) as [s1 c1]. cbn [fst snd] in *.
  pose proof (updateType_frame rf s1 tape c1) as F2.
  destruct (updateType rf s1 tape c1) as [s2 c2]. cbn [fst snd] in *.
  destruct F1 as (_&_&_&F4&_&_&_&_&F9&F10&_).
  destruct F2 as (_&_&_&A4&_&_&_&_&_&A10&A11&_).
  destruct (updateDecorations_cases rf tp s2 tape c2)
    as [[_ Hu]|[(_ & _ & Hu)|(_ & Hn & _)]].
  - rewrite Hu. cbn. congruence.
  - rewrite Hu. cbn. congruence.
  - exfalso. apply Hn. apply placementRejected_unset; cbn; [congruence|].
    apply Hrf. cbn. congruence.
Qed.

Lemma resolve_unset σ l x : ref x = None → resolve σ l x = None.
Proof. intros H. unfold resolve. rewrite H. reflexivity. Qed.

Lemma reachable_noPalmtree tape ops σ c :
  run tape ops initial = Some (σ, c) → Forall noPalmtree σ.
Proof.
  intros Hrun.
  refine (run_invariant _ _ _ _ tape ops initial (σ, c) _ Hrun);
    [| | |constructor].
  - intros w t s tp c0 g0 Hn.
    apply new_GroundLayer_Some in Hn as (_&_&_&_&_&_&_&_&_&_&Hd).
    intros _ _ i d. rewrite Hd. intros H%fillArray_lookup. tauto.
  - intros g0 r Hg. intros [=].
  - intros σ0 l0 tp g0 tp0 c0 HF Hl Hr HL.
    destruct (updateLayer_static (resolve σ0 l0) tp g0 tp0 c0) as [EL ER].
    rewrite EL in HL. rewrite ER in Hr.
    rewrite updateLayer_decorations_unset
      by (try apply resolve_unset; assumption).
    intros i d. rewrite lookup_insert. case_decide.
    + congruence.
    + eapply Forall_lookup_1 in HF; [|exact Hl]. apply HF; assumption.
Qed.

(** A layer on which [setReferenceLayer] was not called has no reference. *)
Lemma step_ref tape op σ c σ' c' l g' :
  step tape op (σ, c) = Some (σ', c') →
  (∀ r, op ≠ SetReferenceLayer l r) →
  σ' !! l = Some g' →
  match σ !! l with Some g => ref g' = ref g | None => ref g' = None end.
Proof.
  intros Hs Hop Hl. destruct op as [w t s|l0 r|l0 tp]; cbn in Hs.
  - pose proof (new_GroundLayer_Some w t s tape c) as Hn.
    destruct (new_GroundLayer w t s tape c) as [[g|] c1]; cbn in Hs;
      [|discriminate].
    injection Hs as <- <-.
    destruct (σ !! l) as [g0|] eqn:E.
    + rewrite lookup_app_l in Hl by (eapply lookup_lt_Some; exact E).
      congruence.
    + apply lookup_ge_None in E.
      rewrite lookup_app_r in Hl by exact E.
      destruct (l - length σ)%nat; cbn in Hl; [|discriminate].
      injection Hl as <-. apply (Hn g eq_refl).
  - unfold setReferenceLayer in Hs.
    destruct (σ !! l0) as [g0|] eqn:E0; cbn in Hs; [|discriminate].
    destruct (σ !! r) as [gr|]; cbn in Hs; [|discriminate].
    injection Hs as <- <-.
    assert (l0 ≠ l) by (intros ->; apply (Hop r); reflexivity).
    rewrite list_lookup_insert_ne in Hl by assumption. rewrite Hl. reflexivity.
  - unfold update in Hs.
    destruct (σ !! l0) as [g0|] eqn:E0; cbn in Hs; [|discriminate].
    unfold bind, ret in Hs.
    pose proof (updateLayer_static (resolve σ l0) tp g0 tape c) as [_ ER].
    destruct (updateLayer (resolve σ l0) tp g0 tape c) as [g1 c1].
    cbn in Hs, ER. injection Hs as <- <-.
    destruct (decide (l0 = l)) as [->|Hne].
    + rewrite list_lookup_insert_eq in Hl by (eapply lookup_lt_Some; exact E0).
      rewrite E0. congruence.
    + rewrite list_lookup_insert_ne in Hl by assumption. rewrite Hl.
      reflexivity.
Qed.

Lemma run_ref tape ops l : ∀ w w' g',
  run tape ops w = Some w' →
  (∀ r, SetReferenceLayer l r ∉ ops) →
  w'.1 !! l = Some g' →
  match w.1 !! l with Some g => ref g' = ref g | None => ref g' = None end.
Proof.
  induction ops as [|op ops IH]; intros [σ c] [σ' c'] g' Hrun Hno Hl;
    cbn [run] in Hrun.
  - injection Hrun as <- <-. cbn in *. rewrite Hl. reflexivity.
  - destruct (step tape op (σ, c)) as [[σ1 c1]|] eqn:Es;
      cbn [mbind option_bind] in Hrun; [|discriminate].
    assert (Hno' : ∀ r, SetReferenceLayer l r ∉ ops).
    { intros r Hr. apply (Hno r). right. exact Hr. }
    specialize (IH (σ1, c1) (σ', c') g' Hrun Hno' Hl). cbn [fst] in *.
    destruct (σ1 !! l) as [g1|] eqn:E1.
    + assert (Hop : ∀ r, op ≠ SetReferenceLayer l r).
      { intros r ->. apply (Hno r). left. }
      pose proof (step_ref tape op σ c σ1 c1 l g1 Es Hop E1) as H1.
      destruct (σ !! l); congruence.
    + destruct (σ !! l) as [g0|] eqn:E0; [|exact IH].
      exfalso.
      assert (length σ ≤ length σ1)%nat.
      { clear -Es. destruct op as [w t s|l0 r|l0 tp]; cbn in Es.
        - destruct (new_GroundLayer w t s tape c) as [[g|] ?]; cbn in Es;
            [|discriminate].
          injection Es as <- <-. rewrite length_app. lia.
        - unfold setReferenceLayer in Es.
          destruct (σ !! l0); cbn in Es; [|discriminate].
          destruct (σ !! r); cbn in Es; [|discriminate].
          injection Es as <- <-. rewrite length_insert. lia.
        - unfold update in Es. destruct (σ !! l0); cbn in Es; [|discriminate].
          unfold bind, ret in Es.
          destruct (updateLayer _ _ _ _ _) as [? ?]. cbn in Es.
          injection Es as <- <-. rewrite length_insert. lia. }
      apply lookup_lt_Some in E0. apply lookup_ge_None in E1. lia.
Qed.

(** C10: a foreground layer on which [setReferenceLayer] has never been
    called has no reference, holds no decoration in any slot, and every call
    of [update] writes [Decoration.None] into the slot of the tile pointer:
    the placement test of a foreground layer asks for the type of the
    reference to be empty, which an unset reference never is. *)
Theorem C10_unset_reference_no_decoration tape ops l g :
  layerAfter tape ops l = Some g →
  layerType g = GroundLayerType.Foreground →
  (∀ r, SetReferenceLayer l r ∉ ops) →
  ref g = None
  ∧ (∀ i d, decorations g !! i = Some d → d = Decoration.None)
  ∧ (∀ ops' tp, ops = ops' ++ [Update l tp] →
       decorations g !! tp = Some Decoration.None).
Proof.
  intros (σ & c & Hrun & Hl)%layerAfter_Some HL Hno.
  assert (Hr : ref g = None).
  { exact (run_ref tape ops l initial (σ, c) g Hrun Hno Hl). }
  split; [exact Hr|]. split.
  - pose proof (reachable_noPalmtree _ _ _ _ Hrun) as HF.
    eapply Forall_lookup_1 in HF; [|exact Hl]. exact (HF Hr HL).
  - intros ops' tp ->.
    destruct (run_snoc_update _ _ _ _ _ _ _ Hrun Hl)
      as (σ0 & c0 & g0 & _ & _ & Hu & _).
    destruct (updateLayer_static (resolve σ0 l) tp g0 tape c0) as [EL ER].
    pose proof (updateLayer_decorations_unset (resolve σ0 l) tp g0 tape c0
                  (resolve_unset σ0 l)) as Hd.
    rewrite Hu in EL, ER, Hd. cbn [fst] in EL, ER, Hd.
    rewrite Hd by congruence. apply lookup_insert_eq.
Qed.

Lemma C10_unset_reference_witness :
  layerAfter tapeZero (opsLone 9) 0 = Some (layerOf worldLone 0)
  ∧ activeType (layerOf worldLone 0) = TileType.Surface
  ∧ activeSlope (layerOf worldLone 0) = SlopeDirection.None
  ∧ decorationWait (layerOf worldLone 0) = -1
  ∧ decorations (layerOf worldLone 0) !! 8 = Some Decoration.None.
Proof.
  do 4 (split; [vm_compute; reflexivity|]).
  refine (proj2 (proj2 (C10_unset_reference_no_decoration
                          tapeZero (opsLone 9) 0%nat (layerOf worldLone 0)
                          _ _ _))
            (opsLone 8) 8 _).
  - vm_compute. reflexivity.
  - vm_compute. reflexivity.
  - intros r H%list_elem_of_In. simpl in H.
    repeat (destruct H as [H|H]; [discriminate|]). exact H.
  - reflexivity.
Defined.

(** ** The ring write *)

(** [updateLayer] in terms of its three sub-generators. *)
Lemma updateLayer_eq rf tp this tape c s1 c1 s2 c2 b s3 c3 :
  updateSlope rf this tape c = (s1, c1) →
  updateType rf s1 tape c1 = (s2, c2) →
  updateDecorations rf tp s2 tape c2 = (b, s3, c3) →
  updateLayer rf tp this tape c
  = (writeTile tp
       (if negb b
        then set_decorations (<[tp := Decoration.None]> (decorations s3)) s3
        else s3), c3).
Proof.
  intros E1 E2 E3. unfold updateLayer, bind. rewrite E1, E2, E3. reflexivity.
Qed.

(** The arrays change at the tile pointer only, where they receive the
    tile record. *)
Lemma updateLayer_arrays rf tp this tape c s1 c1 s2 c2 b s3 c3 :
  updateSlope rf this tape c = (s1, c1) →
  updateType rf s1 tape c1 = (s2, c2) →
  updateDecorations rf tp s2 tape c2 = (b, s3, c3) →
  ∃ g,
    updateLayer rf tp this tape c = (g, c3)
    ∧ height g = <[tp := activeHeight g]> (height this)
    ∧ type g = <[tp := activeType g]> (type this)
    ∧ slope g = <[tp := activeSlope g]> (slope this)
    ∧ decorations g
      = <[tp := if b then Decoration.Palmtree else Decoration.None]>
          (decorations this)
    ∧ activeHeight g = activeHeight s2
    ∧ activeType g = activeType s2
    ∧ activeSlope g = activeSlope s1
    ∧ width g = width this ∧ shift g = shift this.
Proof.
  intros E1 E2 E3.
  pose proof (updateSlope_frame rf this tape c) as F1.
  pose proof (updateType_frame rf s1 tape c1) as F2.
  pose proof (updateDecorations_frame rf tp s2 tape c2) as F3.
  rewrite E1 in F1. rewrite E2 in F2. rewrite E3 in F3.
  cbn [fst snd] in F1, F2, F3.
  destruct F1 as (F1h&F1s&F1t&F1d&_&_&_&_&_&_&F1w&F1x).
  destruct F2 as (F2h&F2s&F2t&F2d&_&_&F2a&_&_&_&_&F2w&F2x).
  destruct F3 as (F3h&F3s&F3t&F3a&F3b&_&_&_&F3c&_&_&_&_&F3w&F3x).
  assert (D3 : decorations
                 (if negb b
                  then set_decorations
                         (<[tp := Decoration.None]> (decorations s3)) s3
                  else s3)
               = <[tp := if b then Decoration.Palmtree else Decoration.None]>
                   (decorations s2)).
  { destruct (updateDecorations_cases rf tp s2 tape c2)
      as [[_ Hu]|[(_ & _ & Hu)|(_ & _ & w & _ & Hu)]];
      rewrite E3 in Hu; injection Hu as -> -> _; reflexivity. }
  eexists. split; [apply (updateLayer_eq _ _ _ _ _ _ _ _ _ _ _ _ E1 E2 E3)|].
  unfold writeTile.
  destruct b; cbn [negb] in *; cbn in D3 |- *;
    rewrite ?D3, ?F3h, ?F3s, ?F3t, ?F3a, ?F3b, ?F3c, ?F3w, ?F3x,
      ?F2h, ?F2s, ?F2t, ?F2d, ?F2a, ?F2w, ?F2x,
      ?F1h, ?F1s, ?F1t, ?F1d, ?F1w, ?F1x; repeat split.
Qed.

Lemma tileAt_insert g g0 tp d j :
  height g = <[tp := activeHeight g]> (height g0) →
  type g = <[tp := activeType g]> (type g0) →
  slope g = <[tp := activeSlope g]> (slope g0) →
  decorations g = <[tp := d]> (decorations g0) →
  tileAt g j =
    if decide (tp = j)
    then (Some (activeHeight g), Some (activeType g), Some (activeSlope g),
          Some d)
    else tileAt g0 j.
Proof.
  intros H1 H2 H3 H4. unfold tileAt. rewrite H1, H2, H3, H4.
  rewrite !lookup_insert. destruct (decide (tp = j)); reflexivity.
Qed.

(** A run of updates of one layer. *)
Lemma run_updates tape l ps : ∀ σ c this,
  σ !! l = Some this →
  ∃ σ' c' g,
    run tape (map (Update l) ps) (σ, c) = Some (σ', c')
    ∧ σ' !! l = Some g
    ∧ (∀ l', l' ≠ l → σ' !! l' = σ !! l')
    ∧ (∀ j, j ∉ ps → tileAt g j = tileAt this j).
Proof.
  induction ps as [|p ps IH]; intros σ c this Hl.
  - exists σ, c, this. cbn. repeat split; auto.
  - cbn [map run step]. rewrite (update_layer σ l this p tape c Hl).
    cbn [mbind option_bind fmap option_fmap option_map].
    destruct (updateSlope (resolve σ l) this tape c) as [s1 c1] eqn:E1.
    destruct (updateType (resolve σ l) s1 tape c1) as [s2 c2] eqn:E2.
    destruct (updateDecorations (resolve σ l) p s2 tape c2)
      as [[b s3] c3] eqn:E3.
    destruct (updateLayer_arrays _ _ _ _ _ _ _ _ _ _ _ _ E1 E2 E3)
      as (g1 & Hu & A1 & A2 & A3 & A4 & _).
    rewrite Hu. cbn [fst snd].
    assert (Hl1 : <[l := g1]> σ !! l = Some g1).
    { apply list_lookup_insert_eq. eapply lookup_lt_Some. exact Hl. }
    destruct (IH (<[l := g1]> σ) c3 g1 Hl1)
      as (σ' & c' & g & Hr & Hg & Ho & Ht).
    exists σ', c', g. split; [exact Hr|]. split; [exact Hg|]. split.
    + intros l' Hne. rewrite (Ho l' Hne).
      apply list_lookup_insert_ne. congruence.
    + intros j Hj. apply not_elem_of_cons in Hj as [Hjp Hjps].
      rewrite (Ht j Hjps).
      rewrite (tileAt_insert g1 this p _ j A1 A2 A3 A4).
      destruct (decide (p = j)); [congruence|reflexivity].
Qed.

(** C7: a call of [update] on a layer of the heap runs the slope, the type
    and the decoration sub-generator in this order and then writes the slot
    of the tile pointer, and no other, in each of the four arrays: the slot
    receives the active height, type and slope and the decoration decided
    by the decoration sub-generator; every other slot and every other layer
    is unchanged.  Hence a run of calls at distinct tile pointers leaves in
    each of their slots the record written by the one call at that pointer
    and leaves the other slots alone; when the pointers are the [width]
    slots of the ring, each slot is written by exactly one call. *)
Theorem C7_update_writes_one_record tape σ c l this :
  σ !! l = Some this →
  (∀ tp s1 c1 s2 c2 placed s3 c3,
     updateSlope (resolve σ l) this tape c = (s1, c1) →
     updateType (resolve σ l) s1 tape c1 = (s2, c2) →
     updateDecorations (resolve σ l) tp s2 tape c2 = (placed, s3, c3) →
     ∃ g,
       update l tp σ tape c = (Some (<[l := g]> σ), c3)
       ∧ activeHeight g = activeHeight s2
       ∧ activeType g = activeType s2
       ∧ activeSlope g = activeSlope s1
       ∧ height g = <[tp := activeHeight g]> (height this)
       ∧ type g = <[tp := activeType g]> (type this)
       ∧ slope g = <[tp := activeSlope g]> (slope this)
       ∧ decorations g
         = <[tp := if placed then Decoration.Palmtree else Decoration.None]>
             (decorations this)
       ∧ (∀ j, j ≠ tp → tileAt g j = tileAt this j)
       ∧ (∀ l', l' ≠ l → <[l := g]> σ !! l' = σ !! l'))
  ∧ (∀ ps, NoDup ps →
     ∃ σ' c' g,
       run tape (map (Update l) ps) (σ, c) = Some (σ', c')
       ∧ σ' !! l = Some g
       ∧ (∀ j, j ∉ ps → tileAt g j = tileAt this j)
       ∧ (∀ pre p suf, ps = pre ++ p :: suf →
          ∃ σ1 c1 g1,
            run tape (map (Update l) (pre ++ [p])) (σ, c) = Some (σ1, c1)
            ∧ σ1 !! l = Some g1
            ∧ tileAt g1 p
              = (Some (activeHeight g1), Some (activeType g1),
                 Some (activeSlope g1), decorations g1 !! p)
            ∧ tileAt g p = tileAt g1 p)
       ∧ (ps ≡ₚ seqZ 0 (width this) →
          ∀ j, 0 ≤ j < width this →
            ∃ k, ps !! k = Some j ∧ ∀ k', ps !! k' = Some j → k' = k)).
Proof.
  intros Hl. split.
  - intros tp s1 c1 s2 c2 b s3 c3 E1 E2 E3.
    destruct (updateLayer_arrays _ _ _ _ _ _ _ _ _ _ _ _ E1 E2 E3)
      as (g & Hu & A1 & A2 & A3 & A4 & A5 & A6 & A7 & _).
    exists g. rewrite (update_layer σ l this tp tape c Hl), Hu.
    split; [reflexivity|]. do 7 (split; [assumption|]). split.
    + intros j Hj. rewrite (tileAt_insert _ this tp _ j A1 A2 A3 A4).
      destruct (decide (tp = j)); [congruence|reflexivity].
    + intros l' Hne. apply list_lookup_insert_ne. congruence.
  - intros ps Hnd.
    destruct (run_updates tape l ps σ c this Hl)
      as (σ' & c' & g & Hr & Hg & _ & Ht).
    exists σ', c', g. split; [exact Hr|]. split; [exact Hg|].
    split; [exact Ht|]. split.
    + intros pre p suf ->.
      apply NoDup_app in Hnd as (_ & Hdis & Hnd2).
      apply NoDup_cons in Hnd2 as [Hp _].
      destruct (run_updates tape l pre σ c this Hl)
        as (σ0 & c0 & g0 & Hr0 & Hg0 & _ & _).
      destruct (updateSlope (resolve σ0 l) g0 tape c0) as [s1 c1] eqn:E1.
      destruct (updateType (resolve σ0 l) s1 tape c1) as [s2 c2] eqn:E2.
      destruct (updateDecorations (resolve σ0 l) p s2 tape c2)
        as [[b s3] c3] eqn:E3.
      destruct (updateLayer_arrays _ _ _ _ _ _ _ _ _ _ _ _ E1 E2 E3)
        as (g1 & Hu & A1 & A2 & A3 & A4 & _).
      assert (Hr1 : run tape (map (Update l) (pre ++ [p])) (σ, c)
                    = Some (<[l := g1]> σ0, c3)).
      { rewrite map_app, run_app, Hr0. cbn [mbind option_bind map run step].
        rewrite (update_layer σ0 l g0 p tape c0 Hg0), Hu. reflexivity. }
      assert (Hl1 : <[l := g1]> σ0 !! l = Some g1).
      { apply list_lookup_insert_eq. eapply lookup_lt_Some. exact Hg0. }
      exists (<[l := g1]> σ0), c3, g1.
      split; [exact Hr1|]. split; [exact Hl1|]. split.
      * rewrite (tileAt_insert _ g0 p _ p A1 A2 A3 A4).
        rewrite decide_True by reflexivity.
        rewrite A4, lookup_insert_eq. reflexivity.
      * destruct (run_updates tape l suf _ c3 g1 Hl1)
          as (σ2 & c4 & g2 & Hr2 & Hg2 & _ & Ht2).
        replace (pre ++ p :: suf) with ((pre ++ [p]) ++ suf) in Hr
          by (rewrite <- app_assoc; reflexivity).
        rewrite map_app, run_app, Hr1 in Hr. cbn [mbind option_bind] in Hr.
        rewrite Hr2 in Hr. injection Hr as <- <-.
        rewrite Hg2 in Hg. injection Hg as <-.
        apply Ht2. exact Hp.
    + intros Hperm j Hj.
      assert (Hin : j ∈ ps).
      { rewrite Hperm. apply elem_of_seqZ. lia. }
      apply list_elem_of_lookup in Hin as [k Hk].
      exists k. split; [exact Hk|]. intros k' Hk'.
      eapply NoDup_lookup; eassumption.
Qed.

Lemma C7_update_writes_witness :
  worldClimb.1 !! 1%nat = Some (layerOf worldClimb 1)
  ∧ width (layerOf worldClimb 1) = 10
  ∧ ∃ σ' c' g,
      run tapeForcedAscent (map (Update 1) (seqZ 0 10))
        (worldClimb.1, worldClimb.2) = Some (σ', c')
      ∧ σ' !! 1%nat = Some g
      ∧ ∀ j, 0 ≤ j < 10 →
          ∃ k, seqZ 0 10 !! k = Some j
               ∧ ∀ k', seqZ 0 10 !! k' = Some j → k' = k.
Proof.
  split; [vm_compute; reflexivity|]. split; [vm_compute; reflexivity|].
  destruct (proj2 (C7_update_writes_one_record tapeForcedAscent worldClimb.1
                     worldClimb.2 1%nat (layerOf worldClimb 1)
                     ltac:(vm_compute; reflexivity))
              (seqZ 0 10) (NoDup_seqZ 0 10))
    as (σ' & c' & g & Hr & Hg & _ & _ & Hk).
  exists σ', c', g. split; [exact Hr|]. split; [exact Hg|].
  assert (W : width (layerOf worldClimb 1) = 10) by (vm_compute; reflexivity).
  rewrite W in Hk. apply Hk. reflexivity.
Defined.

(** ** The collision probe *)

(** C8, as the code has it: the probe visits the five columns from the
    actor's column minus 2 to the actor's column plus 2; an empty tile
    reports nothing and every other tile reports exactly one floor segment
    with the global speed: a flat tile the horizontal segment at its height
    together with the open-neighbour flags of its left and right ring
    neighbours, an ascending tile the segment that rises from left to right
    and a descending tile its mirror, both with the two flags 0 whatever
    the neighbours are. *)
Theorem C8_floor_segments this ox globalSpeed tilePointer tileOffset event :
  let h := toInt32 (screenHeight event / 16) in
  let px := actorColumn this ox in
  let column := collideColumn this globalSpeed tilePointer tileOffset event h in
  objectCollision this ox globalSpeed tilePointer tileOffset event
  = column (px - 2) ++ column (px - 1) ++ column px
    ++ column (px + 1) ++ column (px + 2)
  ∧ ∀ x i t s y,
      negMod (x + tilePointer) (width this) = Some i →
      type this !! i = Some t → slope this !! i = Some s →
      height this !! i = Some y →
      let dx :=
        (ofZ x * 16 - tileOffset - ofZ BASE_SHIFT_X * 16
         + shift this)%float in
      let dy := (h - y) * 16 in
      let left :=
        isEmpty (slot (type this) (negMod (i - 1) (width this))) in
      let right :=
        isEmpty (slot (type this) (jsMod (i + 1) (width this))) in
      (t = TileType.None → column x = [])
      ∧ (t ≠ TileType.None →
         column x = [segmentOf s dx dy globalSpeed event left right]).
Proof.
  cbn zeta. split.
  - unfold objectCollision, OFFSET. cbn zeta.
    change (2 * 2 + 1) with 5.
    set (px := actorColumn this ox).
    replace (seqZ (px - 2) 5)
      with [px - 2; px - 1; px; px + 1; px + 2].
    + cbn [flat_map]. rewrite app_nil_r. reflexivity.
    + unfold seqZ. cbn [Z.to_nat Pos.to_nat Pos.iter_op Nat.add seq fmap list_fmap].
      repeat (apply (f_equal2 cons); [lia|]). reflexivity.
  - intros x i t s y Hi Ht Hs Hy. unfold collideColumn.
    rewrite Hi. cbn [slot mbind option_bind]. rewrite Ht, Hs, Hy.
    cbn [fmap option_fmap option_map]. split.
    + intros ->. rewrite decide_True by reflexivity. reflexivity.
    + intros Hne. rewrite decide_False by congruence.
      destruct s; reflexivity.
Qed.

Lemma C8_floor_segments_witness :
  negMod (3 + 1) (width (layerOf worldRing 0)) = Some 0
  ∧ tileAt (layerOf worldRing 0) 0
    = (Some 3, Some TileType.Surface, Some SlopeDirection.Up,
       Some Decoration.None)
  ∧ collideColumn (layerOf worldRing 0) 1 1 0.1 eventRing 12 3
    = [segmentOf SlopeDirection.Up 15.899999999999999 144 1 eventRing 0 0]
  ∧ fc_x2 (segmentOf SlopeDirection.Up 15.899999999999999 144 1 eventRing 0 0)
    = 31.899999999999999%float.
Proof.
  split; [vm_compute; reflexivity|]. split; [vm_compute; reflexivity|].
  split; [|vm_compute; reflexivity].
  refine (proj2 (proj2 (C8_floor_segments (layerOf worldRing 0) 0 1 1 0.1
                          eventRing)
                   3 0 TileType.Surface SlopeDirection.Up 3 _ _ _ _) _).
  - vm_compute. reflexivity.
  - vm_compute. reflexivity.
  - vm_compute. reflexivity.
  - vm_compute. reflexivity.
  - discriminate.
Defined.

(** C8 as stated fails: the ascending tile in slot 0 has the gap of slot 1
    as its right neighbour, and its segment is handed over with the right
    flag 0.  The scroll offset is 0.1, so the abscissas are rounded sums. *)
Lemma C8_slope_hides_open_neighbour :
  tileAt (layerOf worldRing 0) 0
    = (Some 3, Some TileType.Surface, Some SlopeDirection.Up,
       Some Decoration.None)
  ∧ tileAt (layerOf worldRing 0) 1
    = (Some 2, Some TileType.None, Some SlopeDirection.None,
       Some Decoration.None)
  ∧ actorColumn (layerOf worldRing 0) 0 = 2
  ∧ negMod (3 + 1) (width (layerOf worldRing 0)) = Some 0
  ∧ jsMod (0 + 1) (width (layerOf worldRing 0)) = Some 1
  ∧ objectCollision (layerOf worldRing 0) 0 1 1 0.1 eventRing
    = [ {| fc_x1 := -16.100000000000001; fc_y1 := Some 160;
           fc_x2 := -0.10000000000000142; fc_y2 := Some 160;
           fc_speed := 1; fc_event := eventRing;
           fc_left := 1; fc_right := 0 |};
        {| fc_x1 := -0.10000000000000142; fc_y1 := Some 160;
           fc_x2 := 15.899999999999999; fc_y2 := Some 160;
           fc_speed := 1; fc_event := eventRing;
           fc_left := 0; fc_right := 0 |};
        {| fc_x1 := 15.899999999999999; fc_y1 := Some 160;
           fc_x2 := 31.899999999999999; fc_y2 := Some 144;
           fc_speed := 1; fc_event := eventRing;
           fc_left := 0; fc_right := 0 |} ].
Proof.
  do 5 (split; [vm_compute; reflexivity|]). vm_compute. reflexivity.
Qed.

(** The actor's column is computed in binary64.  The background layer has
    the shift 8: for an actor [2^-50] to the right of -8 the subtraction of
    the shift rounds to -16, the left edge of a column, and the column is 1;
    for an actor [2^-49] to the right of -8 the subtraction is exact and the
    column is 2. *)
Lemma actorColumn_rounds :
  shift (layerOf worldRing 1) = 8%float
  ∧ actorColumn (layerOf worldRing 1) (-8 + 0x1p-50) = 1
  ∧ actorColumn (layerOf worldRing 1) (-8 + 0x1p-49) = 2.
Proof. repeat split; vm_compute; reflexivity. Qed.

(** ** Construction and wiring *)

(** C9, as the code has it: the constructor fails exactly when the width is
    not a length that [new Array] accepts, that is when it is negative or
    at least [2^32]; the width 0 is accepted and gives a layer with empty
    arrays.  [setReferenceLayer] never fails on layers of the heap, whatever
    has been generated before: it stores the reference. *)
Theorem C9_construction_and_wiring w t s tape c :
  ((new_GroundLayer w t s tape c).1 = None ↔ w < 0 ∨ 2 ^ 32 ≤ w)
  ∧ (w = 0 →
     ∃ g, (new_GroundLayer w t s tape c).1 = Some g
       ∧ height g = ∅ ∧ type g = ∅ ∧ slope g = ∅ ∧ decorations g = ∅)
  ∧ ∀ (σ : Heap) l r this R,
      σ !! l = Some this → σ !! r = Some R →
      setReferenceLayer l r σ = Some (<[l := set_ref (Some r) this]> σ).
Proof.
  split; [|split].
  - unfold new_GroundLayer. destruct (decide _) as [Hw|Hw].
    + unfold bind, ret.
      destruct (sampleUniform _ _ tape c) as [sw c1].
      destruct (sampleUniform _ _ tape c1) as [dw c2]. cbn.
      split; [discriminate | lia].
    + cbn. split; [lia | reflexivity].
  - intros ->. unfold new_GroundLayer.
    rewrite decide_True by lia. unfold bind, ret.
    destruct (sampleUniform _ _ tape c) as [sw c1].
    destruct (sampleUniform _ _ tape c1) as [dw c2]. cbn.
    eexists. split; [reflexivity|]. repeat split.
  - intros σ l r this R Hl Hr. unfold setReferenceLayer.
    rewrite Hl, Hr. reflexivity.
Qed.

Lemma C9_construction_and_wiring_witness :
  (∃ g, (new_GroundLayer 0 GroundLayerType.Foreground 0 tapeZero 0%nat).1 = Some g
     ∧ height g = ∅ ∧ type g = ∅ ∧ slope g = ∅ ∧ decorations g = ∅)
  ∧ worldClimb.1 !! 1%nat = Some (layerOf worldClimb 1)
  ∧ worldClimb.1 !! 0%nat = Some (layerOf worldClimb 0)
  ∧ setReferenceLayer 1 0 worldClimb.1
    = Some (<[1%nat := set_ref (Some 0%nat) (layerOf worldClimb 1)]>
              worldClimb.1).
Proof.
  pose proof (C9_construction_and_wiring 0 GroundLayerType.Foreground 0
                tapeZero 0%nat) as (_ & H0 & HS).
  split; [exact (H0 eq_refl)|].
  split; [vm_compute; reflexivity|]. split; [vm_compute; reflexivity|].
  apply (HS worldClimb.1 1%nat 0%nat _ (layerOf worldClimb 0));
    vm_compute; reflexivity.
Defined.

(** C9 as stated fails: a layer of width 0 is constructed, and a reference
    is set on a layer that has already generated a tile. *)
Lemma C9_zero_width_and_late_reference_accepted :
  width <$> (new_GroundLayer 0 GroundLayerType.Foreground 0 tapeZero 0%nat).1
    = Some 0
  ∧ (λ g, (ref g, tileAt g 0)) <$> layerAfter tapeZero opsLateReference 1
    = Some (Some 0%nat,
            (Some 2, Some TileType.Surface, Some SlopeDirection.None,
             Some Decoration.None)).
Proof. split; vm_compute; reflexivity. Qed.

(** ** The steps of a tile *)

(** The height step of [updateSlope]: one tile against the slope. *)
Lemma updateSlope_height rf this tape c :
  let this' := fst (updateSlope rf this tape c) in
  activeHeight this'
  = activeHeight this - SlopeDirection.toZ (activeSlope this').
Proof.
  unfold updateSlope, randomSlope, expireSlope, forceAscent.
  rand_run; reflexivity.
Qed.

(** A draw is never negative, so a test against probability 0 fails. *)
Lemma Math_random_nonneg tape c : Qltb (fst (Math_random tape c)) 0 = false.
Proof.
  unfold Math_random, Qltb. cbn [fst].
  destruct (frac_range (tape c)) as [H0 _].
  apply Qle_bool_iff in H0. rewrite H0. reflexivity.
Qed.

(** The gate of [updateType] is closed when the hold timer has not run out
    or the tile before was sloped. *)
Lemma gate_closed (tw : Z) (ls : SlopeDirection.t) :
  ¬ (tw - 1 ≤ 0 ∧ ls = SlopeDirection.None) →
  1 < tw ∨ ls ≠ SlopeDirection.None.
Proof.
  intros D. destruct (decide (ls = SlopeDirection.None)); [left|right; auto].
  destruct (decide (tw ≤ 1)); [exfalso; apply D; split; [lia|assumption]|lia].
Qed.

(** Symbolic execution of [updateType]: the test of a draw is settled
    before the states that depend on it are named. *)
Ltac type_run :=
  unfold bind, ret; cbn;
  repeat (first [ match goal with
                  | |- context [Qltb ?a ?b] => destruct (Qltb a b) eqn:?
                  end
                | rand_step ]; unfold bind, ret; cbn);
  cbn in *.

Ltac split_all := repeat split; cbn; (lia || tauto || congruence).

(** The three courses of [updateType]: the gate stays closed; a tile that
    is no surface becomes one; a surface tile turns into a bridge or a
    gap. *)
Lemma updateType_cases rf this tape c s2 c2 :
  updateType rf this tape c = (s2, c2) →
  ((1 < typeWait this ∨ lastSlope this ≠ SlopeDirection.None)
   ∧ activeType s2 = activeType this
   ∧ activeHeight s2 = activeHeight this
   ∧ typeWait s2 = typeWait this - 1
   ∧ gapTimer s2
     = (if decide (activeType this = TileType.None)
        then gapTimer this + 1 else gapTimer this))
  ∨ (typeWait this ≤ 1 ∧ lastSlope this = SlopeDirection.None
     ∧ activeType this ≠ TileType.Surface
     ∧ activeType s2 = TileType.Surface ∧ gapTimer s2 = 0
     ∧ byLayerAndType TYPE_WAIT_MIN (layerType this) TileType.Surface
       ≤ typeWait s2
       ≤ byLayerAndType TYPE_WAIT_MAX (layerType this) TileType.Surface
     ∧ (layerType this = GroundLayerType.Foreground →
        activeHeight s2 = activeHeight this)
     ∧ (layerType this = GroundLayerType.Background →
        (getHeightRange rf this).1 ≤ activeHeight s2
          ≤ (getHeightRange rf this).2))
  ∨ (typeWait this ≤ 1 ∧ lastSlope this = SlopeDirection.None
     ∧ activeType this = TileType.Surface
     ∧ gapTimer s2 = gapTimer this
     ∧ byLayerAndType TYPE_WAIT_MIN (layerType this) (activeType s2)
       ≤ typeWait s2
       ≤ byLayerAndType TYPE_WAIT_MAX (layerType this) (activeType s2)
     ∧ ((activeType s2 = TileType.Bridge
         ∧ layerType this = GroundLayerType.Foreground
         ∧ activeHeight s2 = activeHeight this)
        ∨ (activeType s2 = TileType.None
           ∧ layerType this = GroundLayerType.Background
           ∧ activeHeight s2 = activeHeight this)
        ∨ (activeType s2 = TileType.None
           ∧ layerType this = GroundLayerType.Foreground
           ∧ (-1 ≤ activeHeight this ≤ 7 →
              Z.max 1 (activeHeight this - GAP_JUMP_MAX) ≤ activeHeight s2
              ≤ Z.min 5 (activeHeight this + GAP_JUMP_MAX))))).
Proof.
  unfold updateType.
  pose proof (getHeightRange_ordered rf this) as Ho.
  pose proof (Math_random_nonneg tape c) as Hr.
  destruct (getHeightRange rf this) as [lo hi] eqn:R.
  assert (R' : layerType this = GroundLayerType.Foreground → lo = 1 ∧ hi = 5).
  { intros HL. rewrite getHeightRange_foreground in R by assumption.
    split; congruence. }
  clear R.
  destruct this as [? ? ? ? h ty tw ? ? ? ls gt ? ? lt ? ?].
  cbn [layerType activeType typeWait lastSlope gapTimer activeHeight
       fst snd] in *.
  unfold GAP_JUMP_MAX.
  destruct lt, ty; try (destruct R' as [-> ->]; [reflexivity|]).
  all: type_run; intros [= <- <-]; cbn.
  all: repeat match goal with
       | E : _ ≤ _ → _ |- _ => specialize (E ltac:(cbn; lia))
       end.
  all: destruct_and?; try discriminate; try congruence.
  all: try match goal with
       | D : ¬ (_ ≠ _) |- _ => exfalso; apply D; discriminate
       | D : ¬ (_ ∧ _) |- _ => apply gate_closed in D
       end.
  all: first
         [ solve [left; split_all]
         | solve [right; left; split_all]
         | right; right; repeat split; cbn; try (lia || tauto || congruence);
           first [ solve [left; split_all]
                 | solve [right; left; split_all]
                 | solve [right; right; split_all] ] ].
Qed.

(** The three ways in which [updateSlope] ends on a slope, with the hold
    timer: a random slope has just begun, the coupled-slope block has
    forced an ascent, or a slope of duration two continues. *)
Lemma updateSlope_sloped rf this tape c :
  let this' := fst (updateSlope rf this tape c) in
  (activeSlope this' = SlopeDirection.None ∧ typeWait this' = typeWait this)
  ∨ (activeSlope this' ≠ SlopeDirection.None
     ∧ activeType this = TileType.Surface
     ∧ typeWait this' = typeWait this + 1
     ∧ (2 ≤ typeWait this
        ∨ (layerType this = GroundLayerType.Background
           ∧ activeSlope this' = SlopeDirection.Up
           ∧ slopeDuration this' = 0)))
  ∨ (activeSlope this' ≠ SlopeDirection.None
     ∧ activeSlope this' = activeSlope this
     ∧ 2 ≤ slopeDuration this ∧ typeWait this' = typeWait this).
Proof.
  unfold updateSlope. cbn zeta.
  destruct (getHeightRange rf (expireSlope this)) as [min max].
  destruct (coupledSlopeTest rf (expireSlope this)) eqn:T.
  - apply coupledSlopeTest_true in T as (HS & HL & _).
    destruct (expireSlope_frame this)
      as (_&_&_&_&_&ET&EW&_&_&_&_&_&_&EL&_).
    right. left. unfold ret, forceAscent. cbn.
    split; [discriminate|]. split; [congruence|]. split; [lia|].
    right. split; [congruence|]. split; reflexivity.
  - clear T. unfold randomSlope, expireSlope.
    rand_run; auto.
    all: try (right; left; repeat split; try assumption; try discriminate;
              left; assumption).
    all: destruct (decide (activeSlope this = SlopeDirection.None));
      [left; split; [assumption|reflexivity]
      |right; right; repeat split; try assumption; lia].
Qed.

(** The scalars of the layer after [update], from the three steps. *)
Lemma updateLayer_timers rf tp this tape c s1 c1 s2 c2 b s3 c3 :
  updateSlope rf this tape c = (s1, c1) →
  updateType rf s1 tape c1 = (s2, c2) →
  updateDecorations rf tp s2 tape c2 = (b, s3, c3) →
  ∃ g,
    updateLayer rf tp this tape c = (g, c3)
    ∧ activeHeight g = activeHeight s2
    ∧ activeType g = activeType s2
    ∧ activeSlope g = activeSlope s1
    ∧ typeWait g = typeWait s2
    ∧ gapTimer g = gapTimer s2
    ∧ lastSlope g = activeSlope this
    ∧ slopeDuration g = slopeDuration s1
    ∧ slopeWait g = slopeWait s1
    ∧ decorationWait g = decorationWait s3
    ∧ layerType g = layerType this ∧ ref g = ref this.
Proof.
  intros E1 E2 E3.
  rewrite (updateLayer_eq rf tp this tape c s1 c1 s2 c2 b s3 c3 E1 E2 E3).
  pose proof (updateSlope_frame rf this tape c) as F1.
  rewrite E1 in F1. cbn [fst] in F1.
  destruct F1 as (_&_&_&_&_&F6&_&_&F9&F10&_).
  pose proof (updateType_frame rf s1 tape c1) as F2.
  rewrite E2 in F2. cbn [fst] in F2.
  destruct F2 as (_&_&_&_&G5&G6&G7&G8&_&G10&G11&_).
  pose proof (updateDecorations_frame rf tp s2 tape c2) as F3.
  rewrite E3 in F3. cbn [fst snd] in F3.
  destruct F3 as (_&_&_&H4&H5&H6&H7&H8&H9&H10&H11&H12&H13&_).
  eexists. split; [reflexivity|].
  destruct b; cbn; repeat split; congruence.
Qed.

(** What a call of [update] that succeeds has computed. *)
Lemma update_inv σ l this tp tape c σ' c' g :
  σ !! l = Some this →
  update l tp σ tape c = (Some σ', c') → σ' !! l = Some g →
  updateLayer (resolve σ l) tp this tape c = (g, c').
Proof.
  intros Hl Hu Hg. rewrite (update_layer σ l this tp tape c Hl) in Hu.
  destruct (updateLayer (resolve σ l) tp this tape c) as [g1 c1].
  cbn [fst snd] in Hu. injection Hu as <- <-.
  rewrite list_lookup_insert_eq in Hg by (eapply lookup_lt_Some; exact Hl).
  congruence.
Qed.

(** The three steps of [update], named. *)
Lemma updateLayer_steps rf tp this tape c g c' :
  updateLayer rf tp this tape c = (g, c') →
  ∃ s1 c1 s2 c2 b s3,
    updateSlope rf this tape c = (s1, c1)
    ∧ updateType rf s1 tape c1 = (s2, c2)
    ∧ updateDecorations rf tp s2 tape c2 = (b, s3, c')
    ∧ activeHeight g = activeHeight s2
    ∧ activeType g = activeType s2
    ∧ activeSlope g = activeSlope s1
    ∧ typeWait g = typeWait s2
    ∧ gapTimer g = gapTimer s2
    ∧ lastSlope g = activeSlope this
    ∧ slopeDuration g = slopeDuration s1
    ∧ slopeWait g = slopeWait s1
    ∧ decorationWait g = decorationWait s3
    ∧ layerType g = layerType this ∧ ref g = ref this.
Proof.
  intros Hu.
  destruct (updateSlope rf this tape c) as [s1 c1] eqn:E1.
  destruct (updateType rf s1 tape c1) as [s2 c2] eqn:E2.
  destruct (updateDecorations rf tp s2 tape c2) as [[b s3] c3] eqn:E3.
  destruct (updateLayer_timers rf tp this tape c s1 c1 s2 c2 b s3 c3 E1 E2 E3)
    as (g1 & Hg & T).
  rewrite Hu in Hg. injection Hg as <- <-.
  exists s1, c1, s2, c2, b, s3. auto.
Qed.

(** X1: the height of a tile against the tile before it: a sloped tile lies
    one above (ascent) or one below (descent) its predecessor, and a flat
    tile of the same type lies level with it. *)
Theorem update_height_follows_slope σ l this tp tape c σ' c' g :
  σ !! l = Some this →
  update l tp σ tape c = (Some σ', c') → σ' !! l = Some g →
  activeSlope g ≠ SlopeDirection.None ∨ activeType g = activeType this →
  activeHeight g = activeHeight this - SlopeDirection.toZ (activeSlope g)
  ∧ height g !! tp
    = Some (activeHeight this - SlopeDirection.toZ (activeSlope g)).
Proof.
  intros Hl Hu Hg Hc.
  pose proof (update_inv σ l this tp tape c σ' c' g Hl Hu Hg) as Eu.
  pose proof (updateLayer_written (resolve σ l) tp this tape c) as Hw.
  rewrite Eu in Hw. cbn [fst] in Hw. destruct Hw as (Hw & _).
  apply updateLayer_steps in Eu
    as (s1 & c1 & s2 & c2 & b & s3 & E1 & E2 & _ & Gh & Gt & Gs & _).
  pose proof (updateSlope_height (resolve σ l) this tape c) as H1.
  pose proof (updateSlope_sloped (resolve σ l) this tape c) as S1.
  pose proof (updateSlope_frame (resolve σ l) this tape c) as F1.
  rewrite E1 in H1, S1, F1. cbn [fst] in H1, S1, F1.
  destruct F1 as (_&_&_&_&FT&FL&_&_&_&FY&_).
  assert (activeHeight s2 = activeHeight s1) as Hh.
  { destruct (updateType_cases _ _ _ _ _ _ E2)
      as [(_ & _ & ? & _)
         |[(Hw1 & Hls & Hns & Hsf & _ & _ & Hfg & _)
          |(Hw1 & Hls & Hsf & _ & _ & Hk)]]; [assumption| |].
    - (* the tile becomes a surface *)
      destruct Hc as [Hc|Hc]; [|congruence].
      rewrite Gs in Hc.
      destruct S1 as [[? _]|[(_ & ? & _)|(_ & ? & _)]]; congruence.
    - (* the surface ends *)
      destruct Hk as [(? & _ & ? )|[(? & _ & ?)|(Hn & Hf & _)]];
        [assumption|assumption|].
      destruct Hc as [Hc|Hc]; [|congruence].
      rewrite Gs in Hc.
      destruct S1 as [[? _]|[(_ & _ & ? & [?|(? & _)])|(_ & ? & _)]];
        [congruence|lia|congruence|congruence]. }
  split; [|rewrite Hw; f_equal]; rewrite Gh, Hh, H1, Gs; reflexivity.
Qed.

Lemma update_height_follows_slope_witness :
  worldClimb.1 !! 1%nat = Some (layerOf worldClimb 1)
  ∧ update 1 4 worldClimb.1 tapeForcedAscent worldClimb.2
    = (Some worldClimbed.1, worldClimbed.2)
  ∧ activeSlope (layerOf worldClimbed 1) = SlopeDirection.Up
  ∧ activeHeight (layerOf worldClimbed 1)
    = activeHeight (layerOf worldClimb 1) + 1.
Proof.
  assert (H1 : worldClimb.1 !! 1%nat = Some (layerOf worldClimb 1))
    by (vm_compute; reflexivity).
  assert (H2 : update 1 4 worldClimb.1 tapeForcedAscent worldClimb.2
               = (Some worldClimbed.1, worldClimbed.2))
    by (vm_compute; reflexivity).
  assert (H3 : worldClimbed.1 !! 1%nat = Some (layerOf worldClimbed 1))
    by (vm_compute; reflexivity).
  assert (H4 : activeSlope (layerOf worldClimbed 1) = SlopeDirection.Up)
    by (vm_compute; reflexivity).
  split; [exact H1|]. split; [exact H2|]. split; [exact H4|].
  destruct (update_height_follows_slope _ _ _ _ _ _ _ _ _ H1 H2 H3)
    as [Hh _]; [left; rewrite H4; discriminate|].
  rewrite Hh, H4. cbn. lia.
Defined.

(** X2: where the type of the tiles changes: never on the tile that follows a
    sloped tile; only when the hold timer has run out, and then the new hold
    is drawn from the table entry of the layer and the new type, and the
    new type is a surface exactly when the old one was not; in the
    foreground layer the tiles on both sides of the change are flat, and
    the type does change whenever the hold timer is at most 1 and the tile
    before was flat (so the first tile generated by a new foreground layer
    ends its initial surface). *)
Theorem update_type_change σ l this tp tape c σ' c' g :
  σ !! l = Some this →
  update l tp σ tape c = (Some σ', c') → σ' !! l = Some g →
  (activeSlope this ≠ SlopeDirection.None → activeType g = activeType this)
  ∧ (activeType g ≠ activeType this →
     typeWait this ≤ 1
     ∧ byLayerAndType TYPE_WAIT_MIN (layerType g) (activeType g)
       ≤ typeWait g
       ≤ byLayerAndType TYPE_WAIT_MAX (layerType g) (activeType g)
     ∧ (activeType g = TileType.Surface ↔ activeType this ≠ TileType.Surface)
     ∧ (layerType g = GroundLayerType.Foreground →
        activeSlope this = SlopeDirection.None
        ∧ activeSlope g = SlopeDirection.None))
  ∧ (layerType g = GroundLayerType.Foreground →
     typeWait this ≤ 1 → activeSlope this = SlopeDirection.None →
     activeType g ≠ activeType this).
Proof.
  intros Hl Hu Hg.
  pose proof (update_inv σ l this tp tape c σ' c' g Hl Hu Hg) as Eu.
  apply updateLayer_steps in Eu
    as (s1 & c1 & s2 & c2 & b & s3 & E1 & E2 & _
        & _ & Gt & Gs & Gw & _ & _ & _ & _ & _ & GL & _).
  pose proof (updateSlope_sloped (resolve σ l) this tape c) as S1.
  pose proof (updateSlope_frame (resolve σ l) this tape c) as F1.
  rewrite E1 in S1, F1. cbn [fst] in S1, F1.
  destruct F1 as (_&_&_&_&FT&FL&_&_&_&FY&_).
  rewrite Gt, Gs, Gw, GL, <- FY, <- FT. clear Gt Gs Gw GL.
  destruct (updateType_cases _ _ _ _ _ _ E2)
    as [(HC & HT & _)
       |[(Hw1 & Hls & Hns & Hsf & _ & Hw & _)
        |(Hw1 & Hls & Hsf & _ & Hw & Hk)]].
  - split; [intros _; exact HT|]. split; [intros Hc; congruence|].
    intros HF Hw Hs. exfalso.
    destruct HC as [HC|HC]; [|congruence].
    destruct S1 as [[_ ?]|[(_ & _ & ? & [?|(? & _)])|(_ & _ & _ & ?)]];
      [lia|lia|congruence|lia].
  - split; [intros Hs; congruence|]. split; [|intros; congruence].
    intros _.
    split; [destruct S1 as [[_ ?]|[(_ & _ & ? & _)|(_ & _ & _ & ?)]]; lia|].
    rewrite Hsf. split; [exact Hw|]. split; [tauto|]. intros _.
    split; [congruence|].
    destruct S1 as [[? _]|[(_ & ? & _)|(_ & ? & _)]]; congruence.
  - assert (activeType s2 ≠ activeType s1) as Hne.
    { rewrite Hsf.
      destruct Hk as [(-> & _)|[(-> & _)|(-> & _)]]; discriminate. }
    split; [intros Hs; congruence|]. split; [|intros; exact Hne].
    intros _.
    split; [destruct S1 as [[_ ?]|[(_ & _ & ? & _)|(_ & _ & _ & ?)]]; lia|].
    split; [exact Hw|]. split.
    { rewrite Hsf.
      destruct Hk as [(-> & _)|[(-> & _)|(-> & _)]];
        split; intros; congruence. }
    intros HF. split; [congruence|].
    destruct S1 as [[? _]|[(_ & _ & ? & [?|(? & _)])|(_ & ? & _)]];
      [assumption|lia|congruence|congruence].
Qed.

Lemma update_type_change_witness :
  worldFresh.1 !! 0%nat = Some (layerOf worldFresh 0)
  ∧ update 0 0 worldFresh.1 tapeForcedAscent worldFresh.2
    = (Some worldFirstTile.1, worldFirstTile.2)
  ∧ typeWait (layerOf worldFresh 0) = 0
  ∧ activeType (layerOf worldFirstTile 0) ≠ activeType (layerOf worldFresh 0).
Proof.
  assert (H1 : worldFresh.1 !! 0%nat = Some (layerOf worldFresh 0))
    by (vm_compute; reflexivity).
  assert (H2 : update 0 0 worldFresh.1 tapeForcedAscent worldFresh.2
               = (Some worldFirstTile.1, worldFirstTile.2))
    by (vm_compute; reflexivity).
  assert (H3 : worldFirstTile.1 !! 0%nat = Some (layerOf worldFirstTile 0))
    by (vm_compute; reflexivity).
  assert (H4 : typeWait (layerOf worldFresh 0) = 0)
    by (vm_compute; reflexivity).
  split; [exact H1|]. split; [exact H2|]. split; [exact H4|].
  apply (update_type_change _ _ _ _ _ _ _ _ _ H1 H2 H3).
  - vm_compute. reflexivity.
  - rewrite H4. lia.
  - vm_compute. reflexivity.
Defined.

(** ** The clock of a gap *)

Lemma updateLayer_gapClock rf tp this tape c :
  slopeImpliesSurface this → gapClock this →
  gapClock (fst (updateLayer rf tp this tape c)).
Proof.
  intros HS (G0 & GN & GG).
  destruct (updateLayer rf tp this tape c) as [g c'] eqn:Eu. cbn [fst].
  apply updateLayer_steps in Eu
    as (s1 & c1 & s2 & c2 & b & s3 & E1 & E2 & _
        & _ & Gt & Gs & Gw & Gg & _ & _ & _ & _ & GL & _).
  pose proof (updateSlope_sloped rf this tape c) as S1.
  pose proof (updateSlope_frame rf this tape c) as F1.
  rewrite E1 in S1, F1. cbn [fst] in S1, F1.
  destruct F1 as (_&_&_&_&FT&FL&FG&_&_&FY&_).
  unfold gapClock. rewrite Gt, Gs, Gw, Gg, GL. clear Gt Gs Gw Gg GL.
  destruct (updateType_cases _ _ _ _ _ _ E2)
    as [(Hc & HT & _ & HW & HG)
       |[(Hw1 & Hls & Hns & Hsf & Hg0 & Hw & _)
        |(Hw1 & Hls & Hsf & Hg0 & Hw & Hk)]].
  - (* the type holds *)
    rewrite HT, HW, HG, FT, FG. clear HT HW HG.
    case_decide as HN.
    + (* within a gap *)
      assert (activeSlope s1 = SlopeDirection.None
              ∧ typeWait s1 = typeWait this) as [Hs1 Hw1].
      { destruct S1 as [?|[(_ & ? & _)|(Hn & He & Hd & _)]];
          [assumption|congruence|].
        exfalso. rewrite He in Hn.
        destruct (HS Hn) as [?|(_ & _ & _ & ?)]; [congruence|lia]. }
      rewrite Hs1, Hw1 in *.
      split; [lia|]. split; [congruence|]. intros _. right.
      destruct (GG HN) as [(_ & Hz & _ & Hf)|(Hp & Hr & Hq)].
      * exfalso. destruct Hc as [?|Hc]; [lia|]. apply Hc. congruence.
      * assert (2 ≤ typeWait this).
        { destruct Hc as [?|Hc]; [lia|]. apply Hq. congruence. }
        split; [lia|]. split; [|congruence].
        replace (typeWait this - 1 + (gapTimer this + 1))
          with (typeWait this + gapTimer this) by lia.
        exact Hr.
    + split; [lia|]. split; [auto|]. intros; congruence.
  - (* the gap or the bridge ends *)
    rewrite Hsf, Hg0. split; [lia|]. split; [auto|]. discriminate.
  - (* the surface ends *)
    rewrite Hg0, FG. rewrite FT in Hsf.
    assert (gapTimer this = 0) as -> by (apply GN; congruence).
    split; [lia|]. split; [auto|]. intros HN. right.
    rewrite HN, FY in Hw. rewrite Z.add_0_r.
    split; [|split; [exact Hw|intros _]];
      destruct (layerType this); cbn in Hw; lia.
Qed.

(** What the constructor returns. *)
Lemma new_GroundLayer_inv w t s tape c g c' :
  new_GroundLayer w t s tape c = (Some g, c') →
  0 ≤ w < 2 ^ 32 ∧ c' = S (S c)
  ∧ ∃ sw dw,
      SLOPE_WAIT_MIN ≤ sw ≤ SLOPE_WAIT_MAX
      ∧ DECORATION_WAIT_MIN ≤ dw ≤ DECORATION_WAIT_MAX
      ∧ g = {| height := fillArray w (byLayer INITIAL_HEIGHT 0 t);
               slope := fillArray w SlopeDirection.None;
               type := fillArray w (byLayer INITIAL_TYPE TileType.None t);
               decorations := fillArray w Decoration.None;
               activeHeight := byLayer INITIAL_HEIGHT 0 t;
               activeType := byLayer INITIAL_TYPE TileType.None t;
               typeWait := 0; slopeWait := sw; slopeDuration := 0;
               activeSlope := SlopeDirection.None;
               lastSlope := SlopeDirection.None;
               gapTimer := 0; decorationWait := dw; ref := None;
               layerType := t; width := w; shift := s |}.
Proof.
  unfold new_GroundLayer. destruct (decide _) as [Hw|]; [|discriminate].
  unfold bind, ret.
  pose proof (sampleUniform_range SLOPE_WAIT_MIN SLOPE_WAIT_MAX tape c) as E1.
  destruct (sampleUniform _ _ tape c) as [sw c1].
  pose proof (sampleUniform_range DECORATION_WAIT_MIN DECORATION_WAIT_MAX
                tape c1) as E2.
  destruct (sampleUniform _ _ tape c1) as [dw c2].
  cbn [fst snd] in *.
  destruct E1 as [R1 ->]; [unfold SLOPE_WAIT_MIN, SLOPE_WAIT_MAX; lia|].
  destruct E2 as [R2 ->];
    [unfold DECORATION_WAIT_MIN, DECORATION_WAIT_MAX; lia|].
  intros [= <- <-]. split; [exact Hw|]. split; [reflexivity|].
  exists sw, dw. auto.
Qed.

Lemma reachable_gapClock tape ops σ c :
  run tape ops initial = Some (σ, c) → Forall gapClock σ.
Proof.
  intros Hrun.
  enough (Forall (λ g, slopeImpliesSurface g ∧ gapClock g) σ) as HF.
  { eapply Forall_impl; [exact HF|]. intros g [_ ?]. assumption. }
  refine (run_invariant _ _ _ _ tape ops initial (σ, c) _ Hrun);
    [| | |constructor].
  - intros w t s tp c0 g0 Hn.
    destruct (new_GroundLayer w t s tp c0) as [r c1] eqn:En.
    cbn [fst] in Hn. subst r.
    apply new_GroundLayer_inv in En as (_ & _ & sw & dw & _ & _ & ->).
    split; [intros Hs; cbn in Hs; congruence|].
    unfold gapClock. cbn. split; [lia|]. split; [auto|].
    intros HN. left. destruct t; [discriminate|]. auto.
  - intros g0 r [Hs Hg]. split; [|exact Hg].
    intros Hn. cbn in *.
    destruct (Hs Hn) as [?|(?&?&?&?)]; [left; assumption|right].
    repeat split; eauto.
  - intros σ0 l0 tp g0 tp0 c0 HF Hl.
    eapply Forall_lookup_1 in HF; [|exact Hl]. destruct HF as [Hs Hg].
    split.
    + apply updateLayer_slopeImpliesSurface; [|exact Hs].
      intros x. apply resolve_is_Some.
    + apply updateLayer_gapClock; assumption.
Qed.

(** X3: the getters of a layer that the driver has reached.  Outside a gap the
    gap timer is 0, so that the distance from the platform is not positive.
    Within a gap of the foreground layer between one and four tiles are
    still to come, at most three lie behind, the gap is two to four tiles
    long and the distance is at most 2; within a gap of the background
    layer the distance is at most 8. *)
Theorem gap_distance_from_platform tape ops l g :
  layerAfter tape ops l = Some g →
  (hasGap g = false →
   gapTimer g = 0 ∧ getDistanceFromPlatform g ≤ 0)
  ∧ (hasGap g = true →
     0 ≤ getDistanceFromPlatform g
     ∧ (layerType g = GroundLayerType.Foreground →
        1 ≤ typeWait g ≤ 4 ∧ 0 ≤ gapTimer g ≤ 3
        ∧ 2 ≤ typeWait g + gapTimer g ≤ 4
        ∧ getDistanceFromPlatform g ≤ 2)
     ∧ (layerType g = GroundLayerType.Background →
        typeWait g + gapTimer g ≤ 16
        ∧ getDistanceFromPlatform g ≤ 8)).
Proof.
  intros (σ & c & Hrun & Hl)%layerAfter_Some.
  pose proof (reachable_gapClock tape ops σ c Hrun) as HF.
  eapply Forall_lookup_1 in HF; [|exact Hl].
  destruct HF as (G0 & GN & GG).
  unfold hasGap, getDistanceFromPlatform. split.
  - intros Hb%bool_decide_eq_false. specialize (GN Hb). lia.
  - intros Hb%bool_decide_eq_true.
    destruct (GG Hb) as [(HL & ? & ? & _)|(Hp & Hr & _)].
    + split; [lia|]. split; [congruence|]. intros _. lia.
    + split; [lia|]. split; intros HL; rewrite HL in Hr; cbn in Hr; lia.
Qed.

Lemma gap_distance_from_platform_witness :
  layerAfter tapeForcedAscent (setup 10 ++ ticks 10 7 ++ [Update 0 7]) 0
    = Some (layerOf worldCountdownOverGap 0)
  ∧ hasGap (layerOf worldCountdownOverGap 0) = true
  ∧ getDistanceFromPlatform (layerOf worldCountdownOverGap 0) = 1
  ∧ 0 ≤ getDistanceFromPlatform (layerOf worldCountdownOverGap 0) ≤ 2.
Proof.
  assert (H : layerAfter tapeForcedAscent
                (setup 10 ++ ticks 10 7 ++ [Update 0 7]) 0
              = Some (layerOf worldCountdownOverGap 0))
    by (vm_compute; reflexivity).
  split; [exact H|]. split; [vm_compute; reflexivity|].
  split; [vm_compute; reflexivity|].
  destruct (gap_distance_from_platform _ _ _ _ H) as (_ & Hg).
  destruct Hg as (H0 & Hf & _); [vm_compute; reflexivity|].
  destruct Hf as (_ & _ & _ & H2); [vm_compute; reflexivity|].
  split; assumption.
Defined.

(** ** The ring of tile records *)

Lemma fillArray_lookup_None {A} (n : Z) (v : A) i :
  ¬ (0 ≤ i < n) → fillArray n v !! i = None.
Proof.
  intros Hi. destruct (fillArray n v !! i) as [d|] eqn:E; [|reflexivity].
  apply fillArray_lookup in E. tauto.
Qed.

Lemma new_GroundLayer_tiles T w t s tape c g :
  fst (new_GroundLayer w t s tape c) = Some g →
  T (byLayer INITIAL_HEIGHT 0 t) (byLayer INITIAL_TYPE TileType.None t)
    SlopeDirection.None Decoration.None →
  tiles T g.
Proof.
  intros Hn HT.
  destruct (new_GroundLayer w t s tape c) as [r c1] eqn:En.
  cbn [fst] in Hn. subst r.
  apply new_GroundLayer_inv in En as (_ & _ & sw & dw & _ & _ & ->).
  intros i. unfold tileAt. cbn.
  destruct (decide (0 ≤ i < w)) as [Hi|Hi].
  - rewrite !fillArray_lookup_Some by exact Hi. exact HT.
  - rewrite !fillArray_lookup_None by exact Hi. exact Hi.
Qed.

(** [update] keeps the ring when the record that it writes satisfies [T]. *)
Lemma updateLayer_tiles T rf tp this tape c g c' :
  updateLayer rf tp this tape c = (g, c') →
  tiles T this →
  (∀ d, decorations g !! tp = Some d →
     T (activeHeight g) (activeType g) (activeSlope g) d) →
  tiles T g.
Proof.
  intros Hu HT Hw.
  destruct (updateSlope rf this tape c) as [s1 c1] eqn:E1.
  destruct (updateType rf s1 tape c1) as [s2 c2] eqn:E2.
  destruct (updateDecorations rf tp s2 tape c2) as [[b s3] c3] eqn:E3.
  destruct (updateLayer_arrays _ _ _ _ _ _ _ _ _ _ _ _ E1 E2 E3)
    as (g1 & Hg & A1 & A2 & A3 & A4 & _ & _ & _ & AW & _).
  rewrite Hu in Hg. injection Hg as <- <-.
  intros i. rewrite (tileAt_insert g this tp _ i A1 A2 A3 A4).
  destruct (decide (tp = i)) as [<-|Hne].
  - apply Hw. rewrite A4. apply lookup_insert_eq.
  - rewrite AW. apply HT.
Qed.

(** A slot of a ring of tile records holds all four fields or none. *)
Lemma tiles_lookup T g i :
  tiles T g →
  (∃ h t s d, tileAt g i = (Some h, Some t, Some s, Some d) ∧ T h t s d)
  ∨ (tileAt g i = (None, None, None, None) ∧ ¬ (0 ≤ i < width g)).
Proof.
  intros H. specialize (H i).
  destruct (tileAt g i) as [[[[h|] [t|]] [s|]] [d|]]; try contradiction.
  - left. eauto 10.
  - right. auto.
Qed.

(** A placement happens on a flat surface tile only. *)
Lemma updateDecorations_placed rf tp this tape c s3 c3 :
  updateDecorations rf tp this tape c = (true, s3, c3) →
  activeType this = TileType.Surface
  ∧ activeSlope this = SlopeDirection.None
  ∧ decorationWait this ≤ 1
  ∧ DECORATION_WAIT_MIN ≤ decorationWait s3 ≤ DECORATION_WAIT_MAX.
Proof.
  intros E.
  destruct (updateDecorations_cases rf tp this tape c)
    as [[_ Hu]|[(_ & _ & Hu)|(Hw & Hn & w & Hr & Hu)]];
    rewrite E in Hu; [discriminate|discriminate|].
  injection Hu as -> _. cbn in Hw |- *.
  unfold placementRejected in Hn. cbn in Hn.
  split; [|split; [|split; [lia|exact Hr]]].
  - destruct (decide (activeType this = TileType.Surface)); tauto.
  - destruct (decide (activeSlope this = SlopeDirection.None)); tauto.
Qed.

Lemma updateLayer_ringInv rf tp this tape c :
  (∀ x, is_Some (rf x) → is_Some (ref x)) →
  ringInv this → ringInv (fst (updateLayer rf tp this tape c)).
Proof.
  intros Hrf (IS & IF & IB & IW & IT).
  pose proof (updateLayer_slopeImpliesSurface rf tp this tape c Hrf IS) as GS.
  pose proof (updateLayer_foreground rf tp this tape c) as GF.
  destruct (updateLayer rf tp this tape c) as [g c'] eqn:Eu.
  cbn [fst] in *.
  destruct (updateSlope rf this tape c) as [s1 c1] eqn:E1.
  destruct (updateType rf s1 tape c1) as [s2 c2] eqn:E2.
  destruct (updateDecorations rf tp s2 tape c2) as [[b s3] c3] eqn:E3.
  destruct (updateLayer_arrays _ _ _ _ _ _ _ _ _ _ _ _ E1 E2 E3)
    as (g1 & Hg & _ & _ & _ & A4 & _ & At & As & AW & _).
  rewrite Eu in Hg. injection Hg as <- <-.
  destruct (updateLayer_static rf tp this tape c) as [GL _].
  rewrite Eu in GL. cbn [fst] in GL.
  pose proof (updateSlope_frame rf this tape c) as F1.
  rewrite E1 in F1. cbn [fst] in F1.
  destruct F1 as (_&_&_&_&FT&_&_&_&_&FY&_).
  pose proof (updateType_frame rf s1 tape c1) as F2.
  rewrite E2 in F2. cbn [fst] in F2.
  destruct F2 as (_&_&_&_&_&_&F2s&_).
  assert (GB : layerType g = GroundLayerType.Background →
               activeType g ≠ TileType.Bridge).
  { intros HL. rewrite At.
    destruct (updateType_cases _ _ _ _ _ _ E2)
      as [(_ & HT & _)|[(_ & _ & _ & Hsf & _)|(_ & _ & _ & _ & _ & Hk)]].
    - rewrite HT, FT. apply IB. congruence.
    - congruence.
    - destruct Hk as [(_ & ? & _)|[(? & _)|(? & _)]]; congruence. }
  assert (GF' : layerType g = GroundLayerType.Foreground →
                slopeStaysWithin 1 5 g).
  { intros HL. apply GF; [congruence|]. apply IF. congruence. }
  split; [exact GS|]. split; [exact GF'|]. split; [exact GB|].
  split; [rewrite AW; exact IW|].
  apply (updateLayer_tiles _ rf tp this tape c g c' Eu);
    [rewrite GL; exact IT|].
  intros d Hd. rewrite A4, lookup_insert_eq in Hd. injection Hd as <-.
  split; [|split; [exact GB|]].
  - destruct b; [|discriminate]. intros _.
    apply updateDecorations_placed in E3 as (? & ? & _).
    split; congruence.
  - intros HL. destruct (GF' HL) as [Hh _]. split; [exact Hh|].
    intros Hs. destruct (GS Hs) as [?|(? & _)]; congruence.
Qed.

Lemma reachable_ringInv tape ops σ c :
  run tape ops initial = Some (σ, c) → Forall ringInv σ.
Proof.
  intros Hrun.
  refine (run_invariant _ _ _ _ tape ops initial (σ, c) _ Hrun);
    [| | |constructor].
  - intros w t s tp c0 g0 Hn.
    pose proof (new_GroundLayer_tiles (tileOK t) w t s tp c0 g0 Hn) as HT.
    apply new_GroundLayer_Some in Hn
      as (Hh & Ht & Hs & _ & _ & _ & _ & HL & HW & Hw & _).
    split; [intros ?; congruence|].
    split; [intros HF; rewrite HL in HF; rewrite HF in Hh;
            change (activeHeight g0 = 2) in Hh;
            split; [lia | congruence]|].
    split; [intros HB; rewrite HL in HB; rewrite HB in Ht; rewrite Ht;
            discriminate|].
    split; [rewrite HW; exact Hw|].
    rewrite HL. apply HT.
    split; [discriminate|]. split; [destruct t; discriminate|].
    intros ->. split; [change (1 ≤ 2 ≤ 5); lia|congruence].
  - intros g0 r (IS & IF & IB & IW & IT).
    split; [|split; [exact IF|split; [exact IB|split; [exact IW|exact IT]]]].
    intros Hn. cbn in *.
    destruct (IS Hn) as [?|(?&?&?&?)]; [left; assumption|right].
    repeat split; eauto.
  - intros σ0 l0 tp g0 tp0 c0 HF Hl.
    apply updateLayer_ringInv; [intros x; apply resolve_is_Some|].
    eapply Forall_lookup_1; eassumption.
Qed.

Lemma reachable_layer_ringInv tape ops l g :
  layerAfter tape ops l = Some g → ringInv g.
Proof.
  intros (σ & c & Hrun & Hl)%layerAfter_Some.
  pose proof (reachable_ringInv tape ops σ c Hrun) as HF.
  eapply Forall_lookup_1; eassumption.
Qed.

(** X4: the ring of a layer that the driver has reached.  The width is a
    legal array length; every slot of the ring holds a complete tile record
    (a height, a type, a slope and a decoration); and at any index the four
    arrays hold all four fields or none, so that the arrays have the same
    keys, also when [update] was called with a tile pointer outside the
    ring. *)
Theorem ring_holds_tile_records tape ops l g i :
  layerAfter tape ops l = Some g →
  0 ≤ width g < 2 ^ 32
  ∧ (0 ≤ i < width g →
     ∃ h t s d, tileAt g i = (Some h, Some t, Some s, Some d))
  ∧ ((∃ h t s d, tileAt g i = (Some h, Some t, Some s, Some d))
     ∨ tileAt g i = (None, None, None, None)).
Proof.
  intros Hg. apply reachable_layer_ringInv in Hg as (_ & _ & _ & HW & HT).
  split; [exact HW|].
  destruct (tiles_lookup _ g i HT)
    as [(h & t & s & d & E & _)|[E Hi]].
  - split; [intros _|left]; eauto 10.
  - split; [intros ?; contradiction | right; exact E].
Qed.

Lemma ring_holds_tile_records_witness :
  layerAfter tapeForcedAscent (setup 4 ++ ticks 4 5) 0
    = Some (layerOf worldRing 0)
  ∧ width (layerOf worldRing 0) = 4
  ∧ ∃ h t s d, tileAt (layerOf worldRing 0) 3 = (Some h, Some t, Some s, Some d).
Proof.
  assert (H : layerAfter tapeForcedAscent (setup 4 ++ ticks 4 5) 0
              = Some (layerOf worldRing 0)) by (vm_compute; reflexivity).
  assert (W : width (layerOf worldRing 0) = 4) by (vm_compute; reflexivity).
  split; [exact H|]. split; [exact W|].
  apply (ring_holds_tile_records _ _ _ _ 3 H). rewrite W. lia.
Defined.

(** X5: palm trees stand on flat surface tiles: in a layer that the driver
    has reached, a slot whose decoration is a palm tree holds a tile of
    type surface and of flat slope. *)
Theorem palmtree_on_flat_surface tape ops l g i :
  layerAfter tape ops l = Some g →
  decorations g !! i = Some Decoration.Palmtree →
  type g !! i = Some TileType.Surface
  ∧ slope g !! i = Some SlopeDirection.None
  ∧ is_Some (height g !! i).
Proof.
  intros Hg Hd. apply reachable_layer_ringInv in Hg as (_ & _ & _ & _ & HT).
  destruct (tiles_lookup _ g i HT)
    as [(h & t & s & d & E & (HP & _))|[E _]];
    unfold tileAt in E; injection E as E1 E2 E3 E4; [|congruence].
  rewrite Hd in E4. injection E4 as <-.
  destruct HP as [-> ->]; [reflexivity|]. rewrite E1. eauto.
Qed.

Lemma palmtree_on_flat_surface_witness :
  layerAfter tapeTreeOverGap (setup 10 ++ ticks 10 8) 1
    = Some (layerOf worldTreeOverGap 1)
  ∧ decorations (layerOf worldTreeOverGap 1) !! 7 = Some Decoration.Palmtree
  ∧ type (layerOf worldTreeOverGap 1) !! 7 = Some TileType.Surface
  ∧ slope (layerOf worldTreeOverGap 1) !! 7 = Some SlopeDirection.None.
Proof.
  assert (H : layerAfter tapeTreeOverGap (setup 10 ++ ticks 10 8) 1
              = Some (layerOf worldTreeOverGap 1)) by (vm_compute; reflexivity).
  assert (D : decorations (layerOf worldTreeOverGap 1) !! 7
              = Some Decoration.Palmtree) by (vm_compute; reflexivity).
  split; [exact H|]. split; [exact D|].
  destruct (palmtree_on_flat_surface _ _ _ _ 7 H D) as (? & ? & _).
  split; assumption.
Defined.

(** X6: the background layer has no bridges: [BRIDGE_PROB] is 0 for it and
    a draw is never negative, so that neither the active type nor any
    slot of the ring of a background layer is ever a bridge. *)
Theorem background_never_bridges tape ops l g :
  layerAfter tape ops l = Some g →
  layerType g = GroundLayerType.Background →
  activeType g ≠ TileType.Bridge
  ∧ ∀ i, type g !! i ≠ Some TileType.Bridge.
Proof.
  intros Hg HL. apply reachable_layer_ringInv in Hg as (_ & _ & HB & _ & HT).
  split; [exact (HB HL)|]. intros i Hi.
  destruct (tiles_lookup _ g i HT)
    as [(h & t & s & d & E & (_ & HN & _))|[E _]];
    unfold tileAt in E; injection E as E1 E2 E3 E4; [|congruence].
  apply (HN HL). congruence.
Qed.

Lemma background_never_bridges_witness :
  layerAfter tapeTreeOverGap (setup 10 ++ ticks 10 8) 1
    = Some (layerOf worldTreeOverGap 1)
  ∧ layerType (layerOf worldTreeOverGap 1) = GroundLayerType.Background
  ∧ activeType (layerOf worldTreeOverGap 1) ≠ TileType.Bridge.
Proof.
  assert (H : layerAfter tapeTreeOverGap (setup 10 ++ ticks 10 8) 1
              = Some (layerOf worldTreeOverGap 1)) by (vm_compute; reflexivity).
  assert (L : layerType (layerOf worldTreeOverGap 1)
              = GroundLayerType.Background) by (vm_compute; reflexivity).
  split; [exact H|]. split; [exact L|].
  exact (proj1 (background_never_bridges _ _ _ _ H L)).
Defined.

(** X7: the tiles of the foreground layer: in a foreground layer that the
    driver has reached, [getHeight] and the height of every tile of the
    ring lie between 1 and 5, and every sloped tile of the ring is a
    surface tile. *)
Theorem foreground_tiles tape ops l g :
  layerAfter tape ops l = Some g →
  layerType g = GroundLayerType.Foreground →
  1 ≤ getHeight g ≤ 5
  ∧ ∀ i,
      (∀ h, height g !! i = Some h → 1 ≤ h ≤ 5)
      ∧ (∀ s, slope g !! i = Some s → s ≠ SlopeDirection.None →
           type g !! i = Some TileType.Surface).
Proof.
  intros Hg HL. apply reachable_layer_ringInv in Hg as (_ & HF & _ & _ & HT).
  split; [exact (proj1 (HF HL))|]. intros i.
  destruct (tiles_lookup _ g i HT)
    as [(h & t & s & d & E & (_ & _ & HN))|[E _]];
    unfold tileAt in E; injection E as E1 E2 E3 E4;
    [|split; intros; congruence].
  destruct (HN HL) as [Hh Hs].
  split; [intros h' ?; replace h' with h by congruence; exact Hh|].
  intros s' Hs' Hn. rewrite E2. f_equal. apply Hs. congruence.
Qed.

Lemma foreground_tiles_witness :
  layerAfter tapeForcedAscent (setup 4 ++ ticks 4 5) 0
    = Some (layerOf worldRing 0)
  ∧ layerType (layerOf worldRing 0) = GroundLayerType.Foreground
  ∧ slope (layerOf worldRing 0) !! 0 = Some SlopeDirection.Up
  ∧ type (layerOf worldRing 0) !! 0 = Some TileType.Surface.
Proof.
  assert (H : layerAfter tapeForcedAscent (setup 4 ++ ticks 4 5) 0
              = Some (layerOf worldRing 0)) by (vm_compute; reflexivity).
  assert (L : layerType (layerOf worldRing 0) = GroundLayerType.Foreground)
    by (vm_compute; reflexivity).
  assert (S : slope (layerOf worldRing 0) !! 0 = Some SlopeDirection.Up)
    by (vm_compute; reflexivity).
  split; [exact H|]. split; [exact L|]. split; [exact S|].
  destruct (foreground_tiles _ _ _ _ H L) as [_ Ht].
  apply (proj2 (Ht 0) _ S). discriminate.
Defined.

(** ** The step of the foreground layer *)

(** X8: the step of the foreground layer.  From one tile of a foreground
    layer that the driver has reached to the next, [getHeight] changes by at
    most 2; unless the tile opens a gap after a surface, it changes by the
    slope of the new tile, that is by at most 1.  The tile that opens a gap
    is flat. *)
Theorem foreground_height_step tape ops l tp σ c g g0 :
  run tape (ops ++ [Update l tp]) initial = Some (σ, c) →
  σ !! l = Some g →
  layerAfter tape ops l = Some g0 →
  layerType g = GroundLayerType.Foreground →
  -2 ≤ getHeight g - getHeight g0 ≤ 2
  ∧ (¬ (activeType g0 = TileType.Surface ∧ activeType g = TileType.None) →
     getHeight g = getHeight g0 - SlopeDirection.toZ (activeSlope g))
  ∧ (activeType g0 = TileType.Surface → activeType g = TileType.None →
     activeSlope g = SlopeDirection.None).
Proof.
  intros Hrun Hg Hg0 HL. unfold getHeight.
  destruct (run_snoc_update tape ops l tp σ c g Hrun Hg)
    as (σ0 & c0 & g0' & Hrun0 & Hl0 & Eu & _).
  assert (g0' = g0) as ->.
  { apply layerAfter_Some in Hg0 as (σ1 & c1 & Hr1 & Hl1). congruence. }
  pose proof (reachable_foreground_height tape ops σ0 c0 Hrun0) as HF.
  eapply Forall_lookup_1 in HF; [|exact Hl0].
  apply updateLayer_steps in Eu
    as (s1 & c1 & s2 & c2 & b & s3 & E1 & E2 & _
        & Gh & Gt & Gs & _ & _ & _ & _ & _ & _ & GL & _).
  rewrite GL in HL. destruct (HF HL) as [Hh0 _].
  pose proof (updateSlope_height (resolve σ0 l) g0 tape c0) as H1.
  pose proof (updateSlope_sloped (resolve σ0 l) g0 tape c0) as S1.
  pose proof (updateSlope_frame (resolve σ0 l) g0 tape c0) as F1.
  rewrite E1 in H1, S1, F1. cbn [fst] in H1, S1, F1.
  destruct F1 as (_&_&_&_&FT&FL&_&_&_&FY&_).
  rewrite Gh, Gt, Gs. clear Gh Gt Gs.
  assert (Hd : -1 ≤ SlopeDirection.toZ (activeSlope s1) ≤ 1)
    by (destruct (activeSlope s1); cbn; lia).
  destruct (updateType_cases _ _ _ _ _ _ E2)
    as [(_ & HT & Hh & _)
       |[(_ & _ & Hns & Hsf & _ & _ & Hfg & _)
        |(Hw1 & Hls & Hsf & _ & _ & Hk)]].
  - rewrite Hh, H1, HT, FT. split; [lia|]. split; [reflexivity|].
    intros; congruence.
  - rewrite Hfg, H1 by congruence.
    split; [lia|]. split; [reflexivity|]. intros; congruence.
  - assert (Hflat : activeSlope s1 = SlopeDirection.None).
    { destruct S1 as [[? _]|[(_ & _ & ? & [?|(? & _)])|(_ & ? & _)]];
        [assumption|lia|congruence|congruence]. }
    rewrite Hflat in *. cbn [SlopeDirection.toZ] in *.
    destruct Hk as [(HB & _ & Hh)|[(_ & ? & _)|(HN & _ & Hr)]];
      [|congruence|].
    + rewrite Hh, H1, HB. split; [lia|]. split; [lia|]. discriminate.
    + unfold GAP_JUMP_MAX in Hr. destruct Hr as [Hlo Hhi]; [lia|].
      split; [lia|]. split; [|reflexivity].
      intros Hno. exfalso. apply Hno. split; congruence.
Qed.

Lemma foreground_height_step_witness :
  run tapeForcedAscent (setup 10 ++ ticks 10 4 ++ [Update 0 4]) initial
    = Some worldClimb
  ∧ activeSlope (layerOf worldClimb 0) = SlopeDirection.Up
  ∧ getHeight (layerOf worldClimb 0)
    = getHeight (layerOf worldBeforeClimb 0) + 1.
Proof.
  split; [vm_compute; reflexivity|]. split; [vm_compute; reflexivity|].
  assert (H : run tapeForcedAscent ((setup 10 ++ ticks 10 4) ++ [Update 0 4])
                initial = Some (worldClimb.1, worldClimb.2))
    by (vm_compute; reflexivity).
  assert (A : activeSlope (layerOf worldClimb 0) = SlopeDirection.Up)
    by (vm_compute; reflexivity).
  destruct (foreground_height_step _ _ _ _ _ _ (layerOf worldClimb 0)
              (layerOf worldBeforeClimb 0) H)
    as (_ & Hs & _).
  - vm_compute. reflexivity.
  - vm_compute. reflexivity.
  - vm_compute. reflexivity.
  - rewrite Hs, A; [cbn; lia|]. intros [_ Hn]. vm_compute in Hn. discriminate.
Defined.

(** ** The probe on a reached layer *)

(** With a positive modulus [negMod] yields an index of the ring. *)
Lemma negMod_range m n :
  0 < n → ∃ i, negMod m n = Some i ∧ 0 ≤ i < n.
Proof.
  intros Hn. unfold negMod. rewrite decide_False by lia.
  eexists. split; [reflexivity|].
  pose proof (Z.rem_bound_abs m n ltac:(lia)) as Hb.
  apply Z.rem_bound_pos; lia.
Qed.

(** [m % n] is an index of the ring when [m] is not negative. *)
Lemma jsMod_range m n :
  0 ≤ m → 0 < n → ∃ i, jsMod m n = Some i ∧ 0 ≤ i < n.
Proof.
  intros Hm Hn. unfold jsMod. rewrite decide_False by lia.
  eexists. split; [reflexivity|]. apply Z.rem_bound_pos; lia.
Qed.

Lemma flat_map_length_le {A B} (f : A → list B) (xs : list A) :
  (∀ x, length (f x) ≤ 1)%nat → (length (flat_map f xs) ≤ length xs)%nat.
Proof.
  intros Hf. induction xs as [|x xs IH]; cbn [flat_map length]; [lia|].
  rewrite length_app. specialize (Hf x). lia.
Qed.

Lemma collideColumn_length this globalSpeed tp off event h x :
  (length (collideColumn this globalSpeed tp off event h x) ≤ 1)%nat.
Proof.
  unfold collideColumn. destruct (decide _); [cbn; lia|].
  destruct (slot (slope this) _) as [[]|]; cbn; lia.
Qed.

(** The column of the probe over a ring of tile records. *)
Lemma collideColumn_tiles T this globalSpeed tp off event h x :
  tiles T this → 0 < width this →
  ∃ i y t s d,
    negMod (x + tp) (width this) = Some i ∧ 0 ≤ i < width this
    ∧ tileAt this i = (Some y, Some t, Some s, Some d) ∧ T y t s d
    ∧ collideColumn this globalSpeed tp off event h x
      = if decide (t = TileType.None) then []
        else [ segmentOf s
                 (ofZ x * 16 - off - ofZ BASE_SHIFT_X * 16
                  + shift this)%float
                 ((h - y) * 16) globalSpeed event
                 (isEmpty (slot (type this) (negMod (i - 1) (width this))))
                 (isEmpty (slot (type this) (jsMod (i + 1) (width this)))) ].
Proof.
  intros HT HW.
  destruct (negMod_range (x + tp) (width this) HW) as (i & Hi & Hr).
  destruct (tiles_lookup _ this i HT)
    as [(y & t & s & d & E & Ht)|[_ ?]]; [|contradiction].
  exists i, y, t, s, d. do 4 (split; [assumption|]).
  unfold tileAt in E. injection E as E1 E2 E3 E4.
  unfold collideColumn. rewrite Hi. cbn [slot mbind option_bind].
  rewrite E1, E2, E3. cbn [fmap option_fmap option_map].
  destruct (decide (t = TileType.None)) as [->|Hne].
  - rewrite decide_True by reflexivity. reflexivity.
  - rewrite decide_False by congruence. destruct s; reflexivity.
Qed.

(** X9: the probe on a layer that the driver has reached, of positive width.
    Every column resolves to a slot of the ring that holds a tile record;
    the column reports nothing when the tile is a gap and else the one floor
    segment of the tile.  So the probe makes at most five calls, and the
    ordinates of every call are numbers: the end of the segment lies at the
    height of the tile, which in the foreground layer is between one and
    five tiles above the bottom of the screen, and its start lies level
    with the end or one tile (16 pixels) below or above it. *)
Theorem objectCollision_on_reached_layer
    tape ops l g ox globalSpeed tp off event :
  layerAfter tape ops l = Some g → 0 < width g →
  let h := toInt32 (screenHeight event / 16) in
  let calls := objectCollision g ox globalSpeed tp off event in
  (length calls ≤ 5)%nat
  ∧ (∀ x, ∃ i y t s,
       negMod (x + tp) (width g) = Some i ∧ 0 ≤ i < width g
       ∧ height g !! i = Some y ∧ type g !! i = Some t
       ∧ slope g !! i = Some s
       ∧ collideColumn g globalSpeed tp off event h x
         = if decide (t = TileType.None) then []
           else [ segmentOf s
                    (ofZ x * 16 - off - ofZ BASE_SHIFT_X * 16
                     + shift g)%float
                    ((h - y) * 16) globalSpeed event
                    (isEmpty (slot (type g) (negMod (i - 1) (width g))))
                    (isEmpty (slot (type g) (jsMod (i + 1) (width g)))) ])
  ∧ ∀ call, call ∈ calls →
      ∃ y, fc_y2 call = Some y
        ∧ (fc_y1 call = Some y ∨ fc_y1 call = Some (y + 16)
           ∨ fc_y1 call = Some (y - 16))
        ∧ (layerType g = GroundLayerType.Foreground →
           (h - 5) * 16 ≤ y ≤ (h - 1) * 16).
Proof.
  intros Hg HW h calls.
  apply reachable_layer_ringInv in Hg as (_ & _ & _ & _ & HT).
  split; [|split].
  - unfold calls, objectCollision.
    etransitivity;
      [apply flat_map_length_le; intros; apply collideColumn_length|].
    rewrite length_seqZ. unfold OFFSET. lia.
  - intros x.
    destruct (collideColumn_tiles _ g globalSpeed tp off event h x HT HW)
      as (i & y & t & s & d & Hi & Hr & E & _ & Hc).
    unfold tileAt in E. injection E as E1 E2 E3 E4.
    exists i, y, t, s. auto 10.
  - intros call Hin. unfold calls, objectCollision in Hin.
    apply list_elem_of_In, in_flat_map in Hin as (x & _ & Hin).
    fold h in Hin.
    destruct (collideColumn_tiles _ g globalSpeed tp off event h x HT HW)
      as (i & y & t & s & d & _ & _ & _ & (_ & _ & HF) & Hc).
    rewrite Hc in Hin. destruct (decide _); [inversion Hin|].
    destruct Hin as [<-|[]]. exists ((h - y) * 16).
    split; [destruct s; reflexivity|].
    split; [destruct s; cbn; auto|].
    intros HL. destruct (HF HL) as [? _]. lia.
Qed.

Lemma objectCollision_on_reached_layer_witness :
  layerAfter tapeForcedAscent (setup 4 ++ ticks 4 5) 0
    = Some (layerOf worldRing 0)
  ∧ width (layerOf worldRing 0) = 4
  ∧ (length (objectCollision (layerOf worldRing 0) 0 1 1 0.1 eventRing)
     ≤ 5)%nat
  ∧ collideColumn (layerOf worldRing 0) 1 1 0.1 eventRing 12 1
    = [ {| fc_x1 := -16.100000000000001; fc_y1 := Some 160;
           fc_x2 := -0.10000000000000142; fc_y2 := Some 160;
           fc_speed := 1; fc_event := eventRing;
           fc_left := 1; fc_right := 0 |} ].
Proof.
  assert (H : layerAfter tapeForcedAscent (setup 4 ++ ticks 4 5) 0
              = Some (layerOf worldRing 0)) by (vm_compute; reflexivity).
  assert (W : width (layerOf worldRing 0) = 4) by (vm_compute; reflexivity).
  split; [exact H|]. split; [exact W|].
  destruct (objectCollision_on_reached_layer _ _ _ _ 0 1 1 0.1 eventRing H)
    as (Hlen & Hcol & _); [rewrite W; lia|].
  split; [exact Hlen|].
  destruct (Hcol 1) as (i & y & t & s & Hi & _ & Hy & Ht & Hs & Hc).
  change (toInt32 (screenHeight eventRing / 16)) with 12 in Hc.
  rewrite Hc. clear Hc Hcol Hlen.
  assert (i = 2) as -> by (vm_compute in Hi; congruence).
  assert (y = 2) as -> by (vm_compute in Hy; congruence).
  assert (t = TileType.Surface) as -> by (vm_compute in Ht; congruence).
  assert (s = SlopeDirection.None) as -> by (vm_compute in Hs; congruence).
  vm_compute. reflexivity.
Defined.

(** ** The spacing of the palm trees *)

Lemma updatesOf_app l ops1 ops2 :
  updatesOf l (ops1 ++ ops2) = (updatesOf l ops1 + updatesOf l ops2)%nat.
Proof.
  induction ops1 as [|[| |l' tp] ops1 IH]; cbn [app updatesOf]; lia.
Qed.

(** While the countdown is above 1, [update] places nothing. *)
Lemma updateLayer_countdown rf tp this tape c g c' :
  updateLayer rf tp this tape c = (g, c') →
  2 ≤ decorationWait this →
  decorationWait g = decorationWait this - 1
  ∧ decorations g = <[tp := Decoration.None]> (decorations this).
Proof.
  intros Eu Hw.
  destruct (updateSlope rf this tape c) as [s1 c1] eqn:E1.
  destruct (updateType rf s1 tape c1) as [s2 c2] eqn:E2.
  destruct (updateDecorations rf tp s2 tape c2) as [[b s3] c3] eqn:E3.
  destruct (updateLayer_arrays _ _ _ _ _ _ _ _ _ _ _ _ E1 E2 E3)
    as (g1 & Hg & _ & _ & _ & A4 & _).
  destruct (updateLayer_timers _ _ _ _ _ _ _ _ _ _ _ _ E1 E2 E3)
    as (g2 & Hg2 & _ & _ & _ & _ & _ & _ & _ & _ & Td & _).
  rewrite Eu in Hg, Hg2. injection Hg as <- <-. injection Hg2 as <-.
  pose proof (updateSlope_frame rf this tape c) as F1.
  rewrite E1 in F1. cbn [fst] in F1.
  destruct F1 as (_&_&_&_&_&_&_&F8&_).
  pose proof (updateType_frame rf s1 tape c1) as F2.
  rewrite E2 in F2. cbn [fst] in F2.
  destruct F2 as (_&_&_&_&_&_&_&_&G9&_).
  destruct (updateDecorations_cases rf tp s2 tape c2)
    as [[_ Hu]|[(Hle & _)|(Hle & _)]];
    [|cbn in Hle; lia|cbn in Hle; lia].
  rewrite E3 in Hu. injection Hu as -> -> _.
  rewrite A4, Td. cbn. split; [lia | reflexivity].
Qed.

(** One operation of the driver, seen from layer [l]: an [update] of [l]
    whose countdown is above 1 steps the countdown and writes no
    decoration; every other operation leaves the countdown and the
    decorations of [l] alone. *)
Lemma step_countdown tape op σ c σ' c' l g :
  step tape op (σ, c) = Some (σ', c') → σ !! l = Some g →
  Z.of_nat (updatesOf l [op]) < decorationWait g →
  ∃ g', σ' !! l = Some g'
    ∧ decorationWait g'
      = decorationWait g - Z.of_nat (updatesOf l [op])
    ∧ ∀ i, decorations g' !! i
           = match op with
             | Update l' tp =>
                 if decide (l' = l ∧ tp = i) then Some Decoration.None
                 else decorations g !! i
             | _ => decorations g !! i
             end.
Proof.
  intros Hs Hl Hw. destruct op as [w t s|l0 r|l0 tp]; cbn in Hs, Hw |- *.
  - destruct (new_GroundLayer w t s tape c) as [[g0|] c1]; cbn in Hs;
      [|discriminate].
    injection Hs as <- <-. exists g.
    split; [apply lookup_app_l_Some; exact Hl|]. split; [lia|auto].
  - unfold setReferenceLayer in Hs.
    destruct (σ !! l0) as [g0|] eqn:El0; cbn in Hs; [|discriminate].
    destruct (σ !! r) as [g1|]; cbn in Hs; [|discriminate].
    injection Hs as <- <-.
    destruct (decide (l0 = l)) as [->|Hne].
    + exists (set_ref (Some r) g0).
      split; [apply list_lookup_insert_eq; eapply lookup_lt_Some; exact Hl|].
      assert (g0 = g) as -> by congruence. cbn. split; [lia|auto].
    + exists g. rewrite list_lookup_insert_ne by exact Hne.
      split; [exact Hl|]. split; [lia|auto].
  - destruct (σ !! l0) as [g0|] eqn:El0;
      [|unfold update in Hs; rewrite El0 in Hs; discriminate].
    rewrite (update_layer σ l0 g0 tp tape c El0) in Hs.
    destruct (updateLayer (resolve σ l0) tp g0 tape c) as [g1 c1] eqn:Eu.
    cbn in Hs. injection Hs as <- <-.
    destruct (decide (l0 = l)) as [->|Hne].
    + assert (g0 = g) as -> by congruence.
      exists g1.
      split; [apply list_lookup_insert_eq; eapply lookup_lt_Some; exact Hl|].
      destruct (updateLayer_countdown _ _ _ _ _ _ _ Eu) as [Hd Ha]; [lia|].
      split; [lia|]. intros i. rewrite Ha, lookup_insert.
      destruct (decide (tp = i)).
      * rewrite decide_True by auto. reflexivity.
      * rewrite decide_False by tauto. reflexivity.
    + exists g. rewrite list_lookup_insert_ne by exact Hne.
      split; [exact Hl|]. split; [lia|].
      intros i. rewrite decide_False by tauto. reflexivity.
Qed.

Lemma run_countdown tape l ops : ∀ σ c σ' c' g,
  run tape ops (σ, c) = Some (σ', c') → σ !! l = Some g →
  Z.of_nat (updatesOf l ops) < decorationWait g →
  ∃ g', σ' !! l = Some g'
    ∧ decorationWait g' = decorationWait g - Z.of_nat (updatesOf l ops)
    ∧ ∀ i, decorations g' !! i = Some Decoration.Palmtree →
           decorations g !! i = Some Decoration.Palmtree.
Proof.
  induction ops as [|op ops IH]; intros σ c σ' c' g Hrun Hl Hw.
  - cbn in Hrun. injection Hrun as <- <-. exists g.
    split; [exact Hl|]. split; [cbn; lia|auto].
  - cbn [run] in Hrun.
    destruct (step tape op (σ, c)) as [[σ1 c1]|] eqn:Es;
      cbn [mbind option_bind] in Hrun; [|discriminate].
    change (op :: ops) with ([op] ++ ops) in Hw |- *.
    rewrite updatesOf_app in Hw |- *.
    destruct (step_countdown tape op σ c σ1 c1 l g Es Hl)
      as (g1 & Hl1 & Hd1 & Ha1); [lia|].
    destruct (IH σ1 c1 σ' c' g1 Hrun Hl1) as (g' & Hl' & Hd' & Ha');
      [lia|].
    exists g'. split; [exact Hl'|]. split; [lia|].
    intros i Hp. specialize (Ha' i Hp). rewrite Ha1 in Ha'.
    destruct op as [| |l0 tp]; try assumption.
    destruct (decide _); [discriminate|assumption].
Qed.

(** X10: the spacing of the palm trees.  A call of [update] that places a
    palm tree found the countdown run out and leaves it between 8 and 16.
    While the driver then calls [update] on this layer at most seven times,
    among any other operations, the countdown steps down by one per call,
    every one of these calls writes the decoration none, and no palm tree
    is added to the ring. *)
Theorem palmtree_spacing tape σ c l tp g σ1 c1 g1 :
  σ !! l = Some g →
  update l tp σ tape c = (Some σ1, c1) → σ1 !! l = Some g1 →
  decorations g1 !! tp = Some Decoration.Palmtree →
  decorationWait g ≤ 1
  ∧ DECORATION_WAIT_MIN ≤ decorationWait g1 ≤ DECORATION_WAIT_MAX
  ∧ ∀ ops σ2 c2,
      run tape ops (σ1, c1) = Some (σ2, c2) → (updatesOf l ops ≤ 7)%nat →
      ∃ g2, σ2 !! l = Some g2
        ∧ decorationWait g2
          = decorationWait g1 - Z.of_nat (updatesOf l ops)
        ∧ (∀ i, decorations g2 !! i = Some Decoration.Palmtree →
                decorations g1 !! i = Some Decoration.Palmtree)
        ∧ ∀ pre tp' suf, ops = pre ++ Update l tp' :: suf →
            ∃ σp cp gp,
              run tape (pre ++ [Update l tp']) (σ1, c1) = Some (σp, cp)
              ∧ σp !! l = Some gp
              ∧ decorations gp !! tp' = Some Decoration.None.
Proof.
  intros Hl Hu Hl1 Hp.
  pose proof (update_inv σ l g tp tape c σ1 c1 g1 Hl Hu Hl1) as Eu.
  assert (decorationWait g ≤ 1
          ∧ DECORATION_WAIT_MIN ≤ decorationWait g1 ≤ DECORATION_WAIT_MAX)
    as [Hw Hr].
  { destruct (updateSlope (resolve σ l) g tape c) as [s1 k1] eqn:E1.
    destruct (updateType (resolve σ l) s1 tape k1) as [s2 k2] eqn:E2.
    destruct (updateDecorations (resolve σ l) tp s2 tape k2)
      as [[b s3] k3] eqn:E3.
    destruct (updateLayer_arrays _ _ _ _ _ _ _ _ _ _ _ _ E1 E2 E3)
      as (g' & Hg & _ & _ & _ & A4 & _).
    destruct (updateLayer_timers _ _ _ _ _ _ _ _ _ _ _ _ E1 E2 E3)
      as (g'' & Hg2 & _ & _ & _ & _ & _ & _ & _ & _ & Td & _).
    rewrite Eu in Hg, Hg2. injection Hg as <- <-. injection Hg2 as <-.
    rewrite A4, lookup_insert_eq in Hp. destruct b; [|discriminate].
    apply updateDecorations_placed in E3 as (_ & _ & Hw & Hr).
    pose proof (updateSlope_frame (resolve σ l) g tape c) as F1.
    rewrite E1 in F1. cbn [fst] in F1.
    destruct F1 as (_&_&_&_&_&_&_&F8&_).
    pose proof (updateType_frame (resolve σ l) s1 tape k1) as F2.
    rewrite E2 in F2. cbn [fst] in F2.
    destruct F2 as (_&_&_&_&_&_&_&_&G9&_).
    split; [lia|]. rewrite Td. exact Hr. }
  split; [exact Hw|]. split; [exact Hr|].
  unfold DECORATION_WAIT_MIN in Hr.
  intros ops σ2 c2 Hrun Hn.
  destruct (run_countdown tape l ops σ1 c1 σ2 c2 g1 Hrun Hl1)
    as (g2 & Hl2 & Hd2 & Ha2); [lia|].
  exists g2. split; [exact Hl2|]. split; [exact Hd2|]. split; [exact Ha2|].
  intros pre tp' suf ->.
  rewrite run_app in Hrun.
  destruct (run tape pre (σ1, c1)) as [[σa ca]|] eqn:Ea;
    cbn [mbind option_bind] in Hrun; [|discriminate].
  rewrite updatesOf_app in Hn. cbn [updatesOf] in Hn.
  rewrite decide_True in Hn by reflexivity.
  destruct (run_countdown tape l pre σ1 c1 σa ca g1 Ea Hl1)
    as (ga & Hla & Hda & _); [lia|].
  cbn [run] in Hrun.
  destruct (step tape (Update l tp') (σa, ca)) as [[σp cp]|] eqn:Es;
    cbn [mbind option_bind] in Hrun; [|discriminate].
  destruct (step_countdown tape (Update l tp') σa ca σp cp l ga Es Hla)
    as (gp & Hlp & _ & Hap).
  { cbn [updatesOf]. rewrite decide_True by reflexivity. lia. }
  exists σp, cp, gp. rewrite run_app, Ea. cbn [mbind option_bind run].
  rewrite Es. split; [reflexivity|]. split; [exact Hlp|].
  rewrite Hap. rewrite decide_True by auto. reflexivity.
Qed.

Lemma palmtree_spacing_witness :
  worldBeforeTree.1 !! 1%nat = Some (layerOf worldBeforeTree 1)
  ∧ update 1 7 worldBeforeTree.1 tapeTreeOverGap worldBeforeTree.2
    = (Some worldTreeOverGap.1, worldTreeOverGap.2)
  ∧ decorations (layerOf worldTreeOverGap 1) !! 7
    = Some Decoration.Palmtree
  ∧ decorationWait (layerOf worldBeforeTree 1) ≤ 1
  ∧ 8 ≤ decorationWait (layerOf worldTreeOverGap 1) ≤ 16.
Proof.
  assert (H1 : worldBeforeTree.1 !! 1%nat = Some (layerOf worldBeforeTree 1))
    by (vm_compute; reflexivity).
  assert (H2 : update 1 7 worldBeforeTree.1 tapeTreeOverGap worldBeforeTree.2
               = (Some worldTreeOverGap.1, worldTreeOverGap.2))
    by (vm_compute; reflexivity).
  assert (H3 : worldTreeOverGap.1 !! 1%nat = Some (layerOf worldTreeOverGap 1))
    by (vm_compute; reflexivity).
  assert (H4 : decorations (layerOf worldTreeOverGap 1) !! 7
               = Some Decoration.Palmtree) by (vm_compute; reflexivity).
  split; [exact H1|]. split; [exact H2|]. split; [exact H4|].
  destruct (palmtree_spacing _ _ _ _ _ _ _ _ _ H1 H2 H3 H4) as (Hw & Hr & _).
  split; assumption.
Defined.

(** ** The constructor *)

(** X11: what the constructor builds.  A construction that succeeds draws
    exactly two random numbers, a slope wait between 2 and 12 and a
    decoration countdown between 8 and 16; the slots [0 .. width - 1] of
    the ring hold the initial tile of the layer (a flat surface of height 2
    without decoration in the foreground, a flat gap of height 0 in the
    background) and no other index holds anything; the layer has no
    reference, and its getters report the initial tile. *)
Theorem new_GroundLayer_initial w t s tape c g c' :
  new_GroundLayer w t s tape c = (Some g, c') →
  let h0 := match t with
            | GroundLayerType.Foreground => 2
            | GroundLayerType.Background => 0
            end in
  let t0 := match t with
            | GroundLayerType.Foreground => TileType.Surface
            | GroundLayerType.Background => TileType.None
            end in
  c' = S (S c)
  ∧ SLOPE_WAIT_MIN ≤ slopeWait g ≤ SLOPE_WAIT_MAX
  ∧ DECORATION_WAIT_MIN ≤ decorationWait g ≤ DECORATION_WAIT_MAX
  ∧ (∀ i, tileAt g i
          = if decide (0 ≤ i < w)
            then (Some h0, Some t0, Some SlopeDirection.None,
                  Some Decoration.None)
            else (None, None, None, None))
  ∧ width g = w ∧ layerType g = t ∧ shift g = s ∧ ref g = None
  ∧ getHeight g = h0
  ∧ hasGap g = bool_decide (t = GroundLayerType.Background)
  ∧ getDistanceFromPlatform g = 0.
Proof.
  intros En h0 t0.
  apply new_GroundLayer_inv in En as (Hw & -> & sw & dw & Hs & Hd & ->).
  split; [reflexivity|]. split; [exact Hs|]. split; [exact Hd|].
  split.
  { intros i. unfold tileAt. cbn.
    destruct (decide (0 ≤ i < w)) as [Hi|Hi].
    - rewrite !fillArray_lookup_Some by exact Hi. destruct t; reflexivity.
    - rewrite !fillArray_lookup_None by exact Hi. reflexivity. }
  cbn. do 4 (split; [reflexivity|]).
  destruct t; repeat split.
Qed.

Lemma new_GroundLayer_initial_witness :
  new_GroundLayer 4 GroundLayerType.Background 8 tapeZero 0%nat
    = (Some layerFresh, 2%nat)
  ∧ tileAt layerFresh 3
    = (Some 0, Some TileType.None, Some SlopeDirection.None,
       Some Decoration.None)
  ∧ tileAt layerFresh 4 = (None, None, None, None)
  ∧ hasGap layerFresh = true.
Proof.
  assert (H : new_GroundLayer 4 GroundLayerType.Background 8 tapeZero 0%nat
              = (Some layerFresh, 2%nat)) by (vm_compute; reflexivity).
  split; [exact H|].
  destruct (new_GroundLayer_initial _ _ _ _ _ _ _ H)
    as (_ & _ & _ & Ht & _ & _ & _ & _ & _ & Hg & _).
  split; [rewrite (Ht 3); reflexivity|].
  split; [rewrite (Ht 4); reflexivity|]. rewrite Hg. reflexivity.
Defined.

(** ** Rendering *)

Section RenderingProperties.

Context {Bitmap : Type}.
Implicit Types (bmp : option Bitmap) (call : @DrawBitmap Bitmap).

(** The vertical offset of the top sprite of a tile: one row up on a
    descent, none otherwise. *)
Lemma bySlope_YOFF s :
  bySlope YOFF (Some s)
  = Some (match s with SlopeDirection.Down => -1 | _ => 0 end).
Proof. destruct s; reflexivity. Qed.

Lemma bySlope_BASE_SRC_X s :
  bySlope BASE_SRC_X (Some s)
  = Some (match s with
          | SlopeDirection.Up => 80
          | SlopeDirection.None => 32
          | SlopeDirection.Down => 96
          end).
Proof. destruct s; reflexivity. Qed.

(** X12: the fill below a surface tile.  The rows of the fill start below the
    row of the surface ([dy + YOFF[dir + 1] + 2] is at least [dy + 1]) and
    end above the bottom of the screen; so the test [y == dy] in the loop of
    [draw] never holds, and every sprite of the fill is taken from the
    source row 16. *)
Theorem draw_fill_below_surface bmp dx dy sx h dir call :
  call ∈ drawFill bmp dx dy sx h
           (lift2 (λ a b, a + b + 2) dy (bySlope YOFF dir)) →
  db_sy call = 16 ∧ db_sw call = 16 ∧ db_sh call = 16
  ∧ db_sx call = sx ∧ db_dx call = dx ∧ db_bmp call = bmp
  ∧ ∃ d y, dy = Some d ∧ db_dy call = Some (y * 16) ∧ d < y < h.
Proof.
  destruct dy as [d|]; [|intros []%elem_of_nil].
  destruct dir as [s|]; [|intros []%elem_of_nil].
  rewrite bySlope_YOFF. cbn [lift2 mbind option_bind drawFill].
  intros (y & -> & Hy)%list_elem_of_fmap. apply elem_of_seqZ in Hy.
  cbn. rewrite decide_False by (intros [= ->]; destruct s; lia).
  do 6 (split; [reflexivity|]).
  exists d, y. split; [reflexivity|]. split; [reflexivity|].
  destruct s; lia.
Qed.

Lemma edgeShift_is_Some left right v :
  is_Some (edgeShift left right (Some v)).
Proof. destruct left, right; cbn; eauto. Qed.

(** The column of [draw] over a ring of well-formed tile records, for a
    tile pointer that is not negative. *)
Lemma drawColumn_tiles lt this bmp tp off h x :
  tiles (tileOK lt) this → 0 ≤ tp → 0 ≤ x < width this →
  ∃ i y t s d,
    jsMod (x + tp) (width this) = Some i ∧ 0 ≤ i < width this
    ∧ tileAt this i = (Some y, Some t, Some s, Some d)
    ∧ tileOK lt y t s d
    ∧ drawColumn this bmp tp off h x
      = drawDecoration bmp (Some d)
          (ofZ x * 16 - ofZ (toInt32 off)
           - ofZ BASE_SHIFT_X * 16 + shift this)%float
          (Some ((h - y) * 16))
        ++ match t with
           | TileType.Surface =>
               let dx :=
                 (ofZ x * 16 - ofZ (toInt32 off)
                  - ofZ BASE_SHIFT_X * 16 + shift this)%float in
               let left :=
                 notSurface
                   (slot (type this) (negMod (i - 1) (width this))) in
               let right :=
                 notSurface
                   (slot (type this) (jsMod (i + 1) (width this))) in
               let yoff :=
                 match s with SlopeDirection.Down => -1 | _ => 0 end in
               [ {| db_bmp := bmp; db_dx := dx;
                    db_dy := Some ((h - y) * 16 + yoff * 16);
                    db_sx := edgeShift left right (bySlope BASE_SRC_X (Some s));
                    db_sy := 0; db_sw := 16; db_sh := 32 |} ]
               ++ drawFill bmp dx (Some (h - y))
                    (edgeShift left right (Some 32)) h
                    (Some (h - y + yoff + 2))
               ++ (if left
                   then [ {| db_bmp := bmp; db_dx := dx - 16;
                             db_dy := Some ((h - y) * 16);
                             db_sx := Some 0; db_sy := 0;
                             db_sw := 16; db_sh := 16 |} ]
                   else [])
               ++ (if right
                   then [ {| db_bmp := bmp; db_dx := dx + 16;
                             db_dy := Some ((h - y) * 16);
                             db_sx := Some 64; db_sy := 0;
                             db_sw := 16; db_sh := 16 |} ]
                   else [])
           | TileType.Bridge =>
               [ {| db_bmp := bmp;
                    db_dx :=
                      (ofZ x * 16 - ofZ (toInt32 off)
                       - ofZ BASE_SHIFT_X * 16 + shift this)%float;
                    db_dy := Some ((h - y) * 16 + BRIDGE_Y_OFF);
                    db_sx := Some 96; db_sy := 32;
                    db_sw := 16; db_sh := 16 |} ]
           | TileType.None => []
           end.
Proof.
  intros HT Htp Hx.
  destruct (jsMod_range (x + tp) (width this)) as (i & Hi & Hr); [lia|lia|].
  destruct (tiles_lookup _ this i HT)
    as [(y & t & s & d & E & Ht)|[_ ?]]; [|contradiction].
  exists i, y, t, s, d. do 4 (split; [assumption|]).
  unfold tileAt in E. injection E as E1 E2 E3 E4.
  unfold drawColumn. rewrite Hi. cbn [slot mbind option_bind].
  rewrite E1, E2, E3, E4. cbn [fmap option_fmap option_map].
  f_equal.
  - destruct d; [rewrite decide_False by auto|rewrite decide_True by discriminate];
      reflexivity.
  - destruct t; [reflexivity| |reflexivity].
    rewrite bySlope_YOFF. cbn [lift2 mbind option_bind]. reflexivity.
Qed.

(** X13: [draw] on a layer that the driver has reached, with a tile pointer
    that is not negative.  Every column of the screen resolves to a slot of
    the ring that holds a tile record: a gap draws nothing, a bridge draws
    exactly one sprite, two pixels above the row of its height, and a
    surface draws its palm tree first, if it has one, and then its top
    sprite.  Every call of [drawBitmap] passes the bitmap of [draw] and
    numbers for the ordinate and the source abscissa (never [NaN] or
    [undefined]). *)
Theorem draw_on_reached_layer tape ops l g canvas bmp tp off :
  layerAfter tape ops l = Some g → 0 ≤ tp →
  let h := toInt32 (canvasHeight canvas / 16) in
  (∀ call, call ∈ draw g canvas bmp tp off →
     is_Some (db_dy call) ∧ is_Some (db_sx call) ∧ db_bmp call = bmp)
  ∧ ∀ x, 0 ≤ x < width g →
      ∃ i y t s d,
        jsMod (x + tp) (width g) = Some i ∧ 0 ≤ i < width g
        ∧ tileAt g i = (Some y, Some t, Some s, Some d)
        ∧ let dx :=
            (ofZ x * 16 - ofZ (toInt32 off)
             - ofZ BASE_SHIFT_X * 16 + shift g)%float in
          (t = TileType.None → drawColumn g bmp tp off h x = [])
          ∧ (t = TileType.Bridge →
             drawColumn g bmp tp off h x
             = [ {| db_bmp := bmp; db_dx := dx;
                    db_dy := Some ((h - y) * 16 - 2);
                    db_sx := Some 96; db_sy := 32;
                    db_sw := 16; db_sh := 16 |} ])
          ∧ (t = TileType.Surface →
             ∃ sx rest,
               drawColumn g bmp tp off h x
               = (if decide (d = Decoration.Palmtree)
                  then [ {| db_bmp := bmp; db_dx := dx - 8;
                            db_dy := Some ((h - y) * 16 - 33);
                            db_sx := Some 160; db_sy := 0;
                            db_sw := 32; db_sh := 33 |} ]
                  else [])
                 ++ {| db_bmp := bmp; db_dx := dx;
                       db_dy :=
                         Some (if decide (s = SlopeDirection.Down)
                               then (h - y - 1) * 16 else (h - y) * 16);
                       db_sx := Some sx; db_sy := 0;
                       db_sw := 16; db_sh := 32 |} :: rest).
Proof.
  intros Hg Htp h.
  apply reachable_layer_ringInv in Hg as (_ & _ & _ & _ & HT).
  split.
  - intros call Hin. unfold draw in Hin.
    apply list_elem_of_In, in_flat_map in Hin as (x & Hx & Hin).
    apply list_elem_of_In, elem_of_seqZ in Hx. fold h in Hin.
    destruct (drawColumn_tiles _ g bmp tp off h x HT Htp)
      as (i & y & t & s & d & _ & _ & _ & _ & E); [lia|].
    rewrite E in Hin. clear E.
    apply in_app_or in Hin as [Hin|Hin].
    { destruct d; [destruct Hin|]. destruct Hin as [<-|[]].
      cbn. eauto. }
    destruct t; [destruct Hin| |destruct Hin as [<-|[]]; cbn; eauto].
    cbn zeta in Hin.
    apply in_app_or in Hin as [[<-|[]]|Hin].
    { cbn [db_dy db_sx db_bmp]. rewrite bySlope_BASE_SRC_X.
      split; [eauto|]. split; [apply edgeShift_is_Some|reflexivity]. }
    apply in_app_or in Hin as [Hin|Hin].
    { cbn [drawFill] in Hin.
      apply list_elem_of_In, list_elem_of_fmap in Hin as (y' & -> & _).
      cbn [db_dy db_sx db_bmp].
      split; [eauto|]. split; [apply edgeShift_is_Some|reflexivity]. }
    apply in_app_or in Hin as [Hin|Hin];
      match type of Hin with
      | In _ (if ?b then _ else _) =>
          destruct b; [destruct Hin as [<-|[]]; cbn; eauto | destruct Hin]
      end.
  - intros x Hx.
    destruct (drawColumn_tiles _ g bmp tp off h x HT Htp Hx)
      as (i & y & t & s & d & Hi & Hr & Ht & (HP & _) & E).
    exists i, y, t, s, d. do 3 (split; [assumption|]).
    cbn zeta. rewrite E. clear E.
    assert (Hd : t ≠ TileType.Surface → d = Decoration.None).
    { intros Hn. destruct d; [reflexivity|].
      destruct HP as [? _]; [reflexivity|contradiction]. }
    split; [|split].
    + intros ->. rewrite Hd by discriminate. reflexivity.
    + intros ->. rewrite Hd by discriminate. cbn.
      unfold BRIDGE_Y_OFF. repeat f_equal.
    + intros ->.
      destruct (edgeShift_is_Some
                  (notSurface (slot (type g) (negMod (i - 1) (width g))))
                  (notSurface (slot (type g) (jsMod (i + 1) (width g))))
                  (match s with
                   | SlopeDirection.Up => 80
                   | SlopeDirection.None => 32
                   | SlopeDirection.Down => 96
                   end)) as [sx Hsx].
      exists sx. eexists. cbn zeta. rewrite bySlope_BASE_SRC_X, Hsx.
      cbn [app]. f_equal.
      * destruct d; [rewrite decide_False by discriminate
                    |rewrite decide_True by reflexivity]; reflexivity.
      * f_equal. f_equal. f_equal.
        destruct s; [rewrite decide_False by discriminate
                    |rewrite decide_False by discriminate
                    |rewrite decide_True by reflexivity]; lia.
Qed.

End RenderingProperties.

Lemma draw_fill_below_surface_witness :
  db_sy {| db_bmp := Some "tiles"; db_dx := 0; db_dy := Some 144;
           db_sx := Some 32; db_sy := 16; db_sw := 16; db_sh := 16 |} = 16
  ∧ ∃ d y, Some 7 = Some d ∧ Some 144 = Some (y * 16) ∧ d < y < 12.
Proof.
  destruct (draw_fill_below_surface (Some "tiles") 0 (Some 7) (Some 32) 12
              (Some SlopeDirection.None)
              {| db_bmp := Some "tiles"; db_dx := 0; db_dy := Some 144;
                 db_sx := Some 32; db_sy := 16; db_sw := 16; db_sh := 16 |})
    as (H1 & _ & _ & _ & _ & _ & H2).
  - vm_compute. constructor.
  - split; [exact H1 | exact H2].
Defined.

Lemma draw_on_reached_layer_witness :
  layerAfter tapeZero opsShifted 0 = Some (layerOf worldShifted 0)
  ∧ width (layerOf worldShifted 0) = 4
  ∧ shift (layerOf worldShifted 0) = 0.1%float
  ∧ ∃ sx rest,
      drawColumn (layerOf worldShifted 0) (Some "tiles") 0 0 12 1
      = {| db_bmp := Some "tiles"; db_dx := -15.9; db_dy := Some 160;
           db_sx := Some sx; db_sy := 0; db_sw := 16; db_sh := 32 |} :: rest.
Proof.
  assert (H : layerAfter tapeZero opsShifted 0
              = Some (layerOf worldShifted 0)) by (vm_compute; reflexivity).
  assert (W : width (layerOf worldShifted 0) = 4) by (vm_compute; reflexivity).
  split; [exact H|]. split; [exact W|]. split; [vm_compute; reflexivity|].
  destruct (draw_on_reached_layer _ _ _ _ canvasRing (Some "tiles") 0 0 H)
    as [_ Hc]; [lia|].
  destruct (Hc 1) as (i & y & t & s & d & Hi & _ & Ht & _ & _ & HS);
    [rewrite W; lia|].
  change (toInt32 (canvasHeight canvasRing / 16)) with 12 in HS.
  assert (i = 1) as -> by (vm_compute in Hi; congruence).
  vm_compute in Ht.
  assert (y = 2) as -> by congruence.
  assert (t = TileType.Surface) as -> by congruence.
  assert (s = SlopeDirection.None) as -> by congruence.
  assert (d = Decoration.None) as -> by congruence.
  destruct (HS eq_refl) as (sx & rest & E). exists sx, rest.
  rewrite E. vm_compute. reflexivity.
Defined.

(** ** The asset manager *)

Section AssetProperties.

Context {Bitmap Sample : Type}.
Implicit Types (m : @AssetManager Bitmap Sample)
  (s : @Loader Bitmap Sample) (e : @AssetEvent Bitmap Sample).

Lemma assetRun_snoc es e s :
  assetRun (es ++ [e]) s = assetStep e (assetRun es s).
Proof. unfold assetRun. rewrite foldl_app. reflexivity. Qed.

Lemma assetStep_loaderInv e s : loaderInv s → loaderInv (assetStep e s).
Proof.
  intros [Hc Hl]. destruct e as [name [b|]|name sample|name path img|k];
    cbn; try (split; assumption).
  - split; cbn; [rewrite length_app; cbn; lia | exact Hl].
  - destruct (waiting s !! k) as [[name img]|] eqn:Ek; [|split; assumption].
    split; cbn; [|lia].
    pose proof (lookup_lt_Some _ _ _ Ek) as Hk.
    rewrite length_delete by eauto. lia.
Qed.

Lemma assetRun_loaderInv es : loaderInv (assetRun es (@newLoader Bitmap Sample)).
Proof.
  induction es as [|e es IH] using rev_ind.
  - split; cbn; lia.
  - rewrite assetRun_snoc. apply assetStep_loaderInv. exact IH.
Qed.

(** X14: the progress count of the asset manager.  However the calls of
    [addBitmap], [addSample] and [loadBitmap] and the [onload] callbacks
    of the images interleave, [loaded] counts the callbacks that have run
    and [totalAssets] the calls of [loadBitmap]: [loaded] never exceeds
    [totalAssets], and [hasLoaded] answers true exactly when no image is
    still waiting for its callback (so it is true of a new manager). *)
Theorem hasLoaded_counts_callbacks (es : list (@AssetEvent Bitmap Sample)) :
  let s := assetRun es newLoader in
  loaded (manager s) + Z.of_nat (length (waiting s))
    = totalAssets (manager s)
  ∧ 0 ≤ loaded (manager s) ≤ totalAssets (manager s)
  ∧ (hasLoaded (manager s) = true ↔ waiting s = []).
Proof.
  intros s. destruct (assetRun_loaderInv es) as [Hc Hl]. fold s in Hc, Hl.
  split; [exact Hc|]. split; [lia|].
  unfold hasLoaded. rewrite bool_decide_eq_true. split.
  - intros Hle. destruct (waiting s); [reflexivity|cbn in Hc; lia].
  - intros Hw. rewrite Hw in Hc. cbn in Hc. lia.
Qed.

(** X15: the two maps of the asset manager.  A bitmap or a sample that was
    added is found under its name, and replaces what the name held; the
    other names, the other map and the counters are left alone; adding the
    bitmap [undefined] does nothing. *)
Theorem asset_maps_round_trip m name name' (b : Bitmap) (sample : Sample) :
  getBitmap name (addBitmap name (Some b) m) = Some b
  ∧ getSample name (addSample name sample m) = Some sample
  ∧ addBitmap name None m = m
  ∧ (name' ≠ name →
     getBitmap name' (addBitmap name (Some b) m) = getBitmap name' m
     ∧ getSample name' (addSample name sample m) = getSample name' m)
  ∧ getSample name' (addBitmap name (Some b) m) = getSample name' m
  ∧ getBitmap name' (addSample name sample m) = getBitmap name' m
  ∧ hasLoaded (addBitmap name (Some b) m) = hasLoaded m
  ∧ hasLoaded (addSample name sample m) = hasLoaded m.
Proof.
  unfold getBitmap, getSample, addBitmap, addSample, hasLoaded. cbn.
  split; [apply lookup_insert_eq|]. split; [apply lookup_insert_eq|].
  split; [reflexivity|].
  split; [intros Hne; split; apply lookup_insert_ne; congruence|].
  repeat split.
Qed.

Lemma assetStep_requested e s name :
  (is_Some (getBitmap name (manager s)) ∨ name ∈ (waiting s).*1) →
  is_Some (getBitmap name (manager (assetStep e s)))
  ∨ name ∈ (waiting (assetStep e s)).*1.
Proof.
  unfold getBitmap.
  destruct e as [n [b|]|n sample|n path img|k]; cbn; try tauto.
  - intros [Hb|Hw]; [left|right; exact Hw].
    rewrite lookup_insert. case_decide; [eauto|exact Hb].
  - intros [Hb|Hw]; [left; exact Hb|right].
    rewrite fmap_app. apply elem_of_app. left. exact Hw.
  - destruct (waiting s !! k) as [[n img]|] eqn:Ek; [|tauto].
    cbn. intros [Hb|Hw].
    + left. rewrite lookup_insert. case_decide; [eauto|exact Hb].
    + destruct (decide (name = n)) as [->|Hne].
      * left. rewrite lookup_insert_eq. eauto.
      * right. apply list_elem_of_fmap in Hw as ([n' img'] & -> & Hin).
        apply list_elem_of_lookup in Hin as (j & Hj).
        apply list_elem_of_fmap. exists (n', img'). split; [reflexivity|].
        destruct (decide (j = k)) as [->|Hjk]; [cbn in Hne; congruence|].
        apply list_elem_of_lookup.
        destruct (decide (j < k)%nat).
        -- exists j. rewrite list_lookup_delete_lt by assumption. exact Hj.
        -- exists (pred j). rewrite list_lookup_delete_ge by lia.
           replace (S (pred j)) with j by lia. exact Hj.
Qed.

Lemma assetRun_requested es name :
  name ∈ requested es →
  let s := assetRun es (@newLoader Bitmap Sample) in
  is_Some (getBitmap name (manager s)) ∨ name ∈ (waiting s).*1.
Proof.
  induction es as [|e es IH] using rev_ind; intros Hin.
  - inversion Hin.
  - cbn zeta. rewrite assetRun_snoc. unfold requested in Hin.
    rewrite omap_app in Hin. apply elem_of_app in Hin as [Hin|Hin].
    + apply assetStep_requested. apply IH. exact Hin.
    + destruct e as [| |n path img|]; cbn in Hin; try (inversion Hin; fail).
      apply list_elem_of_singleton in Hin as ->.
      right. cbn. rewrite fmap_app. apply elem_of_app. right.
      cbn. apply list_elem_of_singleton. reflexivity.
Qed.

(** X16: what [hasLoaded] promises.  Once [hasLoaded] answers true, every
    name that was passed to [loadBitmap] is bound by [getBitmap]. *)
Theorem hasLoaded_bitmaps_available
    (es : list (@AssetEvent Bitmap Sample)) name path img :
  LoadBitmap name path img ∈ es →
  hasLoaded (manager (assetRun es newLoader)) = true →
  is_Some (getBitmap name (manager (assetRun es newLoader))).
Proof.
  intros Hin Hl.
  assert (name ∈ requested es) as Hr.
  { unfold requested. apply list_elem_of_omap.
    exists (LoadBitmap name path img). split; [exact Hin|reflexivity]. }
  destruct (assetRun_requested es name Hr) as [Hb|Hw]; [exact Hb|].
  destruct (assetRun_loaderInv es) as [Hc _].
  unfold hasLoaded in Hl. apply bool_decide_eq_true in Hl.
  destruct (waiting (assetRun es newLoader)); [|cbn in Hc; lia].
  inversion Hw.
Qed.

End AssetProperties.

Lemma asset_maps_round_trip_witness :
  getBitmap "tiles" (addBitmap "tiles" (Some "image")
                       (@newAssetManager string string))
    = Some "image"
  ∧ getBitmap "font" (addBitmap "tiles" (Some "image")
                        (@newAssetManager string string))
    = None.
Proof.
  destruct (asset_maps_round_trip (@newAssetManager string string)
              "tiles" "font" "image" "sample")
    as (H1 & _ & _ & H2 & _).
  split; [exact H1|]. destruct H2 as [H2 _]; [discriminate|].
  rewrite H2. reflexivity.
Defined.

Lemma hasLoaded_bitmaps_available_witness :
  LoadBitmap "tiles" "tiles.png" "image of tiles.png" ∈ eventsLoad
  ∧ hasLoaded (manager (assetRun eventsLoad newLoader)) = true
  ∧ is_Some (getBitmap "tiles" (manager (assetRun eventsLoad newLoader))).
Proof.
  assert (H1 : LoadBitmap "tiles" "tiles.png" "image of tiles.png"
               ∈ eventsLoad) by constructor.
  assert (H2 : hasLoaded (manager (assetRun eventsLoad newLoader)) = true)
    by (vm_compute; reflexivity).
  split; [exact H1|]. split; [exact H2|].
  exact (hasLoaded_bitmaps_available _ _ _ _ H1 H2).
Defined.

(** ** The random numbers of a tile *)

(** Symbolic execution that keeps track of the cursor only. *)
Ltac draw_step :=
  match goal with
  | |- context [getHeightRange ?rf ?x] =>
      destruct (getHeightRange rf x) as [? ?]
  | |- context [sampleUniform ?a ?b ?t ?c] =>
      let E := fresh "E" in
      pose proof (sampleUniform_next a b t c) as E;
      destruct (sampleUniform a b t c) as [? ?]; cbn [snd] in E; subst
  | |- context [Math_random ?t ?c] =>
      let E := fresh "E" in
      pose proof (Math_random_next t c) as E;
      destruct (Math_random t c) as [? ?]; cbn [snd] in E; subst
  | |- context [decide ?P] =>
      let D := fresh "D" in destruct (decide P) as [D|D]
  | |- context [coupledSlopeTest ?rf ?x] =>
      destruct (coupledSlopeTest rf x)
  | |- context [Qltb ?a ?b] => destruct (Qltb a b)
  | _ : context [decide ?P] |- _ =>
      let D := fresh "D" in destruct (decide P) as [D|D]
  end.

Ltac draw_run :=
  unfold bind, ret; cbn; repeat (draw_step; unfold bind, ret; cbn);
  cbn in *.

(** [updateSlope] draws three numbers when a random slope begins, and none
    otherwise. *)
Lemma updateSlope_draws rf this tape c :
  let r := updateSlope rf this tape c in
  r.2 = c
  ∨ (r.2 = S (S (S c)) ∧ 3 ≤ typeWait r.1
     ∧ activeSlope r.1 ≠ SlopeDirection.None).
Proof.
  unfold updateSlope, randomSlope, expireSlope, forceAscent.
  draw_run; auto; right;
    (split; [reflexivity|split; [lia|discriminate]]).
Qed.

(** [updateType] draws nothing while the gate is closed, and at most three
    numbers when the type changes. *)
Lemma updateType_draws rf this tape c :
  let r := updateType rf this tape c in
  (1 < typeWait this ∨ lastSlope this ≠ SlopeDirection.None → r.2 = c)
  ∧ (c ≤ r.2 ≤ 3 + c)%nat.
Proof.
  unfold updateType.
  draw_run; cbn in *; destruct_and?;
    (split; [intros [?|?]; try reflexivity; (lia || congruence) | lia]).
Qed.

Lemma updateDecorations_draws rf tp this tape c :
  let r := updateDecorations rf tp this tape c in
  (c ≤ r.2 ≤ 1 + c)%nat ∧ (r.1.1 = false → r.2 = c).
Proof.
  unfold updateDecorations.
  draw_run; (split; [lia | intros; congruence]).
Qed.

(** X17: the random numbers of a tile.  A call of [update] draws at most four
    random numbers, and none at all for a flat tile that keeps the type of
    its predecessor and carries no palm tree. *)
Theorem update_draws σ l this tp tape c σ' c' g :
  σ !! l = Some this →
  update l tp σ tape c = (Some σ', c') → σ' !! l = Some g →
  (c ≤ c' ≤ 4 + c)%nat
  ∧ (activeType g = activeType this →
     activeSlope g = SlopeDirection.None →
     decorations g !! tp = Some Decoration.None →
     c' = c).
Proof.
  intros Hl Hu Hg.
  pose proof (update_inv σ l this tp tape c σ' c' g Hl Hu Hg) as Eu.
  destruct (updateSlope (resolve σ l) this tape c) as [s1 c1] eqn:E1.
  destruct (updateType (resolve σ l) s1 tape c1) as [s2 c2] eqn:E2.
  destruct (updateDecorations (resolve σ l) tp s2 tape c2)
    as [[b s3] c3] eqn:E3.
  destruct (updateLayer_arrays _ _ _ _ _ _ _ _ _ _ _ _ E1 E2 E3)
    as (g1 & Hg1 & _ & _ & _ & A4 & _ & At & As & _).
  rewrite Eu in Hg1. injection Hg1 as <- <-.
  pose proof (updateSlope_draws (resolve σ l) this tape c) as D1.
  pose proof (updateType_draws (resolve σ l) s1 tape c1) as D2.
  pose proof (updateDecorations_draws (resolve σ l) tp s2 tape c2) as D3.
  rewrite E1 in D1. rewrite E2 in D2. rewrite E3 in D3.
  cbn [fst snd] in D1, D2, D3.
  destruct D2 as [D2c D2b]. destruct D3 as [D3b D3c].
  split.
  - destruct D1 as [->|(-> & Hw & _)]; [lia|].
    rewrite D2c in D3b by (left; lia). lia.
  - intros Ht Hs Hd.
    rewrite A4, lookup_insert_eq in Hd.
    rewrite D3c by (destruct b; [discriminate|reflexivity]).
    pose proof (updateSlope_frame (resolve σ l) this tape c) as F1.
    rewrite E1 in F1. cbn [fst] in F1.
    destruct F1 as (_&_&_&_&FT&_).
    destruct D1 as [->|(_ & _ & Hn)]; [|congruence].
    apply D2c.
    destruct (updateType_cases _ _ _ _ _ _ E2)
      as [(HC & _)
         |[(_ & _ & Hns & Hsf & _)
          |(_ & _ & Hsf & _ & _ & Hk)]]; [exact HC| |]; exfalso.
    + congruence.
    + destruct Hk as [(? & _)|[(? & _)|(? & _)]]; congruence.
Qed.

Lemma update_draws_witness :
  worldClimb.1 !! 1%nat = Some (layerOf worldClimb 1)
  ∧ update 1 4 worldClimb.1 tapeForcedAscent worldClimb.2
    = (Some worldClimbed.1, worldClimbed.2)
  ∧ (worldClimb.2 ≤ worldClimbed.2 ≤ 4 + worldClimb.2)%nat.
Proof.
  assert (H1 : worldClimb.1 !! 1%nat = Some (layerOf worldClimb 1))
    by (vm_compute; reflexivity).
  assert (H2 : update 1 4 worldClimb.1 tapeForcedAscent worldClimb.2
               = (Some worldClimbed.1, worldClimbed.2))
    by (vm_compute; reflexivity).
  assert (H3 : worldClimbed.1 !! 1%nat = Some (layerOf worldClimbed 1))
    by (vm_compute; reflexivity).
  split; [exact H1|]. split; [exact H2|].
  exact (proj1 (update_draws _ _ _ _ _ _ _ _ _ H1 H2 H3)).
Defined.

(** ** The slopes of the foreground layer *)

(** [updateSlope] on a foreground layer whose running slope, if any, obeys
    its clock. *)
Lemma updateSlope_clock rf this tape c :
  layerType this = GroundLayerType.Foreground →
  (activeSlope this ≠ SlopeDirection.None →
   1 ≤ slopeDuration this ≤ 2 ∧ slopeDuration this < slopeWait this
   ∧ slopeDuration this < typeWait this) →
  let s1 := fst (updateSlope rf this tape c) in
  (activeSlope s1 ≠ SlopeDirection.None →
   1 ≤ slopeDuration s1 ≤ 2
   ∧ slopeDuration s1 < slopeWait s1
   ∧ slopeDuration s1 + 2 ≤ typeWait s1
   ∧ (activeSlope this ≠ SlopeDirection.None →
      slopeDuration this = 2 ∧ slopeDuration s1 = 1
      ∧ activeSlope s1 = activeSlope this))
  ∧ typeWait this ≤ typeWait s1.
Proof.
  intros HL Hc. unfold updateSlope. cbn zeta.
  destruct (expireSlope_frame this) as (_&_&_&_&_&_&_&_&_&_&_&_&_&EL&_).
  rewrite getHeightRange_foreground, coupledSlopeTest_foreground by congruence.
  clear EL.
  unfold randomSlope, expireSlope, clamp,
    SLOPE_DURATION_MIN, SLOPE_DURATION_MAX, SLOPE_WAIT_MIN, SLOPE_WAIT_MAX.
  rand_run.
  all: repeat match goal with
       | E : _ ≤ _ → _ |- _ => specialize (E ltac:(lia))
       end.
  all: destruct (activeSlope this) eqn:HS; cbn in *;
    try specialize (Hc ltac:(discriminate));
    (split; [intros Hn; try congruence;
             repeat split; intros; try congruence; try lia | lia]).
Qed.

Lemma updateLayer_slopeClock rf tp this tape c :
  slopeClock this → slopeClock (fst (updateLayer rf tp this tape c)).
Proof.
  intros HI.
  destruct (updateLayer rf tp this tape c) as [g c'] eqn:Eu. cbn [fst].
  apply updateLayer_steps in Eu
    as (s1 & c1 & s2 & c2 & b & s3 & E1 & E2 & _
        & _ & _ & Gs & Gw & _ & Gl & Gd & Gsw & _ & GL & _).
  intros HL. rewrite GL in HL. destruct (HI HL) as (I0 & IZ & IS).
  pose proof (updateSlope_clock rf this tape c HL) as C1.
  pose proof (updateSlope_frame rf this tape c) as F1.
  rewrite E1 in C1, F1. cbn [fst] in C1, F1.
  destruct F1 as (_&_&_&_&_&FL&_).
  destruct C1 as [CS CW]; [intros Hn; destruct (IS Hn) as (?&?&?&_); auto|].
  rewrite Gs, Gw, Gl, Gd, Gsw. clear Gs Gw Gl Gd Gsw.
  assert (HW : 1 ≤ typeWait s2
               ∧ (activeSlope s1 ≠ SlopeDirection.None →
                  slopeDuration s1 < typeWait s2)).
  { destruct (updateType_cases _ _ _ _ _ _ E2)
      as [(HC & _ & _ & HW & _)
         |[(Hw1 & _ & _ & Hsf & _ & Hw & _)
          |(Hw1 & _ & _ & _ & Hw & Hk)]].
    - rewrite HW. split.
      + destruct HC as [?|HC]; [lia|]. rewrite FL in HC.
        destruct (IS HC) as (? & _ & ? & _). lia.
      + intros Hn. destruct (CS Hn) as (? & _ & ? & _). lia.
    - pose proof (updateType_frame rf s1 tape c1) as F2.
      rewrite E2 in F2. cbn [fst] in F2.
      destruct F2 as (_&_&_&_&_&_&_&_&_&_&FY&_).
      assert (layerType s1 = GroundLayerType.Foreground) as HL1.
      { pose proof (updateSlope_frame rf this tape c) as F1.
        rewrite E1 in F1. cbn [fst] in F1.
        destruct F1 as (_&_&_&_&_&_&_&_&_&FY1&_). congruence. }
      rewrite HL1 in Hw. cbn in Hw. split; [lia|].
      intros Hn. destruct (CS Hn) as (? & _ & ? & _). lia.
    - split.
      + destruct Hk as [(HT & HF & _)|[(HT & HF & _)|(HT & HF & _)]];
          rewrite HT, HF in Hw; cbn in Hw; lia.
      + intros Hn. destruct (CS Hn) as (? & _ & ? & _). lia. }
  destruct HW as [HW1 HW2].
  split; [lia|]. split; [intros; lia|].
  intros Hn. destruct (CS Hn) as (Hd & Hsw & _ & Hc).
  split; [exact Hd|]. split; [exact Hsw|]. split; [exact (HW2 Hn)|].
  intros Hl. destruct (Hc Hl) as (_ & ? & ?). split; congruence.
Qed.

Lemma reachable_slopeClock tape ops σ c :
  run tape ops initial = Some (σ, c) → Forall slopeClock σ.
Proof.
  intros Hrun.
  refine (run_invariant _ _ _ _ tape ops initial (σ, c) _ Hrun);
    [| | |constructor].
  - intros w t s tp c0 g0 Hn.
    apply new_GroundLayer_Some in Hn as (_ & _ & Hs & _ & Hw & Hl & _).
    intros _. rewrite Hw. split; [lia|]. split; [auto|congruence].
  - intros g0 r Hg. exact Hg.
  - intros σ0 l0 tp g0 tp0 c0 HF Hl.
    apply updateLayer_slopeClock. eapply Forall_lookup_1; eassumption.
Qed.

(** X18: the slopes and the holds of the foreground layer.  In a foreground
    layer that the driver has reached, a slope runs for at most two tiles
    in one direction: the tile after two sloped tiles is flat, and a sloped
    tile that follows a sloped tile continues its direction.  A slope never
    outlasts the hold of the type, so the hold is honoured exactly: the
    type changes with the next tile if and only if the hold timer is at
    most 1, and after every tile the hold timer is at least 1. *)
Theorem foreground_slope_runs tape ops l tp σ c g g0 :
  run tape (ops ++ [Update l tp]) initial = Some (σ, c) →
  σ !! l = Some g →
  layerAfter tape ops l = Some g0 →
  layerType g = GroundLayerType.Foreground →
  (activeSlope g0 ≠ SlopeDirection.None →
   lastSlope g0 ≠ SlopeDirection.None →
   activeSlope g = SlopeDirection.None)
  ∧ (activeSlope g0 ≠ SlopeDirection.None →
     activeSlope g ≠ SlopeDirection.None →
     activeSlope g = activeSlope g0)
  ∧ (activeType g ≠ activeType g0 ↔ typeWait g0 ≤ 1)
  ∧ 1 ≤ typeWait g.
Proof.
  intros Hrun Hg Hg0 HL.
  destruct (run_snoc_update tape ops l tp σ c g Hrun Hg)
    as (σ0 & c0 & g0' & Hrun0 & Hl0 & Eu & _).
  assert (g0' = g0) as ->.
  { apply layerAfter_Some in Hg0 as (σ1 & c1 & Hr1 & Hl1). congruence. }
  pose proof (reachable_slopeClock tape ops σ0 c0 Hrun0) as HF.
  eapply Forall_lookup_1 in HF; [|exact Hl0].
  apply updateLayer_steps in Eu
    as (s1 & c1 & s2 & c2 & b & s3 & E1 & E2 & _
        & _ & Gt & Gs & Gw & _ & _ & _ & _ & _ & GL & _).
  rewrite GL in HL. destruct (HF HL) as (I0 & IZ & IS).
  pose proof (updateSlope_clock (resolve σ0 l) g0 tape c0 HL) as C1.
  pose proof (updateSlope_sloped (resolve σ0 l) g0 tape c0) as S1.
  pose proof (updateSlope_frame (resolve σ0 l) g0 tape c0) as F1.
  rewrite E1 in C1, S1, F1. cbn [fst] in C1, S1, F1.
  destruct F1 as (_&_&_&_&FT&FL&_).
  destruct C1 as [CS CW]; [intros Hn; destruct (IS Hn) as (?&?&?&_); auto|].
  rewrite Gt, Gs, Gw. clear Gt Gs Gw.
  split; [|split; [|split]].
  - intros Hn Hl.
    destruct (decide (activeSlope s1 = SlopeDirection.None)) as [?|Hs];
      [assumption|exfalso].
    destruct (CS Hs) as (_ & _ & _ & Hc). destruct (Hc Hn) as (? & _).
    destruct (IS Hn) as (_ & _ & _ & Hk). destruct (Hk Hl). lia.
  - intros Hn Hs. destruct (CS Hs) as (_ & _ & _ & Hc).
    destruct (Hc Hn) as (_ & _ & ?). assumption.
  - destruct (updateType_cases _ _ _ _ _ _ E2)
      as [(HC & HT & _)
         |[(Hw1 & _ & Hns & Hsf & _)
          |(Hw1 & _ & Hsf & _ & _ & Hk)]].
    + split; [intros; congruence|]. intros Hw. exfalso.
      assert (activeSlope g0 = SlopeDirection.None) as H0.
      { destruct (decide (activeSlope g0 = SlopeDirection.None)) as [?|Hn];
          [assumption|]. destruct (IS Hn) as (? & _ & ? & _). lia. }
      destruct HC as [HC|HC]; [|congruence].
      destruct S1 as [[_ ?]|[(_ & _ & _ & [?|(? & _)])|(? & ? & _)]];
        [lia|lia|congruence|congruence].
    + split; [intros _; lia|]. intros _. congruence.
    + split; [intros _; lia|]. intros _. rewrite <- FT, Hsf.
      destruct Hk as [(-> & _)|[(-> & _)|(-> & _)]]; discriminate.
  - destruct (updateType_cases _ _ _ _ _ _ E2)
      as [(HC & _ & _ & HW & _)
         |[(_ & _ & _ & Hsf & _ & Hw & _)
          |(_ & _ & _ & _ & Hw & Hk)]].
    + rewrite HW. destruct HC as [?|HC]; [lia|]. rewrite FL in HC.
      destruct (IS HC) as (? & _ & ? & _). lia.
    + pose proof (updateSlope_frame (resolve σ0 l) g0 tape c0) as F1.
      rewrite E1 in F1. cbn [fst] in F1.
      destruct F1 as (_&_&_&_&_&_&_&_&_&FY1&_).
      rewrite FY1, HL in Hw. cbn in Hw. lia.
    + destruct Hk as [(HT & HF' & _)|[(HT & HF' & _)|(HT & HF' & _)]];
        rewrite HT, HF' in Hw; cbn in Hw; lia.
Qed.

Lemma foreground_slope_runs_witness :
  run tapeForcedAscent ((setup 10 ++ ticks 10 6) ++ [Update 0 6]) initial
    = Some (worldHoldEnds.1, worldHoldEnds.2)
  ∧ lastSlope (layerOf worldHoldOut 0) = SlopeDirection.Up
  ∧ typeWait (layerOf worldHoldOut 0) = 1
  ∧ activeType (layerOf worldHoldEnds 0) ≠ activeType (layerOf worldHoldOut 0)
  ∧ 1 ≤ typeWait (layerOf worldHoldEnds 0).
Proof.
  assert (H1 : run tapeForcedAscent
                 ((setup 10 ++ ticks 10 6) ++ [Update 0 6]) initial
               = Some (worldHoldEnds.1, worldHoldEnds.2))
    by (vm_compute; reflexivity).
  assert (H2 : worldHoldEnds.1 !! 0%nat = Some (layerOf worldHoldEnds 0))
    by (vm_compute; reflexivity).
  assert (H3 : layerAfter tapeForcedAscent (setup 10 ++ ticks 10 6) 0
               = Some (layerOf worldHoldOut 0)) by (vm_compute; reflexivity).
  assert (H4 : layerType (layerOf worldHoldEnds 0) = GroundLayerType.Foreground)
    by (vm_compute; reflexivity).
  assert (H5 : typeWait (layerOf worldHoldOut 0) = 1)
    by (vm_compute; reflexivity).
  split; [exact H1|]. split; [vm_compute; reflexivity|]. split; [exact H5|].
  destruct (foreground_slope_runs _ _ _ _ _ _ _ _ H1 H2 H3 H4)
    as (_ & _ & Ht & Hw).
  split; [apply Ht; rewrite H5; lia | exact Hw].
Defined.

(** ** Drawing and probing *)

(** On arguments that are not negative [negMod] is [%]. *)
Lemma negMod_jsMod m n : 0 ≤ m → 0 < n → negMod m n = jsMod m n.
Proof.
  intros Hm Hn. unfold negMod, jsMod. destruct (decide (n = 0)); [lia|].
  f_equal. pose proof (Z.rem_bound_pos m n Hm Hn) as Hb.
  rewrite (Z.rem_mod_nonneg (Z.rem m n + n) n) by lia.
  rewrite <- (Z.mul_1_l n) at 2. rewrite Z.mod_add by lia.
  apply Z.mod_small. exact Hb.
Qed.

(** *** Integers as numbers

    An integer below [2^53] in absolute value is a binary64 number, and
    its integral part gives it back. *)

Lemma digits2_pos_lower p : 2 ^ (Zpos (digits2_pos p) - 1) ≤ Zpos p.
Proof.
  induction p as [p IH|p IH|]; cbn [digits2_pos].
  - rewrite Pos2Z.inj_succ.
    replace (Z.succ (Z.pos (digits2_pos p)) - 1)
      with (Z.succ (Z.pos (digits2_pos p) - 1)) by lia.
    rewrite Z.pow_succ_r by lia. lia.
  - rewrite Pos2Z.inj_succ.
    replace (Z.succ (Z.pos (digits2_pos p)) - 1)
      with (Z.succ (Z.pos (digits2_pos p) - 1)) by lia.
    rewrite Z.pow_succ_r by lia. lia.
  - reflexivity.
Qed.

Lemma iter_xO_digits p q :
  Zpos (digits2_pos (Pos.iter xO p q)) = Zpos (digits2_pos p) + Zpos q.
Proof.
  induction q as [|q IH] using Pos.peano_ind.
  - cbn. lia.
  - rewrite Pos.iter_succ. cbn [digits2_pos]. lia.
Qed.

Lemma iter_xO_value p q : Zpos (Pos.iter xO p q) = Zpos p * 2 ^ Zpos q.
Proof.
  induction q as [|q IH] using Pos.peano_ind.
  - cbn. lia.
  - rewrite Pos.iter_succ, Pos2Z.inj_xO, IH, Pos2Z.inj_succ,
      Z.pow_succ_r by lia. lia.
Qed.

(** Rounding an integer of at most 53 bits is exact: the mantissa is the
    integer shifted to 53 bits. *)
Lemma binary_round_integer sx p :
  Zpos p < 2 ^ 53 →
  ∃ m e, binary_round prec emax sx p 0 = S754_finite sx m e
    ∧ valid_binary (S754_finite sx m e) = true
    ∧ e ≤ 0 ∧ Zpos m = Zpos p * 2 ^ (- e).
Proof.
  intros Hp.
  pose proof (digits2_pos_lower p) as Hd.
  assert (Hd53 : Zpos (digits2_pos p) ≤ 53).
  { destruct (decide (Zpos (digits2_pos p) ≤ 53)) as [|Hn]; [done|].
    exfalso. assert (2 ^ 53 ≤ 2 ^ (Zpos (digits2_pos p) - 1))
      by (apply Z.pow_le_mono_r; lia). lia. }
  assert (Hal : ∃ m e,
             shl_align p 0 (fexp prec emax (Zpos (digits2_pos p) + 0))
             = (m, e)
             ∧ e = Zpos (digits2_pos p) - 53
             ∧ Zpos (digits2_pos m) = 53
             ∧ Zpos m = Zpos p * 2 ^ (- e)).
  { unfold shl_align, fexp, emin, prec, emax.
    rewrite Z.add_0_r, Z.sub_0_r.
    rewrite Z.max_l by lia.
    destruct (Z.pos (digits2_pos p) - 53) as [|q|q] eqn:E; [|lia|].
    - exists p, 0. split_and!; [done|lia|lia|]. cbn. lia.
    - exists (Pos.iter xO p q), (Zpos (digits2_pos p) - 53).
      split_and!; [by rewrite E|done| |].
      + rewrite iter_xO_digits. lia.
      + rewrite iter_xO_value. f_equal. f_equal. lia. }
  destruct Hal as (m & e & Hal & He & Hm & Hv).
  exists m, e. unfold binary_round. rewrite Hal.
  assert (Hf : fexp prec emax (53 + e) = e).
  { unfold fexp, emin, prec, emax. lia. }
  assert (Hs : shr_fexp prec emax (Zpos m) e loc_Exact
               = ({| shr_m := Zpos m; shr_r := false; shr_s := false |}, e)).
  { unfold shr_fexp. cbn [Zdigits2]. rewrite Hm, Hf, Z.sub_diag. reflexivity. }
  split_and!; [| |lia|done].
  - unfold binary_round_aux. rewrite Hs.
    cbn [shr_m loc_of_shr_record round_nearest_even]. rewrite Hs.
    cbn [shr_m]. unfold prec, emax.
    destruct (Z.leb_spec e (1024 - 53)); [done|lia].
  - unfold valid_binary, SpecFloat.valid_binary, bounded, canonical_mantissa.
    rewrite Hm, Hf, Z.eqb_refl. unfold prec, emax.
    destruct (Z.leb_spec e (1024 - 53)); [done|lia].
Qed.

Lemma shiftl_exact p e : e ≤ 0 → Z.shiftl (p * 2 ^ (- e)) e = p.
Proof.
  intros He. rewrite <- (Z.opp_involutive e) at 2.
  rewrite Z.shiftl_opp_r, Z.shiftr_div_pow2 by lia.
  apply Z.div_mul. apply Z.pow_nonzero; lia.
Qed.

Lemma truncate_ofZ k : - 2 ^ 53 < k < 2 ^ 53 → truncate (ofZ k) = k.
Proof.
  intros Hk. unfold truncate, ofZ.
  destruct k as [|p|p]; cbn [binary_normalize].
  - rewrite Prim2SF_SF2Prim by reflexivity. reflexivity.
  - destruct (binary_round_integer false p) as (m & e & -> & Hv & He & Hm);
      [lia|].
    rewrite Prim2SF_SF2Prim by exact Hv.
    cbv zeta. rewrite Hm. apply shiftl_exact, He.
  - destruct (binary_round_integer true p) as (m & e & -> & Hv & He & Hm);
      [lia|].
    rewrite Prim2SF_SF2Prim by exact Hv.
    cbv zeta. rewrite Hm, shiftl_exact by exact He. reflexivity.
Qed.

(** [x | 0] on an integer of 32 bits. *)
Lemma toInt32_ofZ k : - 2 ^ 31 ≤ k < 2 ^ 31 → toInt32 (ofZ k) = k.
Proof.
  intros Hk. unfold toInt32. rewrite truncate_ofZ by lia.
  unfold wrap32. rewrite Z.mod_small by lia. lia.
Qed.

Section DrawAndProbe.

Context {Bitmap : Type}.
Implicit Types (bmp : option Bitmap).

(** X19: what is drawn is what is probed.  On a layer that the driver has
    reached, for a tile pointer that is not negative, a column of the
    screen, an integral scroll offset, and a canvas as high as the screen of
    the event: [draw] and [objectCollision] read the same slot of the ring
    for the column.  For a gap neither draws nor reports anything.  For a
    surface the probe reports one segment and [draw] paints the top sprite
    of the tile, after the palm tree if there is one, at the left end of the
    segment and at the higher of its two ends.  For a bridge the segment is
    flat and the sprite of the bridge lies two pixels above it. *)
Theorem draw_agrees_with_probe
    tape ops l g canvas event bmp globalSpeed tp k x :
  layerAfter tape ops l = Some g →
  0 ≤ tp → 0 ≤ x < width g →
  canvasHeight canvas = screenHeight event →
  - 2 ^ 31 ≤ k < 2 ^ 31 →
  let h := toInt32 (screenHeight event / 16) in
  let drawn := drawColumn g bmp tp (ofZ k) h x in
  let probed := collideColumn g globalSpeed tp (ofZ k) event h x in
  ∃ i y t s d,
    jsMod (x + tp) (width g) = Some i
    ∧ negMod (x + tp) (width g) = Some i
    ∧ tileAt g i = (Some y, Some t, Some s, Some d)
    ∧ draw g canvas bmp tp (ofZ k)
      = flat_map (drawColumn g bmp tp (ofZ k) h) (seqZ 0 (width g))
    ∧ (t = TileType.None → drawn = [] ∧ probed = [])
    ∧ (t = TileType.Surface →
       ∃ seg palm top rest y1 y2,
         probed = [seg] ∧ drawn = palm ++ top :: rest
         ∧ Forall (λ p, db_sx p = Some 160) palm
         ∧ fc_y1 seg = Some y1 ∧ fc_y2 seg = Some y2
         ∧ db_dx top = fc_x1 seg ∧ db_dy top = Some (Z.min y1 y2)
         ∧ db_sh top = 32)
    ∧ (t = TileType.Bridge →
       ∃ seg sprite y1,
         probed = [seg] ∧ drawn = [sprite]
         ∧ fc_y1 seg = Some y1 ∧ fc_y2 seg = Some y1
         ∧ db_dx sprite = fc_x1 seg ∧ db_dy sprite = Some (y1 - 2)).
Proof.
  intros Hg Htp Hx Hc Hk h drawn probed.
  apply reachable_layer_ringInv in Hg as (_ & _ & _ & _ & HT).
  destruct (drawColumn_tiles _ g bmp tp (ofZ k) h x HT Htp Hx)
    as (i & y & t & s & d & Hi & Hr & Ht & HO & Ed).
  destruct (collideColumn_tiles _ g globalSpeed tp (ofZ k) event h x HT)
    as (i' & y' & t' & s' & d' & Hi' & _ & Ht' & _ & Ep); [lia|].
  rewrite negMod_jsMod, Hi in Hi' by lia. injection Hi' as <-.
  rewrite Ht in Ht'. injection Ht' as <- <- <- <-.
  fold drawn in Ed. fold probed in Ep.
  rewrite toInt32_ofZ in Ed by exact Hk.
  exists i, y, t, s, d. split; [exact Hi|].
  split; [rewrite negMod_jsMod by lia; exact Hi|]. split; [exact Ht|].
  split; [unfold draw; rewrite Hc; reflexivity|].
  rewrite Ed, Ep. clear Ed Ep drawn probed.
  destruct HO as (HP & HB & HF).
  assert (Hd : t ≠ TileType.Surface → d = Decoration.None).
  { intros Hn. destruct d; [reflexivity|].
    destruct HP as [? _]; [reflexivity|contradiction]. }
  split; [|split].
  - intros ->. rewrite Hd by discriminate. split; reflexivity.
  - intros ->. rewrite decide_False by discriminate.
    destruct s.
    all: eexists _, _, _, _, _, _; split; [reflexivity|].
    all: split; [cbn zeta; cbn [app]; reflexivity|].
    all: split; [destruct d; repeat constructor|].
    all: split; [reflexivity|]; split; [reflexivity|].
    all: split; [reflexivity|]; split; [|reflexivity].
    all: cbn [db_dy]; f_equal; lia.
  - intros ->. rewrite decide_False by discriminate.
    rewrite Hd by discriminate.
    assert (s = SlopeDirection.None) as ->.
    { destruct (layerType g) eqn:HL.
      - destruct (HF eq_refl) as [_ Hs].
        destruct (decide (s = SlopeDirection.None)) as [?|Hn];
          [assumption|]. specialize (Hs Hn). discriminate.
      - exfalso. apply (HB eq_refl). reflexivity. }
    eexists _, _, _. split; [reflexivity|]. split; [reflexivity|].
    split; [reflexivity|]. split; [reflexivity|]. split; [reflexivity|].
    cbn [db_dy]. unfold BRIDGE_Y_OFF. f_equal.
Qed.

End DrawAndProbe.

Lemma draw_agrees_with_probe_witness :
  layerAfter tapeForcedAscent (setup 4 ++ ticks 4 5) 0
    = Some (layerOf worldRing 0)
  ∧ width (layerOf worldRing 0) = 4
  ∧ canvasHeight canvasRing = screenHeight eventRing
  ∧ ∃ i y t s d,
      jsMod (3 + 1) (width (layerOf worldRing 0)) = Some i
      ∧ negMod (3 + 1) (width (layerOf worldRing 0)) = Some i
      ∧ tileAt (layerOf worldRing 0) i = (Some y, Some t, Some s, Some d).
Proof.
  assert (H : layerAfter tapeForcedAscent (setup 4 ++ ticks 4 5) 0
              = Some (layerOf worldRing 0)) by (vm_compute; reflexivity).
  assert (W : width (layerOf worldRing 0) = 4) by (vm_compute; reflexivity).
  split; [exact H|]. split; [exact W|]. split; [reflexivity|].
  destruct (draw_agrees_with_probe _ _ _ _ canvasRing eventRing
              (Some "tiles") 1 1 0 3 H)
    as (i & y & t & s & d & Hi & Hn & Ht & _).
  - lia.
  - rewrite W. lia.
  - reflexivity.
  - lia.
  - exists i, y, t, s, d. auto.
Defined.

(** ** A layer without tiles *)




(** ** The clock of a gap of the foreground layer *)

(** A tile of a gap of the foreground layer: the gap goes on while more
    than one tile is to come, and ends on a surface of the same height. *)
Lemma updateLayer_inGap rf tp this tape c g c' n h :
  updateLayer rf tp this tape c = (g, c') →
  inGap n h this →
  (2 ≤ n → inGap (n - 1) h g ∧ gapTimer g = gapTimer this + 1)
  ∧ (n ≤ 1 →
     layerType g = GroundLayerType.Foreground
     ∧ activeType g = TileType.Surface
     ∧ activeSlope g = SlopeDirection.None
     ∧ activeHeight g = h ∧ gapTimer g = 0
     ∧ 2 ≤ typeWait g ≤ 16).
Proof.
  intros Eu (HL & HT & HS & HW & HH).
  apply updateLayer_steps in Eu
    as (s1 & c1 & s2 & c2 & b & s3 & E1 & E2 & _
        & Gh & Gt & Gs & Gw & Gg & _ & _ & _ & _ & GL & _).
  pose proof (updateSlope_height rf this tape c) as H1.
  pose proof (updateSlope_sloped rf this tape c) as S1.
  pose proof (updateSlope_frame rf this tape c) as F1.
  rewrite E1 in H1, S1, F1. cbn [fst] in H1, S1, F1.
  destruct F1 as (_&_&_&_&FT&FL&FG&_&_&FY&_).
  destruct S1 as [[Hs1 Hw1]|[(_ & ? & _)|(? & Hc & _)]];
    [|congruence|congruence].
  rewrite Hs1 in H1. cbn in H1.
  unfold inGap. rewrite Gh, Gt, Gs, Gw, Gg, GL, Hs1. clear Gh Gt Gs Gw Gg GL.
  destruct (updateType_cases _ _ _ _ _ _ E2)
    as [(HC & HT2 & Hh & HW2 & HG)
       |[(Hle & _ & _ & Hsf & Hg0 & Hw & Hfg & _)
        |(_ & _ & ? & _)]]; [| |congruence].
  - assert (1 < typeWait s1) by (destruct HC as [?|?]; [lia|congruence]).
    rewrite decide_True in HG by congruence.
    split; [intros _|intros ?; lia].
    repeat split; try congruence; lia.
  - split; [intros ?; lia|intros _].
    rewrite FY, HL in Hw. cbn in Hw.
    rewrite Hfg by congruence.
    repeat split; try congruence; lia.
Qed.

Lemma step_inGap tape op σ c σ' c' l g n h :
  step tape op (σ, c) = Some (σ', c') → σ !! l = Some g →
  inGap n h g → Z.of_nat (updatesOf l [op]) < n →
  ∃ g', σ' !! l = Some g'
    ∧ inGap (n - Z.of_nat (updatesOf l [op])) h g'
    ∧ gapTimer g' = gapTimer g + Z.of_nat (updatesOf l [op]).
Proof.
  intros Hs Hl HI Hn. destruct op as [w t s|l0 r|l0 tp]; cbn in Hs, Hn |- *.
  - destruct (new_GroundLayer w t s tape c) as [[g0|] c1]; cbn in Hs;
      [|discriminate].
    injection Hs as <- <-. exists g.
    split; [apply lookup_app_l_Some; exact Hl|].
    rewrite Z.sub_0_r, Z.add_0_r. auto.
  - unfold setReferenceLayer in Hs.
    destruct (σ !! l0) as [g0|] eqn:El0; cbn in Hs; [|discriminate].
    destruct (σ !! r) as [g1|]; cbn in Hs; [|discriminate].
    injection Hs as <- <-. rewrite Z.sub_0_r, Z.add_0_r.
    destruct (decide (l0 = l)) as [->|Hne].
    + exists (set_ref (Some r) g0).
      split; [apply list_lookup_insert_eq; eapply lookup_lt_Some; exact Hl|].
      assert (g0 = g) as -> by congruence. split; [exact HI|reflexivity].
    + exists g. rewrite list_lookup_insert_ne by exact Hne. auto.
  - destruct (σ !! l0) as [g0|] eqn:El0;
      [|unfold update in Hs; rewrite El0 in Hs; discriminate].
    rewrite (update_layer σ l0 g0 tp tape c El0) in Hs.
    destruct (updateLayer (resolve σ l0) tp g0 tape c) as [g1 c1] eqn:Eu.
    cbn in Hs. injection Hs as <- <-.
    destruct (decide (l0 = l)) as [->|Hne].
    + assert (g0 = g) as -> by congruence.
      exists g1.
      split; [apply list_lookup_insert_eq; eapply lookup_lt_Some; exact Hl|].
      destruct (updateLayer_inGap _ _ _ _ _ _ _ _ _ Eu HI) as [Hgo _].
      destruct Hgo as [Hg1 Ht1]; [lia|].
      split; [|lia]. replace (n - Z.of_nat (1 + 0)) with (n - 1) by lia.
      exact Hg1.
    + exists g. rewrite list_lookup_insert_ne by exact Hne.
      rewrite Z.sub_0_r, Z.add_0_r. auto.
Qed.

Lemma run_inGap tape l ops : ∀ σ c σ' c' g n h,
  run tape ops (σ, c) = Some (σ', c') → σ !! l = Some g →
  inGap n h g → Z.of_nat (updatesOf l ops) < n →
  ∃ g', σ' !! l = Some g'
    ∧ inGap (n - Z.of_nat (updatesOf l ops)) h g'
    ∧ gapTimer g' = gapTimer g + Z.of_nat (updatesOf l ops).
Proof.
  induction ops as [|op ops IH]; intros σ c σ' c' g n h Hrun Hl HI Hn.
  - cbn in Hrun. injection Hrun as <- <-. exists g. cbn.
    rewrite Z.sub_0_r, Z.add_0_r. auto.
  - cbn [run] in Hrun.
    destruct (step tape op (σ, c)) as [[σ1 c1]|] eqn:Es;
      cbn [mbind option_bind] in Hrun; [|discriminate].
    change (op :: ops) with ([op] ++ ops) in Hn |- *.
    rewrite updatesOf_app in Hn |- *.
    destruct (step_inGap tape op σ c σ1 c1 l g n h Es Hl HI)
      as (g1 & Hl1 & HI1 & Hg1); [lia|].
    destruct (IH σ1 c1 σ' c' g1 _ h Hrun Hl1 HI1) as (g' & Hl' & HI' & Hg');
      [lia|].
    exists g'. split; [exact Hl'|]. split; [|lia].
    replace (n - Z.of_nat (updatesOf l [op] + updatesOf l ops))
      with (n - Z.of_nat (updatesOf l [op]) - Z.of_nat (updatesOf l ops))
      by lia.
    exact HI'.
Qed.

(** X21: the clock of a gap of the foreground layer.  While a foreground
    layer is in a gap (and flat), its hold timer is the number of tiles up
    to the platform and its gap timer steps with the tiles of the gap:
    after [k] calls of [update] on the layer, fewer than the hold timer and
    among any other operations, the layer is still in the gap at the same
    height, the hold timer is [k] less and the gap timer [k] more.  When the
    hold timer is 1 the next tile is the platform: a flat surface at the
    height that the layer has had throughout the gap, with the distance 0
    from the platform. *)
Theorem foreground_gap_countdown tape ops σ c σ' c' l g :
  run tape ops (σ, c) = Some (σ', c') → σ !! l = Some g →
  layerType g = GroundLayerType.Foreground →
  hasGap g = true → activeSlope g = SlopeDirection.None →
  Z.of_nat (updatesOf l ops) < typeWait g →
  ∃ g', σ' !! l = Some g'
    ∧ hasGap g' = true
    ∧ typeWait g' = typeWait g - Z.of_nat (updatesOf l ops)
    ∧ gapTimer g' = gapTimer g + Z.of_nat (updatesOf l ops)
    ∧ getHeight g' = getHeight g
    ∧ (typeWait g' = 1 →
       ∀ tp σ2 c2 g2,
         update l tp σ' tape c' = (Some σ2, c2) → σ2 !! l = Some g2 →
         hasGap g2 = false
         ∧ activeType g2 = TileType.Surface
         ∧ activeSlope g2 = SlopeDirection.None
         ∧ getHeight g2 = getHeight g
         ∧ getDistanceFromPlatform g2 = 0).
Proof.
  intros Hrun Hl HL Hgap%bool_decide_eq_true HS Hn.
  assert (HI : inGap (typeWait g) (activeHeight g) g)
    by (repeat split; assumption).
  destruct (run_inGap tape l ops σ c σ' c' g _ _ Hrun Hl HI Hn)
    as (g' & Hl' & HI' & Hg').
  exists g'. split; [exact Hl'|].
  pose proof HI' as (HL' & HT' & HS' & HW' & HH').
  unfold hasGap, getHeight, getDistanceFromPlatform.
  split; [apply bool_decide_eq_true; exact HT'|].
  split; [exact HW'|]. split; [exact Hg'|]. split; [exact HH'|].
  intros H1 tp σ2 c2 g2 Hu Hl2.
  pose proof (update_inv σ' l g' tp tape c' σ2 c2 g2 Hl' Hu Hl2) as Eu.
  destruct (updateLayer_inGap _ _ _ _ _ _ _ _ _ Eu HI') as [_ Hend].
  destruct Hend as (_ & Ht2 & Hs2 & Hh2 & Hg2 & Hw2); [lia|].
  split; [apply bool_decide_eq_false; congruence|].
  split; [exact Ht2|]. split; [exact Hs2|]. split; [exact Hh2|]. lia.
Qed.

Lemma foreground_gap_countdown_witness :
  run tapeForcedAscent [Update 0 1; Update 1 1]
    (worldGapOpen.1, worldGapOpen.2)
    = Some (worldGapEnds.1, worldGapEnds.2)
  ∧ hasGap (layerOf worldGapOpen 0) = true
  ∧ typeWait (layerOf worldGapOpen 0) = 2
  ∧ ∃ g', worldGapEnds.1 !! 0%nat = Some g'
      ∧ hasGap g' = true
      ∧ typeWait g' = 2 - 1
      ∧ gapTimer g' = gapTimer (layerOf worldGapOpen 0) + 1.
Proof.
  assert (H1 : run tapeForcedAscent [Update 0 1; Update 1 1]
                 (worldGapOpen.1, worldGapOpen.2)
               = Some (worldGapEnds.1, worldGapEnds.2))
    by (vm_compute; reflexivity).
  assert (H2 : worldGapOpen.1 !! 0%nat = Some (layerOf worldGapOpen 0))
    by (vm_compute; reflexivity).
  assert (H3 : hasGap (layerOf worldGapOpen 0) = true)
    by (vm_compute; reflexivity).
  assert (H4 : typeWait (layerOf worldGapOpen 0) = 2)
    by (vm_compute; reflexivity).
  split; [exact H1|]. split; [exact H3|]. split; [exact H4|].
  destruct (foreground_gap_countdown _ _ _ _ _ _ _ _ H1 H2)
    as (g' & Hl & Hg & Hw & Ht & _).
  - vm_compute. reflexivity.
  - exact H3.
  - vm_compute. reflexivity.
  - rewrite H4. vm_compute. reflexivity.
  - exists g'. rewrite H4 in Hw. auto.
Defined.

(** ** What the asset manager keeps *)

Section AssetPersistence.

Context {Bitmap Sample : Type}.
Implicit Types (s : @Loader Bitmap Sample) (e : @AssetEvent Bitmap Sample).

Lemma assetStep_extends e s : extends s (assetStep e s).
Proof.
  unfold extends, getBitmap, getSample.
  destruct e as [n [b|]|n sample|n path img|k]; cbn.
  - split; [|split; [auto|lia]].
    intros name Hb. rewrite lookup_insert. case_decide; [eauto|exact Hb].
  - split; [auto|]. split; [auto|lia].
  - split; [auto|]. split; [|lia].
    intros name Hb. rewrite lookup_insert. case_decide; [eauto|exact Hb].
  - split; [auto|]. split; [auto|lia].
  - destruct (waiting s !! k) as [[n img]|]; cbn;
      [|split; [auto|split; [auto|lia]]].
    split; [|split; [auto|lia]].
    intros name Hb. rewrite lookup_insert. case_decide; [eauto|exact Hb].
Qed.

(** X22: the asset manager forgets nothing.  Whatever calls and callbacks
    follow, a name that [getBitmap] or [getSample] binds stays bound,
    [loaded] and [totalAssets] never decrease. *)
Theorem assets_persist (es es' : list (@AssetEvent Bitmap Sample)) s name :
  let s1 := assetRun es s in
  let s2 := assetRun (es ++ es') s in
  (is_Some (getBitmap name (manager s1)) →
   is_Some (getBitmap name (manager s2)))
  ∧ (is_Some (getSample name (manager s1)) →
     is_Some (getSample name (manager s2)))
  ∧ loaded (manager s1) ≤ loaded (manager s2)
  ∧ totalAssets (manager s1) ≤ totalAssets (manager s2).
Proof.
  cbn zeta.
  enough (extends (assetRun es s) (assetRun (es ++ es') s)) as (H1 & H2 & H3).
  { split; [apply H1|]. split; [apply H2|]. exact H3. }
  induction es' as [|e es' IH] using rev_ind.
  - rewrite app_nil_r. repeat split; auto; lia.
  - rewrite app_assoc, assetRun_snoc.
    destruct IH as (A1 & A2 & A3 & A4).
    destruct (assetStep_extends e (assetRun (es ++ es') s))
      as (B1 & B2 & B3 & B4).
    split; [auto|]. split; [auto|]. lia.
Qed.

End AssetPersistence.

Lemma assets_persist_witness :
  is_Some (getBitmap "tiles" (manager (assetRun eventsLoad newLoader)))
  ∧ is_Some
      (getBitmap "tiles"
         (manager
            (assetRun
               (eventsLoad
                ++ [LoadBitmap "font" "font.png" "image of font.png"])
               newLoader))).
Proof.
  assert (H : is_Some
                (getBitmap "tiles" (manager (assetRun eventsLoad newLoader))))
    by (vm_compute; eauto).
  split; [exact H|].
  exact (proj1 (assets_persist eventsLoad
                  [LoadBitmap "font" "font.png" "image of font.png"]
                  newLoader "tiles") H).
Defined.
